(** * MuonCVXDDigitiser: pixel matrix, clustering and hit reconstruction

    A shallow embedding of the pixel read-out emulation of the
    MuonCVXDDigitiser package and the properties stated for it.

    Conventions used throughout.

    - A C++ [int] is a [Z]; the result of every arithmetic operation is
      brought back into the signed 32-bit range with [wrap32] (two's
      complement, what the compiled code does; the C++ standard leaves signed
      overflow undefined).
    - A C++ [float] or [double] is an exact rational [Q]: rounding is not
      modelled.  Results that are compared are compared with [==].
    - [std::vector] is a [list]; [std::unordered_map] is a [gmap].
    - The repository's headers declare the classes; where the body of a
      member function is not part of the sources at hand, its definition is
      introduced by a comment starting with "Modelled from the spec:". *)

From Stdlib Require Import ZArith QArith Qround Lia Lqa.
From stdpp Require Import gmap list strings sorting.

Local Open Scope Z_scope.

(** ** 32-bit signed integers *)

Module Int32.

Definition INT_MIN : Z := - 2 ^ 31.
Definition INT_MAX : Z := 2 ^ 31 - 1.

Definition in_range (z : Z) : Prop := INT_MIN <= z <= INT_MAX.

Definition wrap32 (z : Z) : Z := (z + 2 ^ 31) mod 2 ^ 32 - 2 ^ 31.

Definition add (a b : Z) : Z := wrap32 (a + b).
Definition sub (a b : Z) : Z := wrap32 (a - b).
Definition mul (a b : Z) : Z := wrap32 (a * b).
(** [/] and [%] of C++ truncate toward zero. *)
Definition div (a b : Z) : Z := wrap32 (Z.quot a b).
Definition rem (a b : Z) : Z := wrap32 (Z.rem a b).

End Int32.

(** ** Conversions between [double] and [int] *)

(** Truncation toward zero, the rounding of the conversion [int(x)]. *)
Definition Qtrunc (q : Q) : Z := Z.quot (Qnum q) (Zpos (Qden q)).

(** [int(x)] for a [double] x: defined only when the truncated value is
    representable. *)
Definition int_of_double (q : Q) : option Z :=
  let t := Qtrunc q in
  if (Int32.INT_MIN <=? t) && (t <=? Int32.INT_MAX) then Some t else None.

(** A quotient that is then converted to [int]: with a zero divisor the
    quotient is an infinity or a NaN and the conversion has no value. *)
Definition int_of_quotient (a b : Q) : option Z :=
  if Qeq_bool b 0 then None else int_of_double (a / b).

(** [double(i)] *)
Definition double_of_int (i : Z) : Q := inject_Z i.

(** ** GridPosition (PixelDigiMatrix.h) *)

Record GridCoordinate : Type := mkGridCoordinate { row : Z; col : Z }.

(** [GridPosition(int rows, int cols) : b_size(cols)]: the row count is
    ignored by the constructor. *)
Record GridPosition : Type := mkGridPositionRaw { b_size : Z }.

Definition mkGridPosition (rows cols : Z) : GridPosition :=
  {| b_size := cols |}.

(** [LinearPosition operator()(int row, int col)] *)
Definition to_linear (g : GridPosition) (r c : Z) : Z :=
  Int32.add (Int32.mul r (b_size g)) c.

(** [GridCoordinate operator()(LinearPosition pos)]: an integer division by
    zero has no result. *)
Definition to_coordinate (g : GridPosition) (pos : Z) : option GridCoordinate :=
  if b_size g =? 0 then None
  else Some {| row := Int32.div pos (b_size g); col := Int32.rem pos (b_size g) |}.

(** ** PixelDigiMatrix: declarations of the header *)

Inductive PixelStatus : Type :=
| on | off | ready | start | out_of_bounds | geometry_error.

Record PixelData : Type := mkPixelData {
  pd_charge : Q;
  pd_time : Q;
  pd_status : PixelStatus
}.

Inductive MatrixStatus : Type :=
| ok | pixel_number_error | segment_number_error.

Record SegmentDigiHit : Type := mkSegmentDigiHit {
  hit_x : Q;
  hit_y : Q;
  hit_charge : Q;
  hit_time : Q;
  hit_cellID0 : Z
}.

(** [PixelDigiMatrix::PixelRawData] *)
Record PixelRawData : Type := mkPixelRawData {
  charge : Q;
  counter : Z;
  active : bool
}.

(** The data members of [PixelDigiMatrix].  The two vectors [num_start] and
    [num_ready] are declared by the header, but no member function that
    is modelled below reads them; they are left out. *)
Record PixelDigiMatrix : Type := mkPixelDigiMatrix {
  _barrel_id : Z;
  _layer : Z;
  _ladder : Z;
  _thickness : Q;
  _pixelSizeX : Q;
  _pixelSizeY : Q;
  _ladderLength : Q;
  _ladderWidth : Q;
  l_rows : Z;
  l_columns : Z;
  s_rows : Z;
  s_colums : Z;
  x_segnum : Z;
  y_segnum : Z;
  cellFmtStr : string;
  _thr_level : Q;
  clock_time : Q;
  clock_step : Q;
  delta_c : Q;
  s_locate : GridPosition;
  pixels : list PixelRawData;
  status : MatrixStatus;
  _active : bool
}.

(** *** Inline members of the header *)

(** [inline int index(int x, int y) { return x * l_columns + y; }] *)
Definition index (m : PixelDigiMatrix) (x y : Z) : Z :=
  Int32.add (Int32.mul x (l_columns m)) y.

(** [inline bool check(int x, int y)
      { return (0 <= x and x < l_rows) and (0 <= y || y < l_columns); }] *)
Definition check (m : PixelDigiMatrix) (x y : Z) : bool :=
  ((0 <=? x) && (x <? l_rows m)) && ((0 <=? y) || (y <? l_columns m)).

(** [inline int XToPixelRow(double x)
      { return int((x + _ladderWidth / 2) / _pixelSizeX); }] *)
Definition XToPixelRow (m : PixelDigiMatrix) (x : Q) : option Z :=
  int_of_quotient (x + _ladderWidth m / 2)%Q (_pixelSizeX m).

(** [inline int YToPixelCol(double y)
      { return int((y + _ladderLength / 2) / _pixelSizeY); }] *)
Definition YToPixelCol (m : PixelDigiMatrix) (y : Q) : option Z :=
  int_of_quotient (y + _ladderLength m / 2)%Q (_pixelSizeY m).

(** [inline double PixelRowToX(int ix)
      { return ((0.5 + double(ix)) * _pixelSizeX) - _ladderWidth / 2; }] *)
Definition PixelRowToX (m : PixelDigiMatrix) (ix : Z) : Q :=
  (((1 # 2) + double_of_int ix) * _pixelSizeX m - _ladderWidth m / 2)%Q.

(** [inline double PixelColToY(int iy)
      { return ((0.5 + double(iy)) * _pixelSizeY) - _ladderLength / 2; }] *)
Definition PixelColToY (m : PixelDigiMatrix) (iy : Z) : Q :=
  (((1 # 2) + double_of_int iy) * _pixelSizeY m - _ladderLength m / 2)%Q.

(** [inline int SensorRowToLadderRow(int seg_x, int pos_x)] and its twin. *)
Definition SensorRowToLadderRow (m : PixelDigiMatrix) (seg_x pos_x : Z) : Z :=
  Int32.add (Int32.mul seg_x (s_rows m)) pos_x.

Definition SensorColToLadderCol (m : PixelDigiMatrix) (seg_y pos_y : Z) : Z :=
  Int32.add (Int32.mul seg_y (s_colums m)) pos_y.

Definition GetStatus (m : PixelDigiMatrix) : MatrixStatus := status m.

(** *** Member functions whose bodies are outside the header *)

#[global] Instance PixelStatus_eq_dec : EqDecision PixelStatus.
Proof. solve_decision. Defined.

#[global] Instance MatrixStatus_eq_dec : EqDecision MatrixStatus.
Proof. solve_decision. Defined.

(** A vector element accessed through an [int] index.  An access outside the
    vector is undefined in C++: a read has no value, a write leaves the
    vector as it is. *)
Definition vec_read {A : Type} (v : list A) (i : Z) : option A :=
  if 0 <=? i then v !! Z.to_nat i else None.

Definition vec_alter {A : Type} (f : A -> A) (i : Z) (v : list A) : list A :=
  if 0 <=? i then alter f (Z.to_nat i) v else v.

Definition holds_charge (pix : PixelRawData) : bool :=
  negb (Qeq_bool (charge pix) 0).

Definition any_charge (v : list PixelRawData) : bool := existsb holds_charge v.

Definition empty_pixel : PixelRawData :=
  {| charge := 0; counter := 0; active := false |}.

(** The matrix with another pixel store, activity flag and clock. *)
Definition with_state (m : PixelDigiMatrix) (px : list PixelRawData)
    (act : bool) (t : Q) : PixelDigiMatrix :=
  {| _barrel_id := _barrel_id m; _layer := _layer m; _ladder := _ladder m;
     _thickness := _thickness m;
     _pixelSizeX := _pixelSizeX m; _pixelSizeY := _pixelSizeY m;
     _ladderLength := _ladderLength m; _ladderWidth := _ladderWidth m;
     l_rows := l_rows m; l_columns := l_columns m;
     s_rows := s_rows m; s_colums := s_colums m;
     x_segnum := x_segnum m; y_segnum := y_segnum m;
     cellFmtStr := cellFmtStr m; _thr_level := _thr_level m;
     clock_time := t; clock_step := clock_step m; delta_c := delta_c m;
     s_locate := s_locate m; pixels := px; status := status m;
     _active := act |}.

(** Modelled from the spec: the number of pixels of a given pitch along an
    extent of the ladder, which the constructor (body missing) derives
    from its arguments.  "index = floor((coordinate + half-extent)/pixel-size)":
    the indices of an extent run up to extent / pitch. *)
Definition pixel_count (extent pitch : Q) : Z :=
  default 0 (int_of_quotient extent pitch).

(** Modelled from the spec: whether a segment count tiles a pixel count
    evenly, the test of the constructor (body missing). *)
Definition tiles_evenly (n seg : Z) : bool :=
  (0 <? seg) && (Int32.rem n seg =? 0).

(** Modelled from the spec: the constructor [PixelDigiMatrix::PixelDigiMatrix],
    whose body is missing.  "fails with a geometry error if segment counts do
    not evenly tile the ladder dimensions"; "l_rows = x_segnum·s_rows,
    l_columns = y_segnum·s_colums"; "geometry error [...] fatal at
    construction, instance unusable": a failed construction allocates no
    pixel. *)
Definition new_PixelDigiMatrix (layer ladder xsegmentNumber ysegmentNumber : Z)
    (ladderLength ladderWidth thickness pixelSizeX pixelSizeY : Q)
    (enc_str : string) (barrel_id : Z) (thr fe_slope starttime t_step : Q)
    : PixelDigiMatrix :=
  let n_rows := pixel_count ladderWidth pixelSizeX in
  let n_cols := pixel_count ladderLength pixelSizeY in
  let good := tiles_evenly n_rows xsegmentNumber
              && tiles_evenly n_cols ysegmentNumber in
  let sr := if good then Int32.div n_rows xsegmentNumber else 0 in
  let sc := if good then Int32.div n_cols ysegmentNumber else 0 in
  {| _barrel_id := barrel_id; _layer := layer; _ladder := ladder;
     _thickness := thickness;
     _pixelSizeX := pixelSizeX; _pixelSizeY := pixelSizeY;
     _ladderLength := ladderLength; _ladderWidth := ladderWidth;
     l_rows := n_rows; l_columns := n_cols;
     s_rows := sr; s_colums := sc;
     x_segnum := xsegmentNumber; y_segnum := ysegmentNumber;
     cellFmtStr := enc_str; _thr_level := thr;
     clock_time := starttime; clock_step := t_step;
     delta_c := (fe_slope * t_step)%Q;
     s_locate := mkGridPosition sr sc;
     pixels := if good
               then replicate (Z.to_nat (Int32.mul n_rows n_cols)) empty_pixel
               else [];
     status := if good then ok else segment_number_error;
     _active := false |}.

(** Modelled from the spec: [PixelDigiMatrix::IsOverThreshold] (body missing),
    "charge ≥ threshold". *)
Definition IsOverThreshold (m : PixelDigiMatrix) (q : Q) : bool :=
  Qle_bool (_thr_level m) q.

(** Modelled from the spec: the names the spec gives to the pixel states
    (idle, charging, ready, discharging), read as the enumerators [off],
    [start], [ready] and [on] of the header. *)
Definition idle : PixelStatus := off.
Definition charging : PixelStatus := start.
Definition discharging : PixelStatus := on.

(** Modelled from the spec: [PixelDigiMatrix::calc_status] (body missing).
    "charge ≥ threshold → ready; 0 < charge < threshold → charging;
    charge = 0 → idle". *)
Definition calc_status (m : PixelDigiMatrix) (pix : PixelRawData) : PixelStatus :=
  if IsOverThreshold m (charge pix) then ready
  else if negb (Qle_bool (charge pix) 0) then charging
  else idle.


(** Modelled from the spec: "accumulates charge" on one pixel. *)
Definition add_charge (chrg : Q) (pix : PixelRawData) : PixelRawData :=
  {| charge := (charge pix + chrg)%Q; counter := counter pix; active := true |}.

(** Modelled from the spec: [PixelDigiMatrix::UpdatePixel] (body missing).
    "accumulates charge; indices outside [0,l_rows)×[0,l_columns) are [...]
    silently ignored".  The bounds test is the [check] of the header. *)
Definition UpdatePixel (m : PixelDigiMatrix) (x y : Z) (chrg : Q) : PixelDigiMatrix :=
  if check m x y then
    let px := vec_alter (add_charge chrg) (index m x y) (pixels m) in
    with_state m px (any_charge px) (clock_time m)
  else m.

(** Modelled from the spec: a pixel "with nonzero charge or pending decay". *)
Definition pending (pix : PixelRawData) : bool :=
  holds_charge pix || (0 <? counter pix).

(** Modelled from the spec: "reduce charge by slope·step (floored at
    zero)". *)
Definition decay (d q : Q) : Q :=
  if Qle_bool (q - d) 0 then 0%Q else (q - d)%Q.

(** Modelled from the spec: what [ClockSync] does to one pixel. *)
Definition clock_pixel (d : Q) (pix : PixelRawData) : PixelRawData :=
  if pending pix then
    let q := decay d (charge pix) in
    {| charge := q; counter := Int32.sub (counter pix) 1;
       active := negb (Qeq_bool q 0) |}
  else pix.

(** Modelled from the spec: [PixelDigiMatrix::ClockSync] (body missing).
    "for every pixel with nonzero charge or pending decay: decrement counter,
    reduce charge by slope·step (floored at zero), recompute status [...];
    advances internal clock by one step".  The status is not stored: it is
    what [calc_status] returns for the pixel. *)
Definition ClockSync (m : PixelDigiMatrix) : PixelDigiMatrix :=
  let px := map (clock_pixel (delta_c m)) (pixels m) in
  with_state m px (any_charge px) (clock_time m + clock_step m)%Q.


(** Modelled from the spec: [PixelDigiMatrix::GetPixel(int x, int y)] (body
    missing).  "Per-pixel out-of-bounds / geometry-error status": a matrix
    that failed construction answers [geometry_error], an index refused by
    [check] answers [out_of_bounds]. *)
Definition GetPixel (m : PixelDigiMatrix) (x y : Z) : PixelData :=
  if decide (status m = ok) then
    if check m x y then
      match vec_read (pixels m) (index m x y) with
      | Some pix =>
          {| pd_charge := charge pix; pd_time := clock_time m;
             pd_status := calc_status m pix |}
      | None => {| pd_charge := 0; pd_time := 0; pd_status := out_of_bounds |}
      end
    else {| pd_charge := 0; pd_time := 0; pd_status := out_of_bounds |}
  else {| pd_charge := 0; pd_time := 0; pd_status := geometry_error |}.

(** Modelled from the spec: [PixelDigiMatrix::CheckStatus(int, int,
    PixelStatus)] (body missing). *)
Definition CheckStatus (m : PixelDigiMatrix) (x y : Z) (pstat : PixelStatus) : bool :=
  bool_decide (pd_status (GetPixel m x y) = pstat).

(** ** MuonCVXDDigitiser (MuonCVXDDigitiser.cc) *)

Module Digitiser.

(** What [ReconstructTrackerHit] reads of a [SimTrackerHit]: [getEDep()] and
    [getPosition()]. *)
Record SimTrackerHit : Type := mkSimTrackerHit {
  getEDep : Q;
  getPosition : Q * Q * Q
}.

(** What [ReconstructTrackerHit] sets of the [TrackerHitPlaneImpl] it
    returns.  [setdU] and [setdV] (a pixel size over the square root of 12)
    are left out. *)
Record TrackerHitPlane : Type := mkTrackerHitPlane {
  EDep : Q;
  Position : Q * Q * Q
}.

(** The data members read by the functions below.  [keV] stands for the
    unit constant [dd4hep::keV], which the sources at hand do not define. *)
Record MuonCVXDDigitiser : Type := mkMuonCVXDDigitiser {
  _tanLorentzAngleX : Q;
  _tanLorentzAngleY : Q;
  _pixelSizeX : Q;
  _pixelSizeY : Q;
  _electronsPerKeV : Q;
  _threshold : Q;
  _currentLayer : Z;
  _layerHalfThickness : list Q;
  _layerLadderLength : list Q;
  _layerLadderHalfWidth : list Q;
  keV : Q
}.

(** The result of a function returning a pointer: [nullptr], an object, or
    no defined result at all (a vector read outside its bounds). *)
Inductive pointer (A : Type) : Type :=
| nullptr
| object (a : A)
| undefined.
Arguments nullptr {A}.
Arguments object {A} a.
Arguments undefined {A}.

(** The local variables of the loop of [ReconstructTrackerHit]. *)
Record RecoLocals : Type := mkRecoLocals {
  pos0 : Q;
  pos1 : Q;
  r_charge : Q;
  size : Z
}.

(** One iteration:
    [if (hit->getEDep() <= _threshold) continue;
     size += 1; charge += hit->getEDep();
     pos[0] += hit->getPosition()[0]; pos[1] += hit->getPosition()[1];] *)
Definition reco_step (d : MuonCVXDDigitiser) (a : RecoLocals) (hit : SimTrackerHit)
    : RecoLocals :=
  if Qle_bool (getEDep hit) (_threshold d) then a
  else {| pos0 := (pos0 a + (getPosition hit).1.1)%Q;
          pos1 := (pos1 a + (getPosition hit).1.2)%Q;
          r_charge := (r_charge a + getEDep hit)%Q;
          size := Int32.add (size a) 1 |}.

(** [for (int iHit=0; iHit < int(simTrkVec.size()); ++iHit)]: the bound is the
    vector's size converted to [int]. *)
Definition reco_loop (d : MuonCVXDDigitiser) (simTrkVec : list SimTrackerHit)
    : RecoLocals :=
  let n := Int32.wrap32 (Z.of_nat (length simTrkVec)) in
  fold_left (reco_step d) (take (Z.to_nat n) simTrkVec)
    {| pos0 := 0; pos1 := 0; r_charge := 0; size := 0 |}.

(** [TrackerHitPlaneImpl *ReconstructTrackerHit(SimTrackerHitImplVec &)] *)
Definition ReconstructTrackerHit (d : MuonCVXDDigitiser)
    (simTrkVec : list SimTrackerHit) : pointer TrackerHitPlane :=
  let a := reco_loop d simTrkVec in
  if negb (Qle_bool (r_charge a) 0) then
    match vec_read (_layerHalfThickness d) (_currentLayer d) with
    | Some ht =>
        object
          {| EDep := ((r_charge a / _electronsPerKeV d) * keV d)%Q;
             Position :=
               ((pos0 a / double_of_int (size a) - ht * _tanLorentzAngleX d)%Q,
                (pos1 a / double_of_int (size a) - ht * _tanLorentzAngleY d)%Q,
                0%Q) |}
    | None => undefined
    end
  else nullptr.

(** [void TransformXYToCellID(double x, double y, int & ix, int & iy)] *)
Definition TransformXYToCellID (d : MuonCVXDDigitiser) (x y : Q) : option (Z * Z) :=
  len ← vec_read (_layerLadderLength d) (_currentLayer d);
  iy ← int_of_quotient (y + len / 2)%Q (_pixelSizeY d);
  hw ← vec_read (_layerLadderHalfWidth d) (_currentLayer d);
  ix ← int_of_quotient (x + hw)%Q (_pixelSizeX d);
  Some (ix, iy).

(** [void TransformCellIDToXY(int ix, int iy, double & x, double & y)] *)
Definition TransformCellIDToXY (d : MuonCVXDDigitiser) (ix iy : Z) : option (Q * Q) :=
  len ← vec_read (_layerLadderLength d) (_currentLayer d);
  hw ← vec_read (_layerLadderHalfWidth d) (_currentLayer d);
  Some ((((1 # 2) + double_of_int ix) * _pixelSizeX d - hw)%Q,
        (((1 # 2) + double_of_int iy) * _pixelSizeY d - len / 2)%Q).

End Digitiser.

(** ** GridPartitionedSet (HKBaseSensor.h), the find-union structure *)

Definition vec_write {A : Type} (v : list A) (i : Z) (a : A) : list A :=
  vec_alter (fun _ => a) i v.

(** The sum of a list of charges. *)
Definition Qsum (l : list Q) : Q := foldr Qplus 0%Q l.

Module GridSet.

(** [GridPartitionedSet::ClusterData] *)
Record ClusterData : Type := mkClusterData { label : Z; pos : Z }.

(** The data members of [GridPartitionedSet].  A [ClusterOfPixel] is a
    [list Z] of linear positions. *)
Record GridPartitionedSet : Type := mkGridPartitionedSet {
  rows : Z;
  columns : Z;
  valid_cells : Z;
  c_curr : Z;
  c_next : Z;
  locate : GridPosition;
  data : list Z;
  c_buffer : list ClusterData
}.

Definition with_data (g : GridPartitionedSet) (dt : list Z) (vc : Z) : GridPartitionedSet :=
  {| rows := rows g; columns := columns g; valid_cells := vc;
     c_curr := c_curr g; c_next := c_next g; locate := locate g;
     data := dt; c_buffer := c_buffer g |}.

Definition with_buffer (g : GridPartitionedSet) (buf : list ClusterData) (cur nxt : Z)
    : GridPartitionedSet :=
  {| rows := rows g; columns := columns g; valid_cells := valid_cells g;
     c_curr := cur; c_next := nxt; locate := locate g;
     data := data g; c_buffer := buf |}.

(** The sentinel that marks a cell taken out of the pass and that [find]
    returns for it. *)
Definition sentinel : Z := -1.

(** Modelled from the spec: the constructor [GridPartitionedSet(int n_row,
    int n_col)] (body missing): one cell of [data] per pixel of the grid. *)
Definition new_GridPartitionedSet (n_row n_col : Z) : GridPartitionedSet :=
  {| rows := n_row; columns := n_col; valid_cells := 0;
     c_curr := 0; c_next := 0; locate := mkGridPosition n_row n_col;
     data := replicate (Z.to_nat (Int32.mul n_row n_col)) sentinel;
     c_buffer := [] |}.

(** Modelled from the spec: [GridPartitionedSet::init] (body missing).
    "init(): begin a new labeling pass": every cell starts as the only member
    of its own class, labelled by its linear position ("no active neighbor
    yields a fresh label"). *)
Definition init (g : GridPartitionedSet) : GridPartitionedSet :=
  {| rows := rows g; columns := columns g;
     valid_cells := Int32.wrap32 (Z.of_nat (length (data g)));
     c_curr := 0; c_next := 0; locate := locate g;
     data := seqZ 0 (Z.of_nat (length (data g)));
     c_buffer := [] |}.

(** Modelled from the spec: the loop [while (data[i] != i) i = data[i];]
    of a find-union structure, which climbs to the canonical label, run for
    at most [fuel] steps. *)
Fixpoint find_root (fuel : nat) (dt : list Z) (i : Z) : Z :=
  match fuel with
  | O => i
  | S fuel' =>
      match vec_read dt i with
      | Some p => if p =? i then i else find_root fuel' dt p
      | None => i
      end
  end.

(** Modelled from the spec: "path compression".  Every cell on the way
    from [i] to the canonical label [r] is made to point at [r]. *)
Fixpoint compress (fuel : nat) (dt : list Z) (i r : Z) : list Z :=
  match fuel with
  | O => dt
  | S fuel' =>
      match vec_read dt i with
      | Some p =>
          if (p =? r) || (p =? i) then dt
          else compress fuel' (vec_write dt i r) p r
      | None => dt
      end
  end.

(** Modelled from the spec: [GridPartitionedSet::find] (body missing).
    "find(x,y): canonical label after compression, or a sentinel if the pixel
    is inactive." *)
Definition find (g : GridPartitionedSet) (x y : Z) : Z * GridPartitionedSet :=
  let i := to_linear (locate g) x y in
  match vec_read (data g) i with
  | Some p =>
      if p <? 0 then (sentinel, g)
      else
        let fuel := length (data g) in
        let r := find_root fuel (data g) i in
        (r, with_data g (compress fuel (data g) i r) (valid_cells g))
  | None => (sentinel, g)
  end.

(** Modelled from the spec: [GridPartitionedSet::merge] (body missing).
    "merge(x1,y1,x2,y2): union by label with path compression; canonical
    label = smaller numeric id". *)
Definition merge (g : GridPartitionedSet) (x1 y1 x2 y2 : Z) : GridPartitionedSet :=
  let (l1, g1) := find g x1 y1 in
  let (l2, g2) := find g1 x2 y2 in
  if (l1 <? 0) || (l2 <? 0) then g2
  else if l1 <? l2 then with_data g2 (vec_write (data g2) l2 l1) (valid_cells g2)
  else if l2 <? l1 then with_data g2 (vec_write (data g2) l1 l2) (valid_cells g2)
  else g2.

(** Modelled from the spec: [GridPartitionedSet::invalidate] (body missing).
    "invalidate(x,y): lazily removes a pixel mid-pass without relabeling
    peers." *)
Definition invalidate (g : GridPartitionedSet) (x y : Z) : GridPartitionedSet :=
  let i := to_linear (locate g) x y in
  match vec_read (data g) i with
  | Some p =>
      if p <? 0 then g
      else with_data g (vec_write (data g) i sentinel) (Int32.sub (valid_cells g) 1)
  | None => g
  end.

(** [static bool CmpClusterData(ClusterData c1, ClusterData c2)
      { return c1.label < c2.label; }] orders the buffer; the sort is the
    merge sort of the library, for the order "not after". *)
Definition label_le (c1 c2 : ClusterData) : Prop := label c1 <= label c2.

#[global] Instance label_le_dec c1 c2 : Decision (label_le c1 c2).
Proof. unfold label_le. apply _. Defined.

#[global] Instance label_le_trans : Transitive label_le.
Proof. unfold label_le. intros a b c. lia. Qed.

#[global] Instance label_le_total : Total label_le.
Proof. unfold label_le. intros a b. lia. Qed.

(** Modelled from the spec: "label bookkeeping".  The cells still in the
    pass, each with its canonical label, in the order of their positions. *)
Definition labelled_cells (dt : list Z) : list ClusterData :=
  omap (fun i =>
          match vec_read dt i with
          | Some p =>
              if p <? 0 then None
              else Some {| label := find_root (length dt) dt i; pos := i |}
          | None => None
          end)
       (seqZ 0 (Z.of_nat (length dt))).

(** Modelled from the spec: [GridPartitionedSet::close] (body missing).
    "close() finalizes label bookkeeping, grouping contiguous label runs into
    clusters": the buffer holds the remaining cells sorted by label. *)
Definition close (g : GridPartitionedSet) : GridPartitionedSet :=
  with_buffer g (merge_sort label_le (labelled_cells (data g))) 0 0.

(** Modelled from the spec: a "contiguous label run", the longest prefix of
    the buffer that carries the label [l]. *)
Fixpoint label_run (l : Z) (cs : list ClusterData) : list ClusterData :=
  match cs with
  | c :: cs' => if label c =? l then c :: label_run l cs' else []
  | [] => []
  end.

(** Modelled from the spec: [GridPartitionedSet::next] (body missing).
    "next(): pops one finished ClusterOfPixel (ascending label order), empty
    when exhausted". *)
Definition next (g : GridPartitionedSet) : list Z * GridPartitionedSet :=
  match drop (Z.to_nat (c_next g)) (c_buffer g) with
  | c :: cs =>
      let run := c :: label_run (label c) cs in
      (map pos run,
       with_buffer g (c_buffer g) (c_next g)
         (Int32.add (c_next g) (Z.of_nat (length run))))
  | [] => ([], with_buffer g (c_buffer g) (c_next g) (c_next g))
  end.

(** The loop of the caller,
    [for (c = next(); c.size() > 0; c = next()) ...], run for at most [fuel]
    clusters. *)
Fixpoint drain (fuel : nat) (g : GridPartitionedSet) : list (list Z) * GridPartitionedSet :=
  match fuel with
  | O => ([], g)
  | S fuel' =>
      let (c, g1) := next g in
      match c with
      | [] => ([], g1)
      | _ :: _ => let (cs, g2) := drain fuel' g1 in (c :: cs, g2)
      end
  end.

(** Modelled from the spec: one pixel of the scan.  "a pixel's label is
    inherited from an active left/up neighbor; two differing labels are
    unioned; no active neighbor yields a fresh label"; a pixel that is not
    active is taken out. *)
Definition visit (act : Z -> Z -> bool) (g : GridPartitionedSet) (xy : Z * Z)
    : GridPartitionedSet :=
  let x := xy.1 in
  let y := xy.2 in
  if act x y then
    let g1 := if (0 <? x) && act (x - 1) y then merge g (x - 1) y x y else g in
    if (0 <? y) && act x (y - 1) then merge g1 x (y - 1) x y else g1
  else invalidate g x y.

(** The row-major scan order of a grid. *)
Definition row_major (n_row n_col : Z) : list (Z * Z) :=
  x ← seqZ 0 n_row; y ← seqZ 0 n_col; [(x, y)].

(** Modelled from the spec: one labeling pass, as [HKBaseSensor::buildHits]
    (body missing) runs it: "Single-pass [...] connected-component labeling
    of active pixels, 4-connectivity only", followed by [close] and the
    collection of the clusters with [next].  The scan order is a parameter;
    the code scans in row-major order. *)
Definition labeling_pass_in (scan : list (Z * Z)) (act : Z -> Z -> bool)
    (g : GridPartitionedSet) : list (list Z) * GridPartitionedSet :=
  let g1 := init g in
  let g2 := fold_left (visit act) scan g1 in
  let g3 := close g2 in
  drain (S (length (c_buffer g3))) g3.

Definition labeling_pass (act : Z -> Z -> bool) (g : GridPartitionedSet)
    : list (list Z) * GridPartitionedSet :=
  labeling_pass_in (row_major (rows g) (columns g)) act g.

End GridSet.

(** ** ClusterHeap (HKBaseSensor.h) *)

Module Heap.

(** [struct ChargePoint { int row; int col; float charge; }] *)
Record ChargePoint : Type := mkChargePoint { row : Z; col : Z; charge : Q }.

(** [struct BufferedCluster { vector<ChargePoint> pixels; float time; }].
    The time of a cluster that has not been given one yet is [None]: it
    stands for an initial value later than every time, so that "time =
    earliest seen" holds from the first time on. *)
Record BufferedCluster : Type := mkBufferedCluster {
  pixels : list ChargePoint;
  time : option Q
}.

(** [struct ClusterItem { BufferedCluster buffer; int size; }] *)
Record ClusterItem : Type := mkClusterItem { buffer : BufferedCluster; size : Z }.

(** The data members of [ClusterHeap]: [ClusterTable] and [ReferenceTable]
    are the two [unordered_map]s.  The counter [hash_cnt] and the sizes are
    not wrapped to 32 bits: the spec's ids are "monotonically increasing",
    and a size counts pixels of one sensor. *)
Record ClusterHeap : Type := mkClusterHeap {
  hash_cnt : Z;
  locate : GridPosition;
  debug_label : string;
  cluster_table : gmap Z ClusterItem;
  ref_table : gmap Z Z;
  ready_to_pop : list Z
}.

Definition with_tables (h : ClusterHeap) (cnt : Z) (ct : gmap Z ClusterItem)
    (rt : gmap Z Z) (rdy : list Z) : ClusterHeap :=
  {| hash_cnt := cnt; locate := locate h; debug_label := debug_label h;
     cluster_table := ct; ref_table := rt; ready_to_pop := rdy |}.

(** Modelled from the spec: the constructor [ClusterHeap(int rows, int cols)]
    (body missing): an empty heap over a grid. *)
Definition new_ClusterHeap (n_row n_col : Z) : ClusterHeap :=
  {| hash_cnt := 0; locate := mkGridPosition n_row n_col; debug_label := "";
     cluster_table := ∅; ref_table := ∅; ready_to_pop := [] |}.

(** [void SetLabel(string dlabel) { debug_label = dlabel; }] *)
Definition SetLabel (h : ClusterHeap) (dlabel : string) : ClusterHeap :=
  {| hash_cnt := hash_cnt h; locate := locate h; debug_label := dlabel;
     cluster_table := cluster_table h; ref_table := ref_table h;
     ready_to_pop := ready_to_pop h |}.

(** Modelled from the spec: "time = earliest seen". *)
Definition earliest (a b : option Q) : option Q :=
  match a, b with
  | None, t => t
  | t, None => t
  | Some x, Some y => Some (if Qle_bool x y then x else y)
  end.

(** Modelled from the spec: "a new ClusterItem". *)
Definition empty_item : ClusterItem :=
  {| buffer := {| pixels := []; time := None |}; size := 0 |}.

(** Modelled from the spec: the item [a] after it has taken over the item
    [b], "merge membership and charge into it (time = earliest seen)". *)
Definition absorb (a b : ClusterItem) : ClusterItem :=
  {| buffer := {| pixels := pixels (buffer a) ++ pixels (buffer b);
                  time := earliest (time (buffer a)) (time (buffer b)) |};
     size := size a + size b |}.

(** Modelled from the spec: "for each member pixel, check ReferenceTable",
    the ids that the members of a cluster refer to, in the order of the
    members. *)
Definition touched (h : ClusterHeap) (cluster : list Z) : list Z :=
  omap (fun p => ref_table h !! p) cluster.

(** Modelled from the spec: the item [id] takes over the open item [id'];
    the table entries that pointed to [id'] point to [id]. *)
Definition merge_into (id : Z) (h : ClusterHeap) (id' : Z) : ClusterHeap :=
  if decide (id' = id) then h
  else
    match cluster_table h !! id, cluster_table h !! id' with
    | Some a, Some b =>
        with_tables h (hash_cnt h)
          (delete id' (<[id := absorb a b]> (cluster_table h)))
          ((fun r => if decide (r = id') then id else r) <$> ref_table h)
          (ready_to_pop h)
    | _, _ => h
    end.

(** Modelled from the spec: an item gets one more member. *)
Definition grow (item : ClusterItem) : ClusterItem :=
  {| buffer := buffer item; size := size item + 1 |}.

(** Modelled from the spec: a member that no item owns yet becomes a member
    of [id]. *)
Definition register (id : Z) (h : ClusterHeap) (p : Z) : ClusterHeap :=
  match ref_table h !! p with
  | Some _ => h
  | None =>
      with_tables h (hash_cnt h) (alter grow id (cluster_table h))
        (<[p := id]> (ref_table h)) (ready_to_pop h)
  end.

(** Modelled from the spec: [ClusterHeap::AddCluster] (body missing).
    "for each member pixel, check ReferenceTable; if any pixel belongs to an
    open ClusterItem, merge membership and charge into it (time = earliest
    seen); otherwise allocate a new ClusterItem with a fresh id.  After
    merging, every touched pixel's table entry points to the surviving id."
    The surviving item is the one of the first member that has one.  A
    cluster without pixels adds nothing. *)
Definition AddCluster (h : ClusterHeap) (cluster : list Z) : ClusterHeap :=
  match cluster with
  | [] => h
  | _ :: _ =>
      match touched h cluster with
      | [] =>
          let id := hash_cnt h in
          fold_left (register id) cluster
            (with_tables h (id + 1) (<[id := empty_item]> (cluster_table h))
               (ref_table h) (ready_to_pop h))
      | id :: others =>
          fold_left (register id) cluster (fold_left (merge_into id) others h)
      end
  end.

(** Modelled from the spec: the states in which a pixel is active: charging,
    ready and discharging. *)
Definition is_active_status (s : PixelStatus) : bool :=
  match s with
  | start | ready | on => true
  | off | out_of_bounds | geometry_error => false
  end.

(** The charge point of the pixel [(x, y)]. *)
Definition same_pixel (x y : Z) (p : ChargePoint) : bool :=
  (row p =? x) && (col p =? y).

(** Modelled from the spec: "attaches authoritative charge".  The charge of
    a pixel is attached once; a later, larger reading replaces it. *)
Definition attach (x y : Z) (q : Q) (pts : list ChargePoint) : list ChargePoint :=
  if existsb (same_pixel x y) pts then
    map (fun p =>
           if same_pixel x y p && negb (Qle_bool q (charge p))
           then {| row := x; col := y; charge := q |} else p)
        pts
  else pts ++ [{| row := x; col := y; charge := q |}].

(** Modelled from the spec: [ClusterHeap::SetupPixel] (body missing).
    "SetupPixel(x,y,data): attaches authoritative charge/time to a confirmed
    member pixel."  A pixel that no item owns is ignored.  The data carry the
    state of the pixel: for an active pixel the charge and the time are
    attached; a pixel that has left the active state stops being a member,
    and the item whose last member leaves becomes ready ("A ClusterItem
    becomes ready [...] when every member pixel has left the active state in
    the underlying matrix"). *)
Definition SetupPixel (h : ClusterHeap) (pos_x pos_y : Z) (pix : PixelData)
    : ClusterHeap :=
  let p := to_linear (locate h) pos_x pos_y in
  match ref_table h !! p with
  | None => h
  | Some id =>
      match cluster_table h !! id with
      | None => h
      | Some item =>
          if is_active_status (pd_status pix) then
            let item' :=
              {| buffer :=
                   {| pixels := attach pos_x pos_y (pd_charge pix)
                                  (pixels (buffer item));
                      time := earliest (time (buffer item)) (Some (pd_time pix)) |};
                 size := size item |} in
            with_tables h (hash_cnt h) (<[id := item']> (cluster_table h))
              (ref_table h) (ready_to_pop h)
          else
            let item' := {| buffer := buffer item; size := size item - 1 |} in
            with_tables h (hash_cnt h) (<[id := item']> (cluster_table h))
              (delete p (ref_table h))
              (if size item' =? 0 then ready_to_pop h ++ [id] else ready_to_pop h)
      end
  end.

(** Modelled from the spec: [ClusterHeap::PopClusters] (body missing).
    "PopClusters(): removes and returns every ClusterItem whose members have
    all left the active state in the matrix": the items listed in
    [ready_to_pop]. *)
Definition PopClusters (h : ClusterHeap) : list BufferedCluster * ClusterHeap :=
  (omap (fun id => buffer <$> cluster_table h !! id) (ready_to_pop h),
   with_tables h (hash_cnt h)
     (foldr delete (cluster_table h) (ready_to_pop h))
     (ref_table h) []).

End Heap.

(** * The Hoshen-Kopelman sensor *)

Module Sensor.

(** [class HKBaseSensor : public PixelDigiMatrix] with its two data members;
    [base] is the [PixelDigiMatrix] part of the object. *)
Record HKBaseSensor : Type := mkHKBaseSensor {
  base : PixelDigiMatrix;
  _gridSet : GridSet.GridPartitionedSet;
  heap_table : list Heap.ClusterHeap
}.

(** A member function of [PixelDigiMatrix] called on the sensor: it works on
    the [PixelDigiMatrix] part and cannot reach the members of the derived
    class. *)
Definition on_base (f : PixelDigiMatrix -> PixelDigiMatrix) (s : HKBaseSensor)
    : HKBaseSensor :=
  {| base := f (base s); _gridSet := _gridSet s; heap_table := heap_table s |}.

(** Modelled from the spec: the constructor [HKBaseSensor::HKBaseSensor]
    (body missing): the matrix of the ladder, a find-union grid of the size
    of one segment, and "a ClusterHeap per sensor segment". *)
Definition new_HKBaseSensor (layer ladder xsegmentNumber ysegmentNumber : Z)
    (ladderLength ladderWidth thickness pixelSizeX pixelSizeY : Q)
    (enc_str : string) (barrel_id : Z) (thr fe_slope starttime t_step : Q)
    : HKBaseSensor :=
  let m := new_PixelDigiMatrix layer ladder xsegmentNumber ysegmentNumber
             ladderLength ladderWidth thickness pixelSizeX pixelSizeY
             enc_str barrel_id thr fe_slope starttime t_step in
  {| base := m;
     _gridSet := GridSet.new_GridPartitionedSet (s_rows m) (s_colums m);
     heap_table :=
       replicate (Z.to_nat (Int32.mul (x_segnum m) (y_segnum m)))
         (Heap.new_ClusterHeap (s_rows m) (s_colums m)) |}.

(** Modelled from the spec: [PixelDigiMatrix::GetPixel(int seg_x, int seg_y,
    int pos_x, int pos_y)] (body missing): the pixel of a segment, through
    [SensorRowToLadderRow] and [SensorColToLadderCol]. *)
Definition GetPixel_on (m : PixelDigiMatrix) (seg_x seg_y pos_x pos_y : Z) : PixelData :=
  GetPixel m (SensorRowToLadderRow m seg_x pos_x) (SensorColToLadderCol m seg_y pos_y).

(** Modelled from the spec: the pixels that the labeling pass of [buildHits]
    takes as active. *)
Definition pixel_active (m : PixelDigiMatrix) (seg_x seg_y pos_x pos_y : Z) : bool :=
  Heap.is_active_status (pd_status (GetPixel_on m seg_x seg_y pos_x pos_y)).

(** Modelled from the spec: "charge = sum of member charges". *)
Definition cluster_charge (c : Heap.BufferedCluster) : Q :=
  Qsum (map Heap.charge (Heap.pixels c)).

(** Modelled from the spec: "charge-weighted centroid of member pixel
    positions". *)
Definition centroid (f : Heap.ChargePoint -> Q) (c : Heap.BufferedCluster) : Q :=
  (Qsum (map (fun p => Heap.charge p * f p) (Heap.pixels c)) / cluster_charge c)%Q.

Section Hooks.

(** The hook [virtual ClusterOfPixel processCluster(const ClusterOfPixel& in)],
    which a derived class may override, and the encoder of cell identifiers,
    which is not part of this repository: from the format string, the barrel,
    the layer, the ladder and the segment. *)
Variable processCluster : list Z -> list Z.
Variable encode : string -> Z -> Z -> Z -> Z -> Z -> Z.

(** Modelled from the spec: the hit of a cluster in [buildHits].
    "emits one hit with x/y = charge-weighted centroid of member pixel
    positions, charge = sum of member charges, time = cluster time, and a
    cell identifier encoded from (layer, ladder[, segment])" *)
Definition make_hit (m : PixelDigiMatrix) (seg_x seg_y : Z) (c : Heap.BufferedCluster)
    : SegmentDigiHit :=
  {| hit_x := centroid (fun p => PixelRowToX m (SensorRowToLadderRow m seg_x (Heap.row p))) c;
     hit_y := centroid (fun p => PixelColToY m (SensorColToLadderCol m seg_y (Heap.col p))) c;
     hit_charge := cluster_charge c;
     hit_time := default 0%Q (Heap.time c);
     hit_cellID0 := encode (cellFmtStr m) (_barrel_id m) (_layer m) (_ladder m)
                      seg_x seg_y |}.

(** Modelled from the spec: "for each finished, above-threshold cluster,
    emits one hit". *)
Definition emit (m : PixelDigiMatrix) (seg_x seg_y : Z) (done : list Heap.BufferedCluster)
    : list SegmentDigiHit :=
  map (make_hit m seg_x seg_y)
      (List.filter (fun c => IsOverThreshold m (cluster_charge c)) done).

(** Modelled from the spec: the work of [HKBaseSensor::buildHits] (body
    missing) on one segment: "run a labeling pass, feed
    resulting clusters to ClusterHeap", hand the data of every pixel of the
    segment to the heap, "pop finished clusters, emit hits". *)
Definition build_segment (s : HKBaseSensor) (seg : Z * Z)
    : list SegmentDigiHit * HKBaseSensor :=
  let m := base s in
  let k := to_linear (mkGridPosition (x_segnum m) (y_segnum m)) seg.1 seg.2 in
  match vec_read (heap_table s) k with
  | None => ([], s)
  | Some c_heap =>
      let lp := GridSet.labeling_pass (pixel_active m seg.1 seg.2) (_gridSet s) in
      let h1 := fold_left (fun h c => Heap.AddCluster h (processCluster c)) lp.1 c_heap in
      let h2 := fold_left
                  (fun h xy => Heap.SetupPixel h xy.1 xy.2
                                 (GetPixel_on m seg.1 seg.2 xy.1 xy.2))
                  (GridSet.row_major (s_rows m) (s_colums m)) h1 in
      let pop := Heap.PopClusters h2 in
      (emit m seg.1 seg.2 pop.1,
       {| base := m; _gridSet := lp.2;
          heap_table := vec_write (heap_table s) k pop.2 |})
  end.

(** Modelled from the spec: [HKBaseSensor::buildHits] (body missing), segment
    by segment.  The hits are the ones that the call appends to its
    argument. *)
Definition buildHits (s : HKBaseSensor) : list SegmentDigiHit * HKBaseSensor :=
  fold_left
    (fun acc seg => let r := build_segment acc.2 seg in (acc.1 ++ r.1, r.2))
    (GridSet.row_major (x_segnum (base s)) (y_segnum (base s)))
    ([], s).

(** One tick of the caller after the charge of the tick has been given:
    "invoke ClockSync exactly once, then invoke buildHits". *)
Definition tick (s : HKBaseSensor) : list SegmentDigiHit * HKBaseSensor :=
  buildHits (on_base ClockSync s).

(** The hits of [n] ticks without charge, tick by tick. *)
Fixpoint run_ticks (n : nat) (s : HKBaseSensor) : list (list SegmentDigiHit) :=
  match n with
  | O => []
  | S n' => (tick s).1 :: run_ticks n' (tick s).2
  end.



End Hooks.

End Sensor.

(** ** Invariants of the cluster heap *)

(** The pixels that a reference table gives to an item. *)
Definition refs_to (rt : gmap Z Z) (id : Z) : gset Z :=
  dom (filter (fun kv => kv.2 = id) rt).

Definition members (h : Heap.ClusterHeap) (id : Z) : gset Z :=
  refs_to (Heap.ref_table h) id.




(** What every operation of the heap keeps, the item [skip] (if any) being
    allowed to be open without a member: a referenced item is in the
    cluster table; the ids in use are below the counter; the size of an item
    is the number of its members; the ready items are the items without
    member; no item is listed twice as ready. *)
Record heap_inv_but (skip : option Z) (h : Heap.ClusterHeap) : Prop := mkHeapInv {
  hi_ref : forall p id, Heap.ref_table h !! p = Some id ->
      is_Some (Heap.cluster_table h !! id);
  hi_fresh : forall id, is_Some (Heap.cluster_table h !! id) -> id < Heap.hash_cnt h;
  hi_size : forall id item, Heap.cluster_table h !! id = Some item ->
      Heap.size item = Z.of_nat (size (members h id));
  hi_ready : forall id, Some id <> skip ->
      (id ∈ Heap.ready_to_pop h <->
       exists item, Heap.cluster_table h !! id = Some item /\ Heap.size item = 0);
  hi_skip : forall id, Some id = skip -> id ∉ Heap.ready_to_pop h;
  hi_nodup : NoDup (Heap.ready_to_pop h)
}.












(** ** Invariants of the sensor *)





(** ** Invariants of the find-union structure *)

(** With [A] telling which linear positions hold an active pixel: a cell is
    out of the pass and its pixel is not active; or it is the canonical cell
    of its class; or it points to a smaller cell, both cells holding active
    pixels. *)
Definition uf_inv (A : Z -> bool) (dt : list Z) : Prop :=
  forall i p, vec_read dt i = Some p ->
    (p = GridSet.sentinel /\ A i = false) \/ p = i \/
    (0 <= p < i /\ A i = true /\ A p = true).

(** A cell that is still in the pass. *)
Definition live (dt : list Z) (i : Z) : Prop :=
  exists p, vec_read dt i = Some p /\ 0 <= p.

(** The canonical label of a cell. *)
Definition root (dt : list Z) (i : Z) : Z := GridSet.find_root (length dt) dt i.

(** Two stores with the same cells in the pass and the same labels. *)
Definition same_classes (dt dt' : list Z) : Prop :=
  length dt' = length dt /\
  (forall k, live dt' k <-> live dt k) /\
  (forall k, live dt k -> root dt' k = root dt k).

(** ** Grids, 4-connectivity and the invariant of a labeling pass *)

Definition in_grid (n_row n_col : Z) (c : Z * Z) : Prop :=
  0 <= c.1 < n_row /\ 0 <= c.2 < n_col.

(** The row-major linear position of a pixel. *)
Definition posn (n_col : Z) (c : Z * Z) : Z := c.1 * n_col + c.2.

(** The activity of the pixel at a linear position. *)
Definition active_at (act : Z -> Z -> bool) (n_col : Z) (k : Z) : bool :=
  act (k / n_col) (k mod n_col).

(** Two pixels that share an edge. *)
Definition adjacent4 (c1 c2 : Z * Z) : Prop :=
  (c1.1 = c2.1 /\ (c1.2 = c2.2 + 1 \/ c2.2 = c1.2 + 1)) \/
  (c1.2 = c2.2 /\ (c1.1 = c2.1 + 1 \/ c2.1 = c1.1 + 1)).

(** Two active pixels of the grid that share an edge. *)
Definition linked (act : Z -> Z -> bool) (n_row n_col : Z) (c1 c2 : Z * Z) : Prop :=
  in_grid n_row n_col c1 /\ in_grid n_row n_col c2 /\
  act c1.1 c1.2 = true /\ act c2.1 c2.2 = true /\ adjacent4 c1 c2.

(** Connected under 4-connectivity: joined by a path of active pixels in
    which consecutive pixels share an edge. *)
Definition connected4 (act : Z -> Z -> bool) (n_row n_col : Z) : relation (Z * Z) :=
  rtc (linked act n_row n_col).

(** An active pixel of the grid. *)
Definition is_pixel (act : Z -> Z -> bool) (n_row n_col : Z) (c : Z * Z) : Prop :=
  in_grid n_row n_col c /\ act c.1 c.2 = true.

(** A pixel none of whose four neighbours is active. *)
Definition isolated (act : Z -> Z -> bool) (n_row n_col : Z) (c : Z * Z) : Prop :=
  forall c', ~ linked act n_row n_col c c'.

(** Two pixels that touch at a corner. *)
Definition diagonal (c1 c2 : Z * Z) : Prop :=
  (c2.1 = c1.1 + 1 \/ c1.1 = c2.1 + 1) /\ (c2.2 = c1.2 + 1 \/ c1.2 = c2.2 + 1).

(** The L-shaped triple with its corner at [(r, c + 1)]. *)
Definition l_shape (r c : Z) : list (Z * Z) := [(r, c); (r, c + 1); (r + 1, c + 1)].

(** The state of the pass after the pixels [visited]: the structure is well
    formed; the visited pixels that are not active are out; every visited
    active pixel has the label of its active upper and left neighbours; and
    equal labels are only given to connected pixels. *)
Record pass_inv (act : Z -> Z -> bool) (n_row n_col : Z)
    (visited : list (Z * Z)) (dt : list Z) : Prop := mkPassInv {
  pi_length : Z.of_nat (length dt) = n_row * n_col;
  pi_uf : uf_inv (active_at act n_col) dt;
  pi_out : forall c, c ∈ visited -> in_grid n_row n_col c ->
      act c.1 c.2 = false -> ~ live dt (posn n_col c);
  pi_up : forall c, c ∈ visited -> in_grid n_row n_col c -> act c.1 c.2 = true ->
      0 < c.1 -> act (c.1 - 1) c.2 = true ->
      root dt (posn n_col (c.1 - 1, c.2)) = root dt (posn n_col c);
  pi_left : forall c, c ∈ visited -> in_grid n_row n_col c -> act c.1 c.2 = true ->
      0 < c.2 -> act c.1 (c.2 - 1) = true ->
      root dt (posn n_col (c.1, c.2 - 1)) = root dt (posn n_col c);
  pi_sound : forall c1 c2, in_grid n_row n_col c1 -> in_grid n_row n_col c2 ->
      act c1.1 c1.2 = true -> act c2.1 c2.2 = true ->
      root dt (posn n_col c1) = root dt (posn n_col c2) ->
      connected4 act n_row n_col c1 c2
}.

(** The runs of equal labels that repeated calls of [next] cut from a
    buffer, at most [fuel] of them. *)
Fixpoint split_runs (fuel : nat) (cs : list GridSet.ClusterData)
    : list (list GridSet.ClusterData) :=
  match fuel with
  | O => []
  | S fuel' =>
      match cs with
      | [] => []
      | c :: cs' =>
          let run := c :: GridSet.label_run (GridSet.label c) cs' in
          run :: split_runs fuel' (drop (length run) cs)
      end
  end.

(** ** Vocabulary of the properties *)


(** A 4 x 4 grid with an L-shaped triple in its upper left corner and two
    pixels touching at a corner near its lower right corner. *)
Definition sample_activity (x y : Z) : bool :=
  bool_decide ((x, y) ∈ [(0, 0); (0, 1); (1, 1); (2, 3); (3, 2)]).

(** A ladder of 2 x 2 pixels of unit pitch, one segment each way, threshold
    200, slope 50, clock period 1. *)
Definition matrix_2x2 : PixelDigiMatrix :=
  new_PixelDigiMatrix 0 0 1 1 2 2 1 1 1 "" 0 200 50 0 1.

(** The sensor of that ladder. *)
Definition sensor_2x2 : Sensor.HKBaseSensor :=
  Sensor.new_HKBaseSensor 0 0 1 1 2 2 1 1 1 "" 0 200 50 0 1.

(** The pixels "with charge strictly greater than the threshold". *)
Definition above_threshold (d : Digitiser.MuonCVXDDigitiser)
    (simTrkVec : list Digitiser.SimTrackerHit) : list Digitiser.SimTrackerHit :=
  List.filter
    (fun hit => if Qlt_le_dec (Digitiser._threshold d) (Digitiser.getEDep hit)
                then true else false)
    simTrkVec.

Definition pixel_x (hit : Digitiser.SimTrackerHit) : Q := (Digitiser.getPosition hit).1.1.
Definition pixel_y (hit : Digitiser.SimTrackerHit) : Q := (Digitiser.getPosition hit).1.2.




(** * More of the sources *)

(** ** Vectors and quotients *)

(** [v.resize(n)]: the first [n] elements are kept and the vector is filled
    up to [n] with value-initialised elements, [dflt]. *)
Definition vec_resize {A : Type} (n : Z) (dflt : A) (v : list A) : list A :=
  take (Z.to_nat n) v ++ replicate (Z.to_nat n - length v) dflt.

(** A quotient of two [double]s: with a zero divisor it is an infinity or a
    NaN, and has no rational value. *)
Definition quotient (a b : Q) : option Q :=
  if Qeq_bool b 0 then None else Some (a / b)%Q.

(** ** HKBaseSensor.h: the order of the cluster buffer *)

(** [static bool CmpClusterData(ClusterData c1, ClusterData c2)
      { return c1.label < c2.label; }] *)
Definition CmpClusterData (c1 c2 : GridSet.ClusterData) : bool :=
  GridSet.label c1 <? GridSet.label c2.

(** ** MuonCVXDDigitiser.cc: from the ionisation points to the pixel hits *)

Module Steps.

(** [struct IonisationPoint] and [struct SignalPoint] are declared in
    MuonCVXDDigitiser.h, which is not among the sources at hand: the records
    have the members that the code reads and writes ([x], [y], [z], [eloss];
    [x], [y], [sigmaX], [sigmaY], [charge]). *)
Record IonisationPoint : Type := mkIonisationPoint {
  ip_x : Q;
  ip_y : Q;
  ip_z : Q;
  eloss : Q
}.

Record SignalPoint : Type := mkSignalPoint {
  sp_x : Q;
  sp_y : Q;
  sigmaX : Q;
  sigmaY : Q;
  sp_charge : Q
}.

(** The data members that the steps read and write beside those of
    [Digitiser.MuonCVXDDigitiser], which is the member [conf]. *)
Record DigitiserState : Type := mkDigitiserState {
  conf : Digitiser.MuonCVXDDigitiser;
  _layerLadderWidth : list Q;
  _layerThickness : list Q;
  _diffusionCoefficient : Q;
  _numberOfSegments : Z;
  _ionisationPoints : list IonisationPoint;
  _signalPoints : list SignalPoint
}.

Definition with_signalPoints (s : DigitiserState) (pts : list SignalPoint)
    : DigitiserState :=
  {| conf := conf s; _layerLadderWidth := _layerLadderWidth s;
     _layerThickness := _layerThickness s;
     _diffusionCoefficient := _diffusionCoefficient s;
     _numberOfSegments := _numberOfSegments s;
     _ionisationPoints := _ionisationPoints s;
     _signalPoints := pts |}.

(** [return ceil(a / b);] from a function that returns [int]: the ceiling
    is converted to [int]. *)
Definition ceil_to_int (a b : Q) : option Z :=
  if Qeq_bool b 0 then None else int_of_double (inject_Z (Qceiling (a / b))).

(** [int GetPixelsInaColumn()
      { return ceil(_layerLadderWidth[_currentLayer] / _pixelSizeX); }] *)
Definition GetPixelsInaColumn (s : DigitiserState) : option Z :=
  w ← vec_read (_layerLadderWidth s) (Digitiser._currentLayer (conf s));
  ceil_to_int w (Digitiser._pixelSizeX (conf s)).

(** [int GetPixelsInaRow()
      { return ceil(_layerLadderLength[_currentLayer] / _pixelSizeY); }] *)
Definition GetPixelsInaRow (s : DigitiserState) : option Z :=
  len ← vec_read (Digitiser._layerLadderLength (conf s))
          (Digitiser._currentLayer (conf s));
  ceil_to_int len (Digitiser._pixelSizeY (conf s)).

(** [double randomTail(const double qmin, const double qmax)]:
    [offset = 1. / qmax; range = (1. / qmin) - offset;
     u = offset + RandFlat::shoot() * range; return 1. / u;]
    with [shoot] the number that [RandFlat::shoot()] draws.  A division by
    zero has no rational value. *)
Definition randomTail (shoot qmin qmax : Q) : option Q :=
  if Qeq_bool qmax 0 then None
  else if Qeq_bool qmin 0 then None
  else
    let offset := (1 / qmax)%Q in
    let range := (1 / qmin - offset)%Q in
    let u := (offset + shoot * range)%Q in
    if Qeq_bool u 0 then None else Some (1 / u)%Q.

(** A loop whose body may have no result. *)
Fixpoint fold_opt {A B : Type} (f : A -> B -> option A) (l : list B) (a : A)
    : option A :=
  match l with
  | [] => Some a
  | b :: l' => a' ← f a b; fold_opt f l' a'
  end.

(** The values of [for (int i = lo; i < up + 1; ++i)]. *)
Definition int_range (lo up : Z) : list Z := seqZ lo (Int32.add up 1 - lo).

(** The pixel hits in the order of [for (auto item : hit_Dict)], the order of
    the keys of a [std::map<int, ...>]. *)
Definition key_le (a b : Z * Digitiser.SimTrackerHit) : Prop := a.1 <= b.1.

#[global] Instance key_le_dec : RelDecision key_le.
Proof. intros a b. unfold key_le. apply _. Defined.

#[global] Instance key_le_trans : Transitive key_le.
Proof. intros a b c. unfold key_le. lia. Qed.

#[global] Instance key_le_total : Total key_le.
Proof. intros a b. unfold key_le. lia. Qed.

Definition in_key_order (dict : gmap Z Digitiser.SimTrackerHit)
    : list (Z * Digitiser.SimTrackerHit) :=
  merge_sort key_le (map_to_list dict).

Section Externals.

(** [sqrt] of the C library and the value [result.val] that
    [gsl_sf_erf_Q_e] of the GSL computes. *)
Variable sqrt : Q -> Q.
Variable erf_Q : Q -> Q.

(** The body of the loop of [ProduceSignalPoints] for one ionisation point,
    [ht] being [_layerHalfThickness[_currentLayer]]. *)
Definition signal_point (s : DigitiserState) (ht : Q) (ipoint : IonisationPoint)
    : SignalPoint :=
  let DistanceToPlane := (ht - ip_z ipoint)%Q in
  let SigmaDiff := (DistanceToPlane * _diffusionCoefficient s)%Q in
  {| sp_x := (ip_x ipoint + Digitiser._tanLorentzAngleX (conf s) * DistanceToPlane)%Q;
     sp_y := (ip_y ipoint + Digitiser._tanLorentzAngleY (conf s) * DistanceToPlane)%Q;
     sigmaX := (SigmaDiff
                * sqrt (1 + Digitiser._tanLorentzAngleX (conf s)
                            * Digitiser._tanLorentzAngleX (conf s)))%Q;
     sigmaY := (SigmaDiff
                * sqrt (1 + Digitiser._tanLorentzAngleY (conf s)
                            * Digitiser._tanLorentzAngleY (conf s)))%Q;
     sp_charge := (eloss ipoint / Digitiser.keV (conf s)
                   * Digitiser._electronsPerKeV (conf s))%Q |}.

(** [void ProduceSignalPoints()]: [_signalPoints.resize(_numberOfSegments)]
    and one signal point per ionisation point,
    [for (int i = 0; i < _numberOfSegments; ++i)].  A negative size given to
    [resize] and a vector read outside its bounds have no result. *)
Definition ProduceSignalPoints (s : DigitiserState) : option DigitiserState :=
  if _numberOfSegments s <? 0 then None
  else
    pts ← mapM
            (fun i =>
               ipoint ← vec_read (_ionisationPoints s) i;
               ht ← vec_read (Digitiser._layerHalfThickness (conf s))
                      (Digitiser._currentLayer (conf s));
               Some (signal_point s ht ipoint))
            (seqZ 0 (_numberOfSegments s));
    Some (with_signalPoints s pts).

(** [gsl_sf_erf_Q_e(a / sigma, &result); ... = 1 - result.val;]: with a
    zero [sigma] the argument is not a finite number. *)
Definition erf_bound (a sigma : Q) : option Q :=
  if Qeq_bool sigma 0 then None else Some (1 - erf_Q (a / sigma))%Q.

(** [UpperBound - LowerBound] along one axis, for the pixel centred at
    [current]. *)
Definition pixel_integral (centre sigma pitch current : Q) : option Q :=
  LowerBound ← erf_bound (current - (1 # 2) * pitch - centre)%Q sigma;
  UpperBound ← erf_bound (current + (1 # 2) * pitch - centre)%Q sigma;
  Some (UpperBound - LowerBound)%Q.

(** The body of the loop over [iy] in [ProduceHits]. *)
Definition deposit (s : DigitiserState) (spoint : SignalPoint) (ix : Z)
    (hit_Dict : gmap Z Digitiser.SimTrackerHit) (iy : Z)
    : option (gmap Z Digitiser.SimTrackerHit) :=
  if iy <? 0 then Some hit_Dict
  else
    n ← GetPixelsInaRow s;
    if n <=? iy then Some hit_Dict
    else
      xy ← Digitiser.TransformCellIDToXY (conf s) ix iy;
      integralX ← pixel_integral (sp_x spoint) (sigmaX spoint)
                    (Digitiser._pixelSizeX (conf s)) xy.1;
      integralY ← pixel_integral (sp_y spoint) (sigmaY spoint)
                    (Digitiser._pixelSizeY (conf s)) xy.2;
      let totCharge := (sp_charge spoint * integralX * integralY)%Q in
      n' ← GetPixelsInaRow s;
      let pixelID := Int32.add (Int32.mul n' ix) iy in
      match hit_Dict !! pixelID with
      | None =>
          ht ← vec_read (Digitiser._layerHalfThickness (conf s))
                 (Digitiser._currentLayer (conf s));
          Some (<[pixelID := {| Digitiser.getEDep := totCharge;
                                Digitiser.getPosition := (xy.1, xy.2, ht) |}]>
                  hit_Dict)
      | Some item =>
          Some (<[pixelID := {| Digitiser.getEDep :=
                                  (Digitiser.getEDep item + totCharge)%Q;
                                Digitiser.getPosition :=
                                  Digitiser.getPosition item |}]>
                  hit_Dict)
      end.

(** The body of the loop over [ix]. *)
Definition deposit_column (s : DigitiserState) (spoint : SignalPoint)
    (iyLo iyUp : Z) (hit_Dict : gmap Z Digitiser.SimTrackerHit) (ix : Z)
    : option (gmap Z Digitiser.SimTrackerHit) :=
  if ix <? 0 then Some hit_Dict
  else
    n ← GetPixelsInaColumn s;
    if n <=? ix then Some hit_Dict
    else fold_opt (deposit s spoint ix) (int_range iyLo iyUp) hit_Dict.

(** The body of the loop over the signal points. *)
Definition deposit_point (s : DigitiserState)
    (hit_Dict : gmap Z Digitiser.SimTrackerHit) (i : Z)
    : option (gmap Z Digitiser.SimTrackerHit) :=
  spoint ← vec_read (_signalPoints s) i;
  lo ← Digitiser.TransformXYToCellID (conf s)
         (sp_x spoint - 3 * sigmaX spoint)%Q (sp_y spoint - 3 * sigmaY spoint)%Q;
  up ← Digitiser.TransformXYToCellID (conf s)
         (sp_x spoint + 3 * sigmaX spoint)%Q (sp_y spoint + 3 * sigmaY spoint)%Q;
  fold_opt (deposit_column s spoint lo.2 up.2) (int_range lo.1 up.1) hit_Dict.

(** [void ProduceHits(SimTrackerHitImplVec &simTrkVec)]: the vector is
    cleared and filled with one hit per entry of [hit_Dict]; a hit is paired
    with the pixel index that the code stores as its [cellID0]. *)
Definition ProduceHits (s : DigitiserState)
    : option (list (Z * Digitiser.SimTrackerHit)) :=
  hit_Dict ← fold_opt (deposit_point s) (seqZ 0 (_numberOfSegments s)) ∅;
  Some (in_key_order hit_Dict).

End Externals.

End Steps.

(** ** MuonCVXDDigitiser.cc: from the simulated hit to the ionisation points *)

Module Track.

Import Steps.

(** What [FindLocalPosition] stores for a hit inside the bounds of its
    surface: [localPosition], [localDirection], [_currentParticleMass] and
    [_currentParticleMomentum].  They come from the surfaces of DD4hep and
    from the particle of the hit. *)
Record LocalHit : Type := mkLocalHit {
  localPosition : Q * Q * Q;
  localDirection : Q * Q * Q;
  particleMass : Q;
  particleMomentum : Q
}.

(** The other data members that [ProduceIonisationPoints] reads and writes.
    [MeV] and [GeV] stand for the unit constants of DD4hep. *)
Record TrackMembers : Type := mkTrackMembers {
  _maxTrkLen : Q;
  _segmentLength : Q;
  _energyLoss : Q;
  _deltaEne : Q;
  _cutOnDeltaRays : Q;
  MeV : Q;
  GeV : Q;
  _currentParticleMass : Q;
  _currentParticleMomentum : Q;
  _currentLocalPosition : Q * Q * Q;
  _currentEntryPoint : Q * Q * Q;
  _currentExitPoint : Q * Q * Q;
  _eSum : Q;
  _segmentDepth : Q
}.

Definition with_currentLayer (s : DigitiserState) (layer : Z) : DigitiserState :=
  {| conf :=
       {| Digitiser._tanLorentzAngleX := Digitiser._tanLorentzAngleX (conf s);
          Digitiser._tanLorentzAngleY := Digitiser._tanLorentzAngleY (conf s);
          Digitiser._pixelSizeX := Digitiser._pixelSizeX (conf s);
          Digitiser._pixelSizeY := Digitiser._pixelSizeY (conf s);
          Digitiser._electronsPerKeV := Digitiser._electronsPerKeV (conf s);
          Digitiser._threshold := Digitiser._threshold (conf s);
          Digitiser._currentLayer := layer;
          Digitiser._layerHalfThickness := Digitiser._layerHalfThickness (conf s);
          Digitiser._layerLadderLength := Digitiser._layerLadderLength (conf s);
          Digitiser._layerLadderHalfWidth := Digitiser._layerLadderHalfWidth (conf s);
          Digitiser.keV := Digitiser.keV (conf s) |};
     _layerLadderWidth := _layerLadderWidth s;
     _layerThickness := _layerThickness s;
     _diffusionCoefficient := _diffusionCoefficient s;
     _numberOfSegments := _numberOfSegments s;
     _ionisationPoints := _ionisationPoints s;
     _signalPoints := _signalPoints s |}.

Definition with_ionisationPoints (s : DigitiserState) (n : Z)
    (pts : list IonisationPoint) : DigitiserState :=
  {| conf := conf s; _layerLadderWidth := _layerLadderWidth s;
     _layerThickness := _layerThickness s;
     _diffusionCoefficient := _diffusionCoefficient s;
     _numberOfSegments := n;
     _ionisationPoints := pts;
     _signalPoints := _signalPoints s |}.

Definition with_particle (m : TrackMembers) (f : LocalHit) : TrackMembers :=
  {| _maxTrkLen := _maxTrkLen m; _segmentLength := _segmentLength m;
     _energyLoss := _energyLoss m; _deltaEne := _deltaEne m;
     _cutOnDeltaRays := _cutOnDeltaRays m; MeV := MeV m; GeV := GeV m;
     _currentParticleMass := particleMass f;
     _currentParticleMomentum := particleMomentum f;
     _currentLocalPosition := _currentLocalPosition m;
     _currentEntryPoint := _currentEntryPoint m;
     _currentExitPoint := _currentExitPoint m;
     _eSum := _eSum m; _segmentDepth := _segmentDepth m |}.

Definition with_track (m : TrackMembers) (pos entry exit : Q * Q * Q)
    (eSum depth : Q) : TrackMembers :=
  {| _maxTrkLen := _maxTrkLen m; _segmentLength := _segmentLength m;
     _energyLoss := _energyLoss m; _deltaEne := _deltaEne m;
     _cutOnDeltaRays := _cutOnDeltaRays m; MeV := MeV m; GeV := GeV m;
     _currentParticleMass := _currentParticleMass m;
     _currentParticleMomentum := _currentParticleMomentum m;
     _currentLocalPosition := pos;
     _currentEntryPoint := entry;
     _currentExitPoint := exit;
     _eSum := eSum; _segmentDepth := depth |}.

(** [std::min(a, b)]: [b] when [b < a], else [a]. *)
Definition std_min (a b : Q) : Q := if Qlt_le_dec b a then b else a.

(** [_ionisationPoints.resize(n)] *)
Definition resize (n : Z) (v : list IonisationPoint) : list IonisationPoint :=
  vec_resize n (mkIonisationPoint 0 0 0 0) v.

(** [_ionisationPoints[h].eloss += q] *)
Definition add_eloss (q : Q) (p : IonisationPoint) : IonisationPoint :=
  {| ip_x := ip_x p; ip_y := ip_y p; ip_z := ip_z p; eloss := (eloss p + q)%Q |}.

(** The variables of the loop that makes the ionisation points. *)
Record SegmentLoop : Type := mkSegmentLoop {
  loop_z : Q;
  loop_eSum : Q;
  loop_points : list IonisationPoint
}.

Section Externals.

(** [sqrt] of the C library; the value that the call number [i] of
    [_fluctuate->SampleFluctuations] returns for its five arguments; the
    number that the call number [k] of [RandFlat::shoot()] draws, and the one
    that the call number [k] of [RandFlat::shoot(a, b)] draws. *)
Variable sqrt : Q -> Q.
Variable SampleFluctuations : Z -> Q -> Q -> Q -> Q -> Q -> Q.
Variable shoot : nat -> Q.
Variable shoot_in : nat -> Q -> Q -> Q.

(** The body of [for (int i = 0; i < _numberOfSegments; ++i)]. *)
Definition segment_step (s : DigitiserState) (m : TrackMembers)
    (pos : Q * Q * Q) (tanx tany depth segmentLength dEmean : Q)
    (a : SegmentLoop) (i : Z) : SegmentLoop :=
  let z := (loop_z a + depth)%Q in
  let x := (pos.1.1 + tanx * (z - pos.2))%Q in
  let y := (pos.1.2 + tany * (z - pos.2))%Q in
  let de :=
    (SampleFluctuations i
       (_currentParticleMomentum m * Digitiser.keV (conf s) / MeV m)
       (_currentParticleMass m * Digitiser.keV (conf s) / MeV m)
       (_cutOnDeltaRays m) segmentLength (dEmean / MeV m)
     * MeV m)%Q in
  {| loop_z := z;
     loop_eSum := (loop_eSum a + de)%Q;
     loop_points :=
       vec_write (loop_points a) i
         {| ip_x := x; ip_y := y; ip_z := z; eloss := de |} |}.

(** [while ( hcharge > _eSum + thr )]: one unit of [fuel] is used by each
    turn of the loop, and [k] counts the turns.  [h] is converted to
    [unsigned int]; an index outside the vector has no result. *)
Fixpoint pad_tail (fuel : nat) (k : nat) (hcharge thr : Q) (n : Z)
    (points : list IonisationPoint) (eSum : Q)
    : option (list IonisationPoint * Q) :=
  if Qlt_le_dec (eSum + thr) hcharge then
    match fuel with
    | O => None
    | S fuel' =>
        q ← randomTail (shoot k) thr (hcharge - eSum)%Q;
        let h := Qfloor (shoot_in k 0 (double_of_int n)) in
        if (0 <=? h) && (h <? Z.of_nat (length points)) then
          pad_tail fuel' (S k) hcharge thr n
            (vec_alter (add_eloss q) h points) (eSum + q)%Q
        else None
    end
  else Some (points, eSum).

(** [void ProduceIonisationPoints(SimTrackerHit *hit)]: [found] is what
    [FindLocalPosition] finds, [None] for a hit outside the bounds of its
    surface, for which it sets [_currentLayer] to -1; [hitEDep] is
    [hit->getEDep()].  A negative size given to [resize] has no result. *)
Definition ProduceIonisationPoints (fuel : nat) (s : DigitiserState)
    (m : TrackMembers) (found : option LocalHit) (hitEDep : Q)
    : option (DigitiserState * TrackMembers) :=
  match found with
  | None => Some (with_currentLayer s (-1), m)
  | Some f =>
      let m1 := with_particle m f in
      let layer := Digitiser._currentLayer (conf s) in
      if layer =? -1 then Some (s, m1)
      else
        let pos := localPosition f in
        let dir := localDirection f in
        ht ← vec_read (Digitiser._layerHalfThickness (conf s)) layer;
        let entry2 := (- ht)%Q in
        let exit2 := ht in
        entry0 ← quotient (dir.1.1 * (entry2 - pos.2)) dir.2;
        exit0 ← quotient (dir.1.1 * (exit2 - pos.2)) dir.2;
        entry1 ← quotient (dir.1.2 * (entry2 - pos.2)) dir.2;
        exit1 ← quotient (dir.1.2 * (exit2 - pos.2)) dir.2;
        let entry := ((pos.1.1 + entry0)%Q, (pos.1.2 + entry1)%Q, entry2) in
        let exit := ((pos.1.1 + exit0)%Q, (pos.1.2 + exit1)%Q, exit2) in
        tanx ← quotient dir.1.1 dir.2;
        tany ← quotient dir.1.2 dir.2;
        thickness ← vec_read (_layerThickness s) layer;
        let trackLength :=
          std_min (_maxTrkLen m)
                  (thickness * sqrt (1 + tanx * tanx + tany * tany))%Q in
        n ← ceil_to_int trackLength (_segmentLength m);
        dEmean ← quotient (Digitiser.keV (conf s) * _energyLoss m * trackLength)
                   (double_of_int n);
        if n <? 0 then None
        else
          segmentLength ← quotient trackLength (double_of_int n);
          depth ← quotient thickness (double_of_int n);
          let z := (- ht - (1 # 2) * depth)%Q in
          let hcharge := (hitEDep / GeV m)%Q in
          let a := fold_left
                     (segment_step s m1 pos tanx tany depth segmentLength dEmean)
                     (seqZ 0 n)
                     {| loop_z := z; loop_eSum := 0;
                        loop_points := resize n (_ionisationPoints s) |} in
          thr0 ← quotient (_deltaEne m) (Digitiser._electronsPerKeV (conf s));
          let thr := (thr0 * Digitiser.keV (conf s))%Q in
          r ← pad_tail fuel 0 hcharge thr n (loop_points a) (loop_eSum a);
          Some (with_ionisationPoints s n r.1,
                with_track m1 pos entry exit r.2 depth)
  end.

End Externals.

End Track.

(** ** MuonCVXDDigitiser.cc: the geometry tables of processRunHeader *)

Module Geometry.

(** What [processRunHeader] reads of a [ZPlanarData::LayerLayout] of DD4hep. *)
Record LayerLayout : Type := mkLayerLayout {
  ladderNumber : Z;
  thicknessSensitive : Q;
  distanceSensitive : Q;
  lengthSensor : Q;
  sensorsPerLadder : Z;
  widthSensitive : Q;
  offsetSensitive : Q;
  phi0 : Q
}.

(** The data members that [processRunHeader] writes. *)
Record Tables : Type := mkTables {
  _nRun : Z;
  _numberOfLayers : Z;
  _laddersInLayer : list Z;
  _sensorsPerLadder : list Z;
  _layerHalfPhi : list Q;
  _layerHalfThickness : list Q;
  _layerThickness : list Q;
  _layerRadius : list Q;
  _layerLadderLength : list Q;
  _layerLadderWidth : list Q;
  _layerLadderHalfWidth : list Q;
  _layerActiveSiOffset : list Q;
  _layerPhiOffset : list Q
}.

Section Units.

(** Whether [ZSEGMENTED] is defined at compile time; [M_PI], [dd4hep::cm]
    and [dd4hep::mm]. *)
Variable ZSEGMENTED : bool.
Variable M_PI : Q.
Variable cm : Q.
Variable mm : Q.

(** The body of [for (ZPlanarData::LayerLayout z_layout : vx_layers)], with
    the tables and [curr_layer]. *)
Definition layer_step (a : Tables * Z) (z_layout : LayerLayout)
    : option (Tables * Z) :=
  let g := a.1 in
  let curr_layer := a.2 in
  let laddersInLayer :=
    vec_write (_laddersInLayer g) curr_layer (ladderNumber z_layout) in
  ladders ← vec_read laddersInLayer curr_layer;
  halfPhi ← quotient M_PI (double_of_int ladders);
  let layerHalfPhi := vec_write (_layerHalfPhi g) curr_layer halfPhi in
  let layerThickness :=
    vec_write (_layerThickness g) curr_layer
      (thicknessSensitive z_layout * cm / mm)%Q in
  thickness ← vec_read layerThickness curr_layer;
  let layerHalfThickness :=
    vec_write (_layerHalfThickness g) curr_layer ((1 # 2) * thickness)%Q in
  halfThickness ← vec_read layerHalfThickness curr_layer;
  let layerRadius :=
    vec_write (_layerRadius g) curr_layer
      (distanceSensitive z_layout * cm / mm + halfThickness)%Q in
  let sensors :=
    if ZSEGMENTED
    then vec_write (_sensorsPerLadder g) curr_layer (sensorsPerLadder z_layout)
    else _sensorsPerLadder g in
  let layerLadderLength :=
    vec_write (_layerLadderLength g) curr_layer
      (if ZSEGMENTED
       then lengthSensor z_layout * double_of_int (sensorsPerLadder z_layout)
            * cm / mm
       else lengthSensor z_layout * cm / mm)%Q in
  let layerLadderWidth :=
    vec_write (_layerLadderWidth g) curr_layer
      (widthSensitive z_layout * cm / mm)%Q in
  width ← vec_read layerLadderWidth curr_layer;
  let layerLadderHalfWidth :=
    vec_write (_layerLadderHalfWidth g) curr_layer (width / 2)%Q in
  let layerActiveSiOffset :=
    vec_write (_layerActiveSiOffset g) curr_layer
      (- offsetSensitive z_layout * cm / mm)%Q in
  let layerPhiOffset :=
    vec_write (_layerPhiOffset g) curr_layer (phi0 z_layout) in
  Some ({| _nRun := _nRun g;
           _numberOfLayers := _numberOfLayers g;
           _laddersInLayer := laddersInLayer;
           _sensorsPerLadder := sensors;
           _layerHalfPhi := layerHalfPhi;
           _layerHalfThickness := layerHalfThickness;
           _layerThickness := layerThickness;
           _layerRadius := layerRadius;
           _layerLadderLength := layerLadderLength;
           _layerLadderWidth := layerLadderWidth;
           _layerLadderHalfWidth := layerLadderHalfWidth;
           _layerActiveSiOffset := layerActiveSiOffset;
           _layerPhiOffset := layerPhiOffset |},
        Int32.add curr_layer 1).

(** [void processRunHeader(LCRunHeader* run)] for the layers [vx_layers] of
    the detector; [map_found] tells whether the surface map of the detector
    is found, and the function throws when it is not.  A negative size given
    to [resize] has no result.  [PrintGeometryInfo] only prints. *)
Definition processRunHeader (g : Tables) (vx_layers : list LayerLayout)
    (map_found : bool) : option Tables :=
  let n := Int32.wrap32 (Z.of_nat (length vx_layers)) in
  if negb map_found then None
  else if n <? 0 then None
  else
    let g1 :=
      {| _nRun := Int32.add (_nRun g) 1;
         _numberOfLayers := n;
         _laddersInLayer := vec_resize n 0 (_laddersInLayer g);
         _sensorsPerLadder :=
           if ZSEGMENTED then vec_resize n 0 (_sensorsPerLadder g)
           else _sensorsPerLadder g;
         _layerHalfPhi := vec_resize n 0%Q (_layerHalfPhi g);
         _layerHalfThickness := vec_resize n 0%Q (_layerHalfThickness g);
         _layerThickness := vec_resize n 0%Q (_layerThickness g);
         _layerRadius := vec_resize n 0%Q (_layerRadius g);
         _layerLadderLength := vec_resize n 0%Q (_layerLadderLength g);
         _layerLadderWidth := vec_resize n 0%Q (_layerLadderWidth g);
         _layerLadderHalfWidth := vec_resize n 0%Q (_layerLadderHalfWidth g);
         _layerActiveSiOffset := vec_resize n 0%Q (_layerActiveSiOffset g);
         _layerPhiOffset := vec_resize n 0%Q (_layerPhiOffset g) |} in
    a ← Steps.fold_opt layer_step vx_layers (g1, 0);
    Some a.1.

End Units.

End Geometry.

(** ** MuonCVXDDigitiser.cc: the smearing of the charges and the steps of
    processEvent for one hit *)

Module Event.



Section Externals.

(** The externals of the steps, and the draws of the smearers: the value
    that [RandGauss::shoot(mean, stdDev)] and [RandPoisson::shoot(mean)]
    return in the turn [ihit] of the loop of [PoissonSmearer], and the value
    that [RandGauss::shoot(mean, stdDev)] returns in the turn [i] of the loop
    of [GainSmearer]. *)
Variable sqrt : Q -> Q.
Variable erf_Q : Q -> Q.
Variable SampleFluctuations : Z -> Q -> Q -> Q -> Q -> Q -> Q.
Variable shoot : nat -> Q.
Variable shoot_in : nat -> Q -> Q -> Q.
Variable gauss_charge : Z -> Q -> Q -> Q.
Variable poisson_charge : Z -> Q -> Q.
Variable gauss_noise : Z -> Q -> Q -> Q.




End Externals.

End Event.

(** ** Vocabulary of the properties of the reconstruction *)




(** What [ProduceHits] keeps true of every entry of [hit_Dict]: the key is
    the index of a pixel inside the matrix, and the hit is at the centre of
    that pixel, on the collecting plane. *)
Definition pixel_hit (s : Steps.DigitiserState) (k : Z) (hit : Digitiser.SimTrackerHit)
    : Prop :=
  exists ix iy nrow ncol xy ht,
    Steps.GetPixelsInaRow s = Some nrow /\
    Steps.GetPixelsInaColumn s = Some ncol /\
    0 <= ix < ncol /\ 0 <= iy < nrow /\
    k = Int32.add (Int32.mul nrow ix) iy /\
    Digitiser.TransformCellIDToXY (Steps.conf s) ix iy = Some xy /\
    vec_read (Digitiser._layerHalfThickness (Steps.conf s))
             (Digitiser._currentLayer (Steps.conf s)) = Some ht /\
    Digitiser.getPosition hit = (xy.1, xy.2, ht).

(** The length of the track in the sensitive layer that
    [ProduceIonisationPoints] computes for a hit of direction [dir] in a
    layer of thickness [th]:
    [std::min(_maxTrkLen, th * sqrt(1.0 + pow(tanx, 2) + pow(tany, 2)))]. *)
Definition track_length (sqrt : Q -> Q) (m : Track.TrackMembers) (dir : Q * Q * Q)
    (th : Q) : Q :=
  Track.std_min (Track._maxTrkLen m)
    (th * sqrt (1 + (dir.1.1 / dir.2) * (dir.1.1 / dir.2)
                  + (dir.1.2 / dir.2) * (dir.1.2 / dir.2)))%Q.

(** The threshold of the padding loop, [_deltaEne / _electronsPerKeV * keV]. *)
Definition padding_threshold (s : Steps.DigitiserState) (m : Track.TrackMembers) : Q :=
  (Track._deltaEne m / Digitiser._electronsPerKeV (Steps.conf s)
   * Digitiser.keV (Steps.conf s))%Q.

(** The tables [g] with the entries from [k] on replaced by those of the
    layers [layers], as the loop of [processRunHeader] writes them. *)
Definition fill_tables (ZSEGMENTED : bool) (M_PI cm mm : Q) (g : Geometry.Tables)
    (k : nat) (layers : list Geometry.LayerLayout) : Geometry.Tables :=
  let fill {A : Type} (f : Geometry.LayerLayout -> A) (T : list A) : list A :=
    take k T ++ map f layers ++ drop (k + length layers) T in
  {| Geometry._nRun := Geometry._nRun g;
     Geometry._numberOfLayers := Geometry._numberOfLayers g;
     Geometry._laddersInLayer :=
       fill Geometry.ladderNumber (Geometry._laddersInLayer g);
     Geometry._sensorsPerLadder :=
       if ZSEGMENTED
       then fill Geometry.sensorsPerLadder (Geometry._sensorsPerLadder g)
       else Geometry._sensorsPerLadder g;
     Geometry._layerHalfPhi :=
       fill (fun l => M_PI / inject_Z (Geometry.ladderNumber l))%Q
            (Geometry._layerHalfPhi g);
     Geometry._layerHalfThickness :=
       fill (fun l => (1 # 2) * (Geometry.thicknessSensitive l * cm / mm))%Q
            (Geometry._layerHalfThickness g);
     Geometry._layerThickness :=
       fill (fun l => Geometry.thicknessSensitive l * cm / mm)%Q
            (Geometry._layerThickness g);
     Geometry._layerRadius :=
       fill (fun l => Geometry.distanceSensitive l * cm / mm
                      + (1 # 2) * (Geometry.thicknessSensitive l * cm / mm))%Q
            (Geometry._layerRadius g);
     Geometry._layerLadderLength :=
       fill (fun l => if ZSEGMENTED
                      then Geometry.lengthSensor l
                           * inject_Z (Geometry.sensorsPerLadder l) * cm / mm
                      else Geometry.lengthSensor l * cm / mm)%Q
            (Geometry._layerLadderLength g);
     Geometry._layerLadderWidth :=
       fill (fun l => Geometry.widthSensitive l * cm / mm)%Q
            (Geometry._layerLadderWidth g);
     Geometry._layerLadderHalfWidth :=
       fill (fun l => Geometry.widthSensitive l * cm / mm / 2)%Q
            (Geometry._layerLadderHalfWidth g);
     Geometry._layerActiveSiOffset :=
       fill (fun l => - Geometry.offsetSensitive l * cm / mm)%Q
            (Geometry._layerActiveSiOffset g);
     Geometry._layerPhiOffset :=
       fill Geometry.phi0 (Geometry._layerPhiOffset g) |}.

(** Every table of [g] that the loop writes has at least [n] entries. *)
Definition tables_hold (ZSEGMENTED : bool) (g : Geometry.Tables) (n : nat) : Prop :=
  (n <= length (Geometry._laddersInLayer g))%nat /\
  (ZSEGMENTED = true -> n <= length (Geometry._sensorsPerLadder g))%nat /\
  (n <= length (Geometry._layerHalfPhi g))%nat /\
  (n <= length (Geometry._layerHalfThickness g))%nat /\
  (n <= length (Geometry._layerThickness g))%nat /\
  (n <= length (Geometry._layerRadius g))%nat /\
  (n <= length (Geometry._layerLadderLength g))%nat /\
  (n <= length (Geometry._layerLadderWidth g))%nat /\
  (n <= length (Geometry._layerLadderHalfWidth g))%nat /\
  (n <= length (Geometry._layerActiveSiOffset g))%nat /\
  (n <= length (Geometry._layerPhiOffset g))%nat.

(** ** Sample data of the properties *)

(** A decreasing function from 1 to 0 in the place of the value of
    [gsl_sf_erf_Q_e]. *)
Definition sample_erf_Q (x : Q) : Q :=
  if Qle_bool x (-1) then 1%Q
  else if Qle_bool 1 x then 0%Q else ((1 - x) / 2)%Q.

(** A layer of 512 by 5000 pixels of 25 um, and two signal points. *)
Definition sample_state : Steps.DigitiserState :=
  Steps.mkDigitiserState
    (Digitiser.mkMuonCVXDDigitiser (8 # 10) 0 (25 # 1000) (25 # 1000)
       (2703 # 10) 200 0 [(25 # 1000)%Q] [125%Q] [(64 # 10)%Q] (1 # 1000000))
    [(128 # 10)%Q] [(5 # 100)%Q] (7 # 100) 2 []
    [Steps.mkSignalPoint (1 # 100) (1 # 100) (1 # 100) (1 # 100) 1000;
     Steps.mkSignalPoint (3 # 100) (1 # 100) (1 # 100) (1 # 100) 500].

(** A rational in the place of [sqrt], exact at 1; the mean loss in the
    place of the sampled one; the middle of the range in the place of the
    draws. *)
Definition sample_sqrt (x : Q) : Q := ((1 + x) / 2)%Q.

Definition sample_fluctuations (i : Z) (momentum mass cut length meanLoss : Q) : Q :=
  if Qle_bool 0 meanLoss then meanLoss else 0%Q.

Definition sample_shoot (k : nat) : Q := 1 # 2.

Definition sample_shoot_in (k : nat) (a b : Q) : Q := ((a + b) / 2)%Q.

(** A track of 15 keV along the normal of the sample layer. *)
Definition sample_members : Track.TrackMembers :=
  Track.mkTrackMembers 10 (5 # 1000) 280 100 (3 # 100) (1 # 1000) 1
    0 0 (0, 0, 0)%Q (0, 0, 0)%Q (0, 0, 0)%Q 0 0.

Definition sample_hit : Track.LocalHit :=
  Track.mkLocalHit ((1 # 100), (1 # 100), 0)%Q (0, 0, 1)%Q (1057 # 10000) 1.

Definition sample_EDep : Q := 15 # 1000000.




(** * Properties *)

(** ** 32-bit arithmetic *)

Lemma wrap32_id z : Int32.in_range z -> Int32.wrap32 z = z.
Proof.
  unfold Int32.in_range, Int32.wrap32, Int32.INT_MIN, Int32.INT_MAX. intros H.
  rewrite Z.mod_small; lia.
Qed.

Lemma wrap32_range z : Int32.in_range (Int32.wrap32 z).
Proof.
  unfold Int32.in_range, Int32.wrap32, Int32.INT_MIN, Int32.INT_MAX.
  pose proof (Z.mod_pos_bound (z + 2 ^ 31) (2 ^ 32) ltac:(lia)). lia.
Qed.

Lemma in_range_nonneg z : 0 <= z <= Int32.INT_MAX -> Int32.in_range z.
Proof. unfold Int32.in_range, Int32.INT_MIN, Int32.INT_MAX. lia. Qed.

(** ** GridPosition *)

Section GridPositionFacts.

Variable g : GridPosition.

(** Without overflow [to_linear] is the row-major index. *)
Lemma to_linear_exact r c :
  0 <= r -> 0 <= c < b_size g -> r * b_size g + c <= Int32.INT_MAX ->
  to_linear g r c = r * b_size g + c.
Proof.
  intros Hr Hc Hmax. unfold to_linear, Int32.add, Int32.mul.
  assert (0 <= r * b_size g) by nia.
  rewrite (wrap32_id (r * b_size g)) by (apply in_range_nonneg; lia).
  apply wrap32_id, in_range_nonneg. lia.
Qed.

Lemma to_coordinate_exact pos :
  0 < b_size g -> 0 <= pos <= Int32.INT_MAX ->
  to_coordinate g pos =
    Some {| row := pos / b_size g; col := pos mod b_size g |}.
Proof.
  intros Hb Hp. unfold to_coordinate, Int32.div, Int32.rem.
  destruct (Z.eqb_spec (b_size g) 0) as [E|_]; [lia|].
  rewrite Z.quot_div_nonneg, Z.rem_mod_nonneg by lia.
  pose proof (Z.div_pos pos (b_size g) ltac:(lia) Hb).
  pose proof (Z.mod_pos_bound pos (b_size g) Hb).
  pose proof (Z.div_le_upper_bound pos (b_size g) pos Hb ltac:(nia)).
  pose proof (Z.mod_le pos (b_size g) ltac:(lia) Hb).
  rewrite !wrap32_id by (apply in_range_nonneg; lia). reflexivity.
Qed.

End GridPositionFacts.

(** C8 (as amended).  On a grid with a positive number of columns, a
    coordinate [(r, c)] with [0 <= r], [0 <= c < cols] whose row-major index
    [r * cols + c] fits a 32-bit [int] is mapped to that index and back to
    [(r, c)]; and every linear position [0 <= pos <= INT_MAX] is mapped to a
    coordinate and back to [pos]. *)
Theorem GridPosition_round_trip (g : GridPosition) (r c pos : Z) :
  (0 <= r -> 0 <= c < b_size g -> r * b_size g + c <= Int32.INT_MAX ->
   to_coordinate g (to_linear g r c) = Some {| row := r; col := c |})
  /\
  (0 < b_size g -> 0 <= pos <= Int32.INT_MAX ->
   exists rc, to_coordinate g pos = Some rc /\ to_linear g (row rc) (col rc) = pos).
Proof.
  split.
  - intros Hr Hc Hmax. rewrite to_linear_exact by assumption.
    rewrite to_coordinate_exact by nia.
    f_equal. f_equal.
    + symmetry. apply (Z.div_unique _ _ r c); lia.
    + symmetry. apply (Z.mod_unique _ _ r c); lia.
  - intros Hb Hp. eexists. split; [apply to_coordinate_exact; assumption|]. simpl.
    pose proof (Z.div_mod pos (b_size g) ltac:(lia)) as E.
    pose proof (Z.mod_pos_bound pos (b_size g) Hb).
    pose proof (Z.div_pos pos (b_size g) ltac:(lia) Hb).
    rewrite to_linear_exact; lia.
Qed.

Lemma GridPosition_round_trip_witness :
  let g := mkGridPosition 3 4 in
  to_coordinate g (to_linear g 2 3) = Some {| row := 2; col := 3 |} /\
  exists rc, to_coordinate g 11 = Some rc /\ to_linear g (row rc) (col rc) = 11.
Proof.
  intros g. destruct (GridPosition_round_trip g 2 3 11) as [A B]. split.
  - apply A; simpl; unfold Int32.INT_MAX; lia.
  - apply B; simpl; unfold Int32.INT_MAX; lia.
Defined.

(** C8 (as stated) fails where the row-major index leaves the range of
    [int]: on a grid of 4 columns, row [2^30] and column 0 give the index
    [2^32], which wraps to 0 and is mapped back to [(0, 0)]. *)
Lemma GridPosition_round_trip_overflow :
  let g := mkGridPosition (2 ^ 30 + 1) 4 in
  0 <= 2 ^ 30 /\ 0 <= 0 < b_size g /\
  to_coordinate g (to_linear g (2 ^ 30) 0) = Some {| row := 0; col := 0 |} /\
  to_coordinate g (to_linear g (2 ^ 30) 0) <> Some {| row := 2 ^ 30; col := 0 |}.
Proof.
  simpl. repeat split; try lia; try discriminate.
Qed.

(** ** PixelDigiMatrix: the bounds predicate *)

(** The second conjunct of [check] is a disjunction that every [y]
    satisfies whenever the matrix has a column: the predicate only tests the
    row. *)
Lemma check_tests_row_only (m : PixelDigiMatrix) (x y : Z) :
  0 < l_columns m -> (check m x y = true <-> 0 <= x < l_rows m).
Proof.
  intros Hc. unfold check.
  rewrite !andb_true_iff, orb_true_iff, Z.leb_le, !Z.ltb_lt, Z.leb_le. lia.
Qed.

Lemma check_in_bounds (m : PixelDigiMatrix) (x y : Z) :
  0 <= x < l_rows m -> 0 <= y < l_columns m -> check m x y = true.
Proof.
  intros Hx Hy. unfold check.
  rewrite !andb_true_iff, orb_true_iff, Z.leb_le, !Z.ltb_lt, Z.leb_le. lia.
Qed.

(** C1.  On the 2 x 2 matrix, [check 0 2] answers true although column 2 is
    outside [0, 2); with the update guarded by [check] as the spec words it,
    [UpdatePixel 0 2 5] lands on the index of the in-bounds pixel (1, 0) and
    changes its charge from 0 to 5. *)
Theorem check_accepts_column_out_of_range :
  l_rows matrix_2x2 = 2 /\ l_columns matrix_2x2 = 2 /\
  status matrix_2x2 = ok /\
  check matrix_2x2 0 2 = true /\
  index matrix_2x2 0 2 = index matrix_2x2 1 0 /\
  (pd_charge (GetPixel matrix_2x2 1 0) == 0)%Q /\
  (pd_charge (GetPixel (UpdatePixel matrix_2x2 0 2 5) 1 0) == 5)%Q.
Proof. vm_compute. repeat split; congruence. Qed.

(** ** PixelDigiMatrix: construction *)

Lemma int_of_double_range q z : int_of_double q = Some z -> Int32.in_range z.
Proof.
  unfold int_of_double, Int32.in_range. intros H.
  destruct (Z.leb_spec Int32.INT_MIN (Qtrunc q)); simpl in H; [|discriminate].
  destruct (Z.leb_spec (Qtrunc q) Int32.INT_MAX); simpl in H; [|discriminate].
  injection H as <-. lia.
Qed.


Lemma rem_between n seg :
  0 < seg ->
  (0 <= n -> 0 <= Z.rem n seg <= n) /\ (n <= 0 -> n <= Z.rem n seg <= 0).
Proof.
  intros Hs. split; intros Hn.
  - rewrite Z.rem_mod_nonneg by lia.
    pose proof (Z.mod_le n seg ltac:(lia) ltac:(lia)).
    pose proof (Z.mod_pos_bound n seg ltac:(lia)). lia.
  - replace (Z.rem n seg) with (- Z.rem (- n) seg)
      by (rewrite Z.rem_opp_l by lia; lia).
    rewrite Z.rem_mod_nonneg by lia.
    pose proof (Z.mod_le (- n) seg ltac:(lia) ltac:(lia)).
    pose proof (Z.mod_pos_bound (- n) seg ltac:(lia)). lia.
Qed.





(** ** PixelDigiMatrix: the clock *)

Lemma Qle_bool_false a b : Qle_bool a b = false <-> (b < a)%Q.
Proof.
  split; intros H.
  - apply Qnot_le_lt. intros L. apply Qle_bool_iff in L. congruence.
  - destruct (Qle_bool a b) eqn:E; [|reflexivity].
    apply Qle_bool_iff in E. exfalso. eapply Qlt_not_le; eassumption.
Qed.

Lemma Qeq_bool_false a b : Qeq_bool a b = false <-> ~ (a == b)%Q.
Proof.
  split; intros H.
  - intros E. apply Qeq_bool_iff in E. congruence.
  - destruct (Qeq_bool a b) eqn:E; [|reflexivity].
    apply Qeq_bool_iff in E. contradiction.
Qed.

Lemma pending_spec pix :
  pending pix = true <-> (~ (charge pix == 0)%Q \/ 0 < counter pix).
Proof.
  unfold pending, holds_charge.
  rewrite orb_true_iff, negb_true_iff, Qeq_bool_false, Z.ltb_lt. reflexivity.
Qed.

Lemma decay_spec d q :
  (0 <= decay d q)%Q /\
  ((q - d <= 0)%Q -> (decay d q == 0)%Q) /\
  ((0 < q - d)%Q -> (decay d q == q - d)%Q).
Proof.
  unfold decay. destruct (Qle_bool (q - d) 0) eqn:E.
  - apply Qle_bool_iff in E. repeat split; try reflexivity; try apply Qle_refl.
    intros H. exfalso. eapply Qlt_not_le; eassumption.
  - apply Qle_bool_false in E. repeat split; try reflexivity.
    + apply Qlt_le_weak, E.
    + intros H. exfalso. eapply Qlt_not_le; eassumption.
Qed.

Lemma calc_status_spec m pix :
  (0 < _thr_level m)%Q ->
  ((_thr_level m <= charge pix)%Q -> calc_status m pix = ready) /\
  ((0 < charge pix)%Q -> (charge pix < _thr_level m)%Q ->
     calc_status m pix = charging) /\
  ((charge pix == 0)%Q -> calc_status m pix = idle).
Proof.
  intros Hthr. unfold calc_status, IsOverThreshold. repeat split.
  - intros H. apply Qle_bool_iff in H. rewrite H. reflexivity.
  - intros H0 H1. apply Qle_bool_false in H1. rewrite H1.
    apply Qle_bool_false in H0. rewrite H0. reflexivity.
  - intros H.
    assert (Qle_bool (_thr_level m) (charge pix) = false) as ->.
    { apply Qle_bool_false. rewrite H. exact Hthr. }
    assert (Qle_bool (charge pix) 0 = true) as ->.
    { apply Qle_bool_iff. rewrite H. apply Qle_refl. }
    reflexivity.
Qed.

(** C2.  One [ClockSync] call, on a matrix with a positive threshold whose
    charge decrement [delta_c] is slope times clock period: every pixel that
    held nonzero charge or a pending (positive) counter has its counter
    decremented and its charge reduced by [slope * clock_step], floored at
    zero; its status, as [calc_status] recomputes it, is [ready] for a
    charge at or above the threshold, [charging] for a charge strictly
    between zero and the threshold, [idle] for a zero charge; and the clock
    has advanced by exactly one step. *)
Theorem ClockSync_tick (m : PixelDigiMatrix) (slope : Q) (i : nat) (pix : PixelRawData) :
  (0 < _thr_level m)%Q ->
  (delta_c m == slope * clock_step m)%Q ->
  pixels m !! i = Some pix ->
  (~ (charge pix == 0)%Q \/ 0 < counter pix) ->
  exists pix',
    pixels (ClockSync m) !! i = Some pix' /\
    counter pix' = Int32.sub (counter pix) 1 /\
    (Int32.in_range (counter pix - 1) -> counter pix' = counter pix - 1) /\
    (0 <= charge pix')%Q /\
    ((charge pix - slope * clock_step m <= 0)%Q -> (charge pix' == 0)%Q) /\
    ((0 < charge pix - slope * clock_step m)%Q ->
       (charge pix' == charge pix - slope * clock_step m)%Q) /\
    ((_thr_level m <= charge pix')%Q -> calc_status (ClockSync m) pix' = ready) /\
    ((0 < charge pix')%Q -> (charge pix' < _thr_level m)%Q ->
       calc_status (ClockSync m) pix' = charging) /\
    ((charge pix' == 0)%Q -> calc_status (ClockSync m) pix' = idle) /\
    clock_time (ClockSync m) = (clock_time m + clock_step m)%Q.
Proof.
  intros Hthr Hd Hi Hp. apply pending_spec in Hp.
  exists (clock_pixel (delta_c m) pix).
  destruct (decay_spec (delta_c m) (charge pix)) as (D0 & D1 & D2).
  destruct (calc_status_spec (ClockSync m) (clock_pixel (delta_c m) pix) Hthr)
    as (S1 & S2 & S3).
  split; [|split; [|split; [|split; [|split; [|split; [|split; [|split; [|split]]]]]]]];
    try assumption.
  - unfold ClockSync. cbn [with_state pixels]. rewrite list_lookup_fmap, Hi.
    reflexivity.
  - unfold clock_pixel. rewrite Hp. reflexivity.
  - intros Hr. unfold clock_pixel. rewrite Hp. cbn [counter].
    apply wrap32_id, Hr.
  - unfold clock_pixel. rewrite Hp. exact D0.
  - intros H. unfold clock_pixel. rewrite Hp. cbn [charge].
    apply D1. rewrite Hd. exact H.
  - intros H. unfold clock_pixel. rewrite Hp. cbn [charge].
    rewrite D2 by (rewrite Hd; exact H). rewrite Hd. reflexivity.
  - reflexivity.
Qed.

Lemma ClockSync_tick_witness :
  let m := UpdatePixel matrix_2x2 1 1 500 in
  exists pix',
    pixels (ClockSync m) !! 3%nat = Some pix' /\
    counter pix' = -1 /\ (charge pix' == 450)%Q /\
    calc_status (ClockSync m) pix' = ready /\
    (clock_time (ClockSync m) == 1)%Q.
Proof.
  intros m.
  destruct (ClockSync_tick m 50 3%nat
              {| charge := 0 + 500; counter := 0; active := true |})
    as (pix' & L & C & _ & _ & _ & Q1 & S & _ & _ & T).
  - reflexivity.
  - reflexivity.
  - reflexivity.
  - left. discriminate.
  - exists pix'. split; [exact L|]. split; [exact C|].
    assert (charge pix' == 450)%Q as E by (rewrite Q1; reflexivity).
    split; [exact E|]. split.
    + apply S. rewrite E. discriminate.
    + rewrite T. reflexivity.
Defined.

(** ** Coordinate transforms *)

Lemma Qtrunc_nonneg q : (0 <= q)%Q -> Qtrunc q = Qfloor q.
Proof.
  destruct q as [n d]. unfold Qle, Qtrunc, Qfloor. simpl. intros H.
  apply Z.quot_div_nonneg; lia.
Qed.

Lemma Qfloor_unique q n :
  (inject_Z n <= q)%Q -> (q < inject_Z (n + 1))%Q -> Qfloor q = n.
Proof.
  intros Hlo Hhi.
  pose proof (Qfloor_le q) as F1. pose proof (Qlt_floor q) as F2.
  assert (n < Qfloor q + 1).
  { rewrite Zlt_Qlt. eapply Qle_lt_trans; eassumption. }
  assert (Qfloor q < n + 1).
  { rewrite Zlt_Qlt. eapply Qle_lt_trans; eassumption. }
  lia.
Qed.

Lemma int_of_quotient_floor a p :
  (0 < p)%Q -> (0 <= a)%Q -> (a / p < inject_Z (2 ^ 31))%Q ->
  int_of_quotient a p = Some (Qfloor (a / p)) /\
  0 <= Qfloor (a / p) <= Int32.INT_MAX.
Proof.
  intros Hp Ha Hmax.
  assert (0 <= a / p)%Q as Hq.
  { apply Qle_shift_div_l; [exact Hp|]. rewrite Qmult_0_l. exact Ha. }
  assert (0 <= Qfloor (a / p) <= Int32.INT_MAX) as Hr.
  { split.
    - change 0 with (Qfloor 0). apply Qfloor_resp_le, Hq.
    - pose proof (Qfloor_le (a / p)) as F.
      assert (Qfloor (a / p) < 2 ^ 31); [|unfold Int32.INT_MAX; lia].
      rewrite Zlt_Qlt. eapply Qle_lt_trans; eassumption. }
  split; [|exact Hr].
  unfold int_of_quotient.
  assert (Qeq_bool p 0 = false) as ->.
  { apply Qeq_bool_false. intros E. rewrite E in Hp. discriminate. }
  unfold int_of_double. rewrite Qtrunc_nonneg by exact Hq.
  destruct (Z.leb_spec Int32.INT_MIN (Qfloor (a / p)));
    [|unfold Int32.INT_MIN in *; lia].
  destruct (Z.leb_spec (Qfloor (a / p)) Int32.INT_MAX); [|lia].
  reflexivity.
Qed.

(** The centre of bin [c] falls into bin [c]. *)
Lemma bin_centre h p c :
  (0 < p)%Q -> 0 <= c <= Int32.INT_MAX ->
  int_of_quotient ((((1 # 2) + double_of_int c) * p - h) + h)%Q p = Some c.
Proof.
  intros Hp Hc.
  assert (~ p == 0)%Q as Hp0 by (intros E; rewrite E in Hp; discriminate).
  assert (((((1 # 2) + double_of_int c) * p - h) + h) / p == (1 # 2) + inject_Z c)%Q
    as E by (unfold double_of_int; field; exact Hp0).
  assert (0 <= (1 # 2) + inject_Z c)%Q as Hpos.
  { assert (inject_Z 0 <= inject_Z c)%Q by (rewrite <- Zle_Qle; lia).
    change (inject_Z 0) with 0%Q in *. lra. }
  assert (Qfloor ((1 # 2) + inject_Z c) = c) as Hf.
  { apply Qfloor_unique.
    - lra.
    - rewrite inject_Z_plus. change (inject_Z 1) with 1%Q. lra. }
  unfold int_of_quotient.
  assert (Qeq_bool p 0 = false) as -> by (apply Qeq_bool_false; exact Hp0).
  unfold int_of_double. rewrite Qtrunc_nonneg by (rewrite E; exact Hpos).
  assert (Qfloor (((((1 # 2) + double_of_int c) * p - h) + h) / p) = c) as ->
    by (rewrite E; exact Hf).
  destruct (Z.leb_spec Int32.INT_MIN c); [|unfold Int32.INT_MIN in *; lia].
  destruct (Z.leb_spec c Int32.INT_MAX); [|lia].
  reflexivity.
Qed.

(** C7.  On a matrix with a positive pixel length whose ladder holds fewer
    than [2^31] columns, every coordinate [y] of the ladder,
    [-ladderLength/2 <= y < ladderLength/2], is given a column by
    [YToPixelCol], and the coordinate that [PixelColToY] gives for that
    column is converted back to the same column. *)
Theorem YToPixelCol_round_trip (m : PixelDigiMatrix) (y : Q) :
  (0 < _pixelSizeY m)%Q ->
  (_ladderLength m / _pixelSizeY m <= inject_Z Int32.INT_MAX)%Q ->
  (- (_ladderLength m / 2) <= y)%Q -> (y < _ladderLength m / 2)%Q ->
  exists c, YToPixelCol m y = Some c /\
            YToPixelCol m (PixelColToY m c) = Some c.
Proof.
  intros Hp Hn Hlo Hhi.
  assert (0 <= y + _ladderLength m / 2)%Q as Ha by lra.
  assert ((y + _ladderLength m / 2) / _pixelSizeY m < inject_Z (2 ^ 31))%Q as Hb.
  { eapply Qlt_le_trans with (_ladderLength m / _pixelSizeY m)%Q.
    - apply Qlt_shift_div_l; [exact Hp|].
      assert (~ _pixelSizeY m == 0)%Q by (intros E; rewrite E in Hp; discriminate).
      assert ((y + _ladderLength m / 2) / _pixelSizeY m * _pixelSizeY m
              == y + _ladderLength m / 2)%Q as E0 by (field; assumption).
      assert (_ladderLength m / 2 + _ladderLength m / 2 == _ladderLength m)%Q
        as E1 by field.
      rewrite E0. lra.
    - eapply Qle_trans; [exact Hn|]. rewrite <- Zle_Qle. unfold Int32.INT_MAX. lia. }
  destruct (int_of_quotient_floor _ _ Hp Ha Hb) as [E R].
  exists (Qfloor ((y + _ladderLength m / 2) / _pixelSizeY m)).
  split; [exact E|].
  unfold YToPixelCol, PixelColToY. apply bin_centre; assumption.
Qed.

Lemma YToPixelCol_round_trip_witness :
  exists c, YToPixelCol matrix_2x2 (1 # 3) = Some c /\
            YToPixelCol matrix_2x2 (PixelColToY matrix_2x2 c) = Some c.
Proof.
  apply YToPixelCol_round_trip; vm_compute; congruence.
Defined.

(** ** ReconstructTrackerHit *)

Section Reconstruct.

Import Digitiser.

Variable d : MuonCVXDDigitiser.

Lemma above_threshold_cons hit v :
  above_threshold d (hit :: v) =
    if Qle_bool (getEDep hit) (_threshold d) then above_threshold d v
    else hit :: above_threshold d v.
Proof.
  unfold above_threshold. cbn [List.filter].
  destruct (Qle_bool (getEDep hit) (_threshold d)) eqn:E.
  - apply Qle_bool_iff in E. destruct (Qlt_le_dec _ _) as [L|_]; [|reflexivity].
    exfalso. eapply Qlt_not_le; eassumption.
  - apply Qle_bool_false in E. destruct (Qlt_le_dec _ _) as [_|N]; [reflexivity|].
    exfalso. eapply Qlt_not_le; eassumption.
Qed.

(** The loop accumulates, over the pixels above threshold, the two
    coordinates, the charge and the count. *)
Lemma reco_fold v a :
  let r := fold_left (reco_step d) v a in
  (pos0 r == pos0 a + Qsum (map pixel_x (above_threshold d v)))%Q /\
  (pos1 r == pos1 a + Qsum (map pixel_y (above_threshold d v)))%Q /\
  (r_charge r == r_charge a + Qsum (map getEDep (above_threshold d v)))%Q /\
  (0 <= size a ->
   size a + Z.of_nat (length (above_threshold d v)) <= Int32.INT_MAX ->
   size r = size a + Z.of_nat (length (above_threshold d v))).
Proof.
  revert a. induction v as [|hit v IH]; intros a r.
  - subst r. simpl. repeat split; try ring. lia.
  - subst r. cbn [fold_left]. rewrite above_threshold_cons.
    specialize (IH (reco_step d a hit)). cbv zeta in IH.
    destruct IH as (I0 & I1 & I2 & I3).
    remember (fold_left (reco_step d) v (reco_step d a hit)) as r eqn:Er.
    clear Er. unfold reco_step in I0, I1, I2, I3.
    destruct (Qle_bool (getEDep hit) (_threshold d)).
    + repeat split; assumption.
    + cbn [pos0 pos1 r_charge size] in I0, I1, I2, I3. cbn [map length Qsum foldr].
      fold (Qsum (map pixel_x (above_threshold d v))).
      fold (Qsum (map pixel_y (above_threshold d v))).
      fold (Qsum (map getEDep (above_threshold d v))).
      split; [rewrite I0; unfold pixel_x; ring|].
      split; [rewrite I1; unfold pixel_y; ring|].
      split; [rewrite I2; ring|].
      intros Hs Hm.
      assert (Int32.add (size a) 1 = size a + 1) as E.
      { unfold Int32.add. apply wrap32_id, in_range_nonneg. lia. }
      rewrite E in I3. rewrite I3; lia.
Qed.

Lemma length_above_threshold v :
  (length (above_threshold d v) <= length v)%nat.
Proof. apply List.filter_length_le. Qed.

Lemma reco_loop_spec v :
  Z.of_nat (length v) <= Int32.INT_MAX ->
  let r := reco_loop d v in
  (pos0 r == Qsum (map pixel_x (above_threshold d v)))%Q /\
  (pos1 r == Qsum (map pixel_y (above_threshold d v)))%Q /\
  (r_charge r == Qsum (map getEDep (above_threshold d v)))%Q /\
  size r = Z.of_nat (length (above_threshold d v)).
Proof.
  intros Hlen r. subst r. unfold reco_loop.
  rewrite wrap32_id by (apply in_range_nonneg; lia).
  rewrite Nat2Z.id, firstn_all.
  pose proof (length_above_threshold v) as Hle.
  destruct (reco_fold v {| pos0 := 0; pos1 := 0; r_charge := 0; size := 0 |})
    as (I0 & I1 & I2 & I3).
  cbn [pos0 pos1 r_charge size] in *.
  split; [rewrite I0; ring|]. split; [rewrite I1; ring|].
  split; [rewrite I2; ring|]. rewrite I3; lia.
Qed.

(** A sum of charges that all exceed a non-negative threshold is positive
    as soon as there is one. *)
Lemma Qsum_above_positive v :
  (0 <= _threshold d)%Q -> above_threshold d v <> [] ->
  (0 < Qsum (map getEDep (above_threshold d v)))%Q.
Proof.
  intros Hthr.
  assert (forall l, Forall (fun hit => (_threshold d < getEDep hit)%Q) l ->
                    l <> [] -> (0 < Qsum (map getEDep l))%Q) as G.
  { induction l as [|hit l IH]; intros HF Hne; [contradiction|].
    apply Forall_cons in HF as [Hh HF]. cbn [map Qsum foldr].
    fold (Qsum (map getEDep l)).
    destruct l as [|hit' l'].
    - simpl. lra.
    - specialize (IH HF ltac:(discriminate)). lra. }
  apply G. unfold above_threshold.
  apply Forall_forall. intros hit Hin. apply list_elem_of_In, List.filter_In in Hin.
  destruct Hin as [_ Hin]. destruct (Qlt_le_dec _ _); [assumption|discriminate].
Qed.

(** C10 (as amended).  For an input of at most [INT_MAX] pixels,
    [ReconstructTrackerHit] returns [nullptr] exactly when the charges
    strictly above the threshold add up to nothing positive; with a
    non-negative threshold that is exactly when no pixel is strictly above
    the threshold.  Otherwise, reading the half thickness [ht] of the
    current layer, it returns a hit whose charge is the sum of the charges
    strictly above threshold, divided by [_electronsPerKeV] and multiplied by
    [keV], and whose x and y are the unweighted means of the positions of the
    pixels strictly above threshold, minus [ht] times the tangent of the
    Lorentz angle in x and in y; z is 0. *)
Theorem ReconstructTrackerHit_spec (simTrkVec : list SimTrackerHit) (ht : Q) :
  Z.of_nat (length simTrkVec) <= Int32.INT_MAX ->
  vec_read (_layerHalfThickness d) (_currentLayer d) = Some ht ->
  let fired := above_threshold d simTrkVec in
  let total := Qsum (map getEDep fired) in
  let n := inject_Z (Z.of_nat (length fired)) in
  (ReconstructTrackerHit d simTrkVec = nullptr <-> (total <= 0)%Q)
  /\ ((0 <= _threshold d)%Q ->
      (ReconstructTrackerHit d simTrkVec = nullptr <-> fired = []))
  /\ ((0 < total)%Q ->
      exists recoHit,
        ReconstructTrackerHit d simTrkVec = object recoHit /\
        (EDep recoHit == total / _electronsPerKeV d * keV d)%Q /\
        ((Position recoHit).1.1 ==
           Qsum (map pixel_x fired) / n - ht * _tanLorentzAngleX d)%Q /\
        ((Position recoHit).1.2 ==
           Qsum (map pixel_y fired) / n - ht * _tanLorentzAngleY d)%Q /\
        ((Position recoHit).2 == 0)%Q).
Proof.
  intros Hlen Hht fired total n.
  destruct (reco_loop_spec simTrkVec Hlen) as (I0 & I1 & I2 & I3).
  fold fired in I0, I1, I2, I3. fold total in I2.
  assert (ReconstructTrackerHit d simTrkVec = nullptr <-> (total <= 0)%Q) as Hnull.
  { unfold ReconstructTrackerHit. rewrite Hht.
    destruct (Qle_bool (r_charge (reco_loop d simTrkVec)) 0) eqn:E; cbn [negb].
    - apply Qle_bool_iff in E. rewrite I2 in E. tauto.
    - apply Qle_bool_false in E. rewrite I2 in E. split; [discriminate|].
      intros L. exfalso. eapply Qlt_not_le; eassumption. }
  split; [exact Hnull|]. split.
  - intros Hthr. rewrite Hnull. split.
    + intros L. destruct fired eqn:Ef; [reflexivity|]. exfalso.
      eapply Qlt_not_le; [|exact L].
      subst total. rewrite <- Ef. apply Qsum_above_positive; [exact Hthr|].
      fold fired. rewrite Ef. discriminate.
    + intros E. subst total. rewrite E. simpl. apply Qle_refl.
  - intros Hpos. unfold ReconstructTrackerHit. rewrite Hht.
    assert (Qle_bool (r_charge (reco_loop d simTrkVec)) 0 = false) as ->.
    { apply Qle_bool_false. rewrite I2. exact Hpos. }
    cbn [negb]. eexists. split; [reflexivity|]. cbn [EDep Position fst snd].
    unfold double_of_int. rewrite I3. fold n.
    split; [rewrite I2; reflexivity|].
    split; [rewrite I0; reflexivity|].
    split; [rewrite I1; reflexivity|reflexivity].
Qed.

End Reconstruct.

Lemma ReconstructTrackerHit_spec_witness :
  let d := Digitiser.mkMuonCVXDDigitiser (8 # 10) 0 (25 # 1000) (25 # 1000)
             (2703 # 10) 200 0 [(25 # 1000)%Q] [125%Q] [(64 # 10)%Q] (1 # 1000000) in
  let v := [Digitiser.mkSimTrackerHit 300 (1, 2, 0)%Q;
            Digitiser.mkSimTrackerHit 100 (5, 5, 0)%Q;
            Digitiser.mkSimTrackerHit 500 (3, 4, 0)%Q] in
  Digitiser.ReconstructTrackerHit d v <> Digitiser.nullptr /\
  exists recoHit,
    Digitiser.ReconstructTrackerHit d v = Digitiser.object recoHit /\
    ((Digitiser.Position recoHit).1.1 == 2 - (25 # 1000) * (8 # 10))%Q /\
    ((Digitiser.Position recoHit).1.2 == 3)%Q.
Proof.
  intros d v.
  destruct (ReconstructTrackerHit_spec d v (25 # 1000)) as (A & B & C).
  - vm_compute. discriminate.
  - reflexivity.
  - split.
    + intros E. apply B in E; [discriminate E|]. vm_compute. discriminate.
    + destruct C as (recoHit & E & _ & X & Y & _); [reflexivity|].
      exists recoHit. split; [exact E|]. split.
      * rewrite X. reflexivity.
      * rewrite Y. reflexivity.
Defined.

(** C10 (as stated) fails for a negative threshold: with the threshold at
    -5 a single pixel of charge -1 is strictly above the threshold, but the
    accumulated charge is not positive and the function returns [nullptr]. *)
Lemma ReconstructTrackerHit_negative_threshold :
  let d := Digitiser.mkMuonCVXDDigitiser (8 # 10) 0 (25 # 1000) (25 # 1000)
             (2703 # 10) (-5) 0 [(25 # 1000)%Q] [125%Q] [(64 # 10)%Q] (1 # 1000000) in
  let v := [Digitiser.mkSimTrackerHit (-1) (1, 2, 0)%Q] in
  Digitiser.ReconstructTrackerHit d v = Digitiser.nullptr /\
  Exists (fun hit => (Digitiser._threshold d < Digitiser.getEDep hit)%Q) v.
Proof.
  split.
  - reflexivity.
  - apply Exists_cons_hd. reflexivity.
Qed.


(** ** Vectors indexed by [int] *)

Section VecFacts.

Context {T : Type}.
Implicit Types (v : list T) (i j : Z).

Lemma vec_read_Some v i a :
  vec_read v i = Some a -> 0 <= i < Z.of_nat (length v).
Proof.
  unfold vec_read. destruct (Z.leb_spec 0 i); [|discriminate].
  intros Hl. apply lookup_lt_Some in Hl. lia.
Qed.

Lemma vec_read_is_Some v i :
  0 <= i < Z.of_nat (length v) -> exists a, vec_read v i = Some a.
Proof.
  intros H. unfold vec_read. destruct (Z.leb_spec 0 i); [|lia].
  apply lookup_lt_is_Some_2. lia.
Qed.

Lemma length_vec_write v i a : length (vec_write v i a) = length v.
Proof.
  unfold vec_write, vec_alter. destruct (0 <=? i); [|reflexivity].
  apply length_alter.
Qed.

Lemma vec_read_write_eq v i a :
  0 <= i < Z.of_nat (length v) -> vec_read (vec_write v i a) i = Some a.
Proof.
  intros H. unfold vec_read, vec_write, vec_alter.
  destruct (Z.leb_spec 0 i); [|lia].
  rewrite list_lookup_alter_eq.
  destruct (lookup_lt_is_Some_2 v (Z.to_nat i) ltac:(lia)) as [b ->]. reflexivity.
Qed.

Lemma vec_read_write_ne v i j a :
  i <> j -> vec_read (vec_write v i a) j = vec_read v j.
Proof.
  intros H. unfold vec_read, vec_write, vec_alter.
  destruct (Z.leb_spec 0 j); [|reflexivity].
  destruct (Z.leb_spec 0 i); [|reflexivity].
  apply list_lookup_alter_ne. lia.
Qed.

Lemma vec_write_same v i a : vec_read v i = Some a -> vec_write v i a = v.
Proof.
  unfold vec_read, vec_write, vec_alter.
  destruct (Z.leb_spec 0 i); [|reflexivity]. intros Hr.
  apply list_eq. intros k. destruct (decide (k = Z.to_nat i)) as [->|N].
  - rewrite list_lookup_alter_eq, Hr. reflexivity.
  - rewrite list_lookup_alter_ne by congruence. reflexivity.
Qed.

End VecFacts.

(** ** The find-union structure *)

Section UnionFind.

Import GridSet.

(** Which linear positions hold an active pixel. *)
Variable A : Z -> bool.

Lemma live_parent dt i p :
  uf_inv A dt -> vec_read dt i = Some p -> 0 <= p -> p <> i ->
  0 <= p < i /\ A i = true /\ A p = true /\ live dt p.
Proof.
  intros Hinv Hr Hp Hne.
  destruct (Hinv i p Hr) as [[E _]|[E|(R & Ai & Ap)]];
    [unfold sentinel in E; lia|contradiction|].
  repeat split; try lia; try assumption.
  pose proof (vec_read_Some _ _ _ Hr) as Hi.
  destruct (vec_read_is_Some dt p ltac:(lia)) as [q Hq].
  exists q. split; [exact Hq|].
  destruct (Hinv p q Hq) as [[_ E]|[E|(R' & _)]]; [congruence|lia|lia].
Qed.

Lemma find_root_spec dt :
  uf_inv A dt ->
  forall fuel i, live dt i -> i < Z.of_nat fuel ->
    let r := find_root fuel dt i in
    vec_read dt r = Some r /\ 0 <= r <= i /\
    (r = i \/ (A r = true /\ A i = true)).
Proof.
  intros Hinv. induction fuel as [|fuel IH]; intros i [p [Hr Hp]] Hf.
  - apply vec_read_Some in Hr. lia.
  - cbn [find_root]. rewrite Hr. pose proof (vec_read_Some _ _ _ Hr) as Hi.
    destruct (Z.eqb_spec p i) as [->|Hne].
    + cbv zeta. repeat split; try lia; auto.
    + destruct (live_parent dt i p Hinv Hr Hp Hne) as (R & Ai & Ap & Lp).
      specialize (IH p Lp ltac:(lia)). cbv zeta in IH |- *.
      destruct IH as (I1 & I2 & I3). repeat split; try lia; try assumption.
      right. destruct I3 as [->|[Ar _]]; auto.
Qed.

Lemma find_root_fuel dt :
  uf_inv A dt ->
  forall f1 f2 i, live dt i -> i < Z.of_nat f1 -> i < Z.of_nat f2 ->
    find_root f1 dt i = find_root f2 dt i.
Proof.
  intros Hinv. induction f1 as [|f1 IH]; intros f2 i [p [Hr Hp]] H1 H2.
  - apply vec_read_Some in Hr. lia.
  - destruct f2 as [|f2]; [apply vec_read_Some in Hr; lia|].
    cbn [find_root]. rewrite Hr.
    destruct (Z.eqb_spec p i) as [->|Hne]; [reflexivity|].
    destruct (live_parent dt i p Hinv Hr Hp Hne) as (R & Ai & Ap & Lp).
    apply IH; [exact Lp|lia|lia].
Qed.

Lemma root_unfold dt i p :
  uf_inv A dt -> vec_read dt i = Some p -> 0 <= p ->
  root dt i = if p =? i then i else root dt p.
Proof.
  intros Hinv Hr Hp. unfold root.
  pose proof (vec_read_Some _ _ _ Hr) as Hi.
  rewrite (find_root_fuel dt Hinv (length dt) (S (length dt)) i);
    [|exists p; split; assumption|lia|lia].
  cbn [find_root]. rewrite Hr. reflexivity.
Qed.

Lemma root_spec dt i :
  uf_inv A dt -> live dt i ->
  vec_read dt (root dt i) = Some (root dt i) /\ 0 <= root dt i <= i /\
  (root dt i = i \/ (A (root dt i) = true /\ A i = true)).
Proof.
  intros Hinv Hl. apply find_root_spec; [exact Hinv|exact Hl|].
  destruct Hl as [p [Hr _]]. apply vec_read_Some in Hr. lia.
Qed.

Lemma root_self dt r : uf_inv A dt -> vec_read dt r = Some r -> root dt r = r.
Proof.
  intros Hinv Hr. pose proof (vec_read_Some _ _ _ Hr).
  rewrite (root_unfold dt r r Hinv Hr) by lia. rewrite Z.eqb_refl. reflexivity.
Qed.

Lemma root_live dt i : uf_inv A dt -> live dt i -> live dt (root dt i).
Proof.
  intros Hinv Hl. destruct (root_spec dt i Hinv Hl) as (Hr & R & _).
  exists (root dt i). split; [exact Hr|lia].
Qed.

Lemma root_idem dt i : uf_inv A dt -> live dt i -> root dt (root dt i) = root dt i.
Proof.
  intros Hinv Hl. apply root_self; [exact Hinv|]. apply root_spec; assumption.
Qed.

(** *** Writing a canonical label into a cell *)

(** One write [data[j] = v] covers the union (j canonical, v the smaller
    canonical label) and a step of path compression (v the canonical
    label of j): the classes of [j] and [v] become one, labelled [v]. *)
Lemma write_label dt j v :
  uf_inv A dt -> live dt j -> vec_read dt v = Some v ->
  (v = j \/ (0 <= v < j /\ A j = true /\ A v = true)) ->
  (root dt j = j \/ root dt j = v) ->
  let dt' := vec_write dt j v in
  uf_inv A dt' /\
  (forall k, live dt' k <-> live dt k) /\
  (forall k, live dt k ->
     root dt' k = if root dt k =? root dt j then v else root dt k).
Proof.
  intros Hinv Hj Hv Hvj Hrj dt'.
  pose proof (vec_read_Some _ _ _ Hv) as Rv.
  destruct Hj as [pj [Hj Hpj]]. pose proof (vec_read_Some _ _ _ Hj) as Rj.
  assert (uf_inv A dt') as Hinv'.
  { intros i p Hr. destruct (decide (i = j)) as [->|Hne].
    - subst dt'. rewrite vec_read_write_eq in Hr by lia. injection Hr as <-.
      destruct Hvj as [->|H]; [right; left; reflexivity|right; right; exact H].
    - subst dt'. rewrite vec_read_write_ne in Hr by congruence. apply Hinv, Hr. }
  assert (forall k, live dt' k <-> live dt k) as Hlive.
  { intros k. unfold live. destruct (decide (k = j)) as [->|Hne].
    - subst dt'. rewrite vec_read_write_eq by lia. split; intros _.
      + exists pj. split; assumption.
      + exists v. split; [reflexivity|lia].
    - subst dt'. rewrite vec_read_write_ne by congruence. reflexivity. }
  split; [exact Hinv'|]. split; [exact Hlive|].
  destruct Hvj as [->|(Rvj & Aj & Av)].
  { (* the write changes nothing *)
    subst dt'. rewrite (vec_write_same dt j j Hv).
    intros k Hk. rewrite (root_self dt j Hinv Hv).
    destruct (Z.eqb_spec (root dt k) j); congruence. }
  assert (vec_read dt' v = Some v) as Hv'.
  { subst dt'. rewrite vec_read_write_ne by lia. exact Hv. }
  assert (root dt' j = v) as Hj'.
  { rewrite (root_unfold dt' j v Hinv') by (subst dt'; try apply vec_read_write_eq; lia).
    destruct (Z.eqb_spec v j); [lia|]. apply root_self; assumption. }
  intros k. pattern k. apply (well_founded_induction (Z.lt_wf 0)). clear k.
  intros k IH Hk.
  destruct (decide (k = j)) as [->|Hne].
  - rewrite Hj', Z.eqb_refl. reflexivity.
  - destruct Hk as [p [Hr Hp]].
    assert (vec_read dt' k = Some p) as Hr'.
    { subst dt'. rewrite vec_read_write_ne by congruence. exact Hr. }
    rewrite (root_unfold dt' k p Hinv' Hr' Hp), (root_unfold dt k p Hinv Hr Hp).
    destruct (Z.eqb_spec p k) as [->|Hpk].
    + destruct (Z.eqb_spec k (root dt j)) as [E|_]; [|reflexivity].
      destruct Hrj as [Hrj|Hrj]; rewrite Hrj in E; congruence.
    + destruct (live_parent dt k p Hinv Hr Hp Hpk) as (R & _ & _ & Lp).
      apply IH; [lia|exact Lp].
Qed.

(** *** Path compression *)

Lemma compress_spec dt fuel :
  uf_inv A dt ->
  forall i, live dt i ->
    let dt' := compress fuel dt i (root dt i) in
    uf_inv A dt' /\ length dt' = length dt /\
    (forall k, live dt' k <-> live dt k) /\
    (forall k, live dt k -> root dt' k = root dt k).
Proof.
  revert dt. induction fuel as [|fuel IH]; intros dt Hinv i Hi.
  - simpl. repeat split; auto.
  - cbn [compress]. destruct Hi as [p [Hr Hp]]. rewrite Hr.
    destruct ((p =? root dt i) || (p =? i)) eqn:Estop.
    + cbv zeta. repeat split; auto.
    + apply orb_false_iff in Estop as [E1 E2].
      apply Z.eqb_neq in E1. apply Z.eqb_neq in E2.
      assert (live dt i) as Hi by (exists p; split; assumption).
      destruct (live_parent dt i p Hinv Hr Hp E2) as (R & Ai & Ap & Lp).
      destruct (root_spec dt i Hinv Hi) as (Hroot & Rr & Hra).
      assert (root dt i = root dt p) as Erp.
      { rewrite (root_unfold dt i p Hinv Hr Hp).
        destruct (Z.eqb_spec p i); [contradiction|reflexivity]. }
      assert (root dt i <> i) as Hne.
      { intros E. rewrite E in Hroot. congruence. }
      destruct (write_label dt i (root dt i) Hinv Hi Hroot) as (W1 & W2 & W3).
      { right. destruct Hra as [E|[Ar _]]; [contradiction|].
        repeat split; try lia; assumption. }
      { right. reflexivity. }
      set (dt1 := vec_write dt i (root dt i)) in *.
      assert (root dt1 p = root dt i) as Ep.
      { rewrite (W3 p Lp), <- Erp, Z.eqb_refl. reflexivity. }
      specialize (IH dt1 W1 p (proj2 (W2 p) Lp)). cbv zeta in IH.
      rewrite Ep in IH. destruct IH as (I1 & I2 & I3 & I4).
      cbv zeta. split; [exact I1|]. split.
      { rewrite I2. apply length_vec_write. }
      split.
      { intros k. rewrite I3. apply W2. }
      intros k Hk. rewrite I4 by (apply W2; exact Hk). rewrite (W3 k Hk).
      destruct (Z.eqb_spec (root dt k) (root dt i)); congruence.
Qed.

(** *** Taking a cell out of the pass *)

Lemma write_sentinel dt k :
  uf_inv A dt -> A k = false -> live dt k ->
  let dt' := vec_write dt k sentinel in
  uf_inv A dt' /\
  ~ live dt' k /\
  (forall i, i <> k -> (live dt' i <-> live dt i)) /\
  (forall i, i <> k -> live dt i -> root dt' i = root dt i).
Proof.
  intros Hinv Ak [pk [Hk Hpk]] dt'.
  pose proof (vec_read_Some _ _ _ Hk) as Rk.
  assert (uf_inv A dt') as Hinv'.
  { intros i p Hr. destruct (decide (i = k)) as [->|Hne].
    - subst dt'. rewrite vec_read_write_eq in Hr by lia. injection Hr as <-.
      left. split; [reflexivity|exact Ak].
    - subst dt'. rewrite vec_read_write_ne in Hr by congruence. apply Hinv, Hr. }
  split; [exact Hinv'|]. split.
  { intros [p [Hr Hp]]. subst dt'. rewrite vec_read_write_eq in Hr by lia.
    injection Hr as <-. unfold sentinel in Hp. lia. }
  split.
  { intros i Hne. unfold live. subst dt'.
    rewrite vec_read_write_ne by congruence. reflexivity. }
  intros i. pattern i. apply (well_founded_induction (Z.lt_wf 0)). clear i.
  intros i IH Hne [p [Hr Hp]].
  assert (vec_read dt' i = Some p) as Hr'.
  { subst dt'. rewrite vec_read_write_ne by congruence. exact Hr. }
  rewrite (root_unfold dt' i p Hinv' Hr' Hp), (root_unfold dt i p Hinv Hr Hp).
  destruct (Z.eqb_spec p i) as [->|Hpi]; [reflexivity|].
  destruct (live_parent dt i p Hinv Hr Hp Hpi) as (R & _ & Ap & Lp).
  apply IH; [lia|congruence|exact Lp].
Qed.

End UnionFind.


(** ** The labeling pass: the operations on a grid *)

Section GridOps.

Import GridSet.

Variable act : Z -> Z -> bool.
Variables n_row n_col : Z.
Hypothesis Hcol : 0 < n_col.
Hypothesis Hmax : n_row * n_col <= Int32.INT_MAX.

Lemma posn_range c :
  in_grid n_row n_col c -> 0 <= posn n_col c < n_row * n_col.
Proof. unfold in_grid, posn. intros [Hx Hy]. nia. Qed.

Lemma posn_inj c1 c2 :
  in_grid n_row n_col c1 -> in_grid n_row n_col c2 ->
  posn n_col c1 = posn n_col c2 -> c1 = c2.
Proof.
  destruct c1 as [x1 y1], c2 as [x2 y2]. unfold in_grid, posn. simpl.
  intros [Hx1 Hy1] [Hx2 Hy2] E.
  assert (x1 = x2) by nia. subst. f_equal. lia.
Qed.

Lemma posn_div_mod c :
  in_grid n_row n_col c ->
  posn n_col c / n_col = c.1 /\ posn n_col c mod n_col = c.2.
Proof.
  unfold in_grid, posn. intros [Hx Hy]. split.
  - symmetry. apply (Z.div_unique _ _ c.1 c.2); lia.
  - symmetry. apply (Z.mod_unique _ _ c.1 c.2); lia.
Qed.

Lemma active_at_posn c :
  in_grid n_row n_col c -> active_at act n_col (posn n_col c) = act c.1 c.2.
Proof.
  intros H. unfold active_at. destruct (posn_div_mod c H) as [-> ->]. reflexivity.
Qed.

Lemma coordinate_of_position k :
  0 <= k < n_row * n_col ->
  in_grid n_row n_col (k / n_col, k mod n_col) /\
  posn n_col (k / n_col, k mod n_col) = k.
Proof.
  intros Hk. unfold in_grid, posn. simpl.
  pose proof (Z.mod_pos_bound k n_col Hcol).
  pose proof (Z.div_mod k n_col ltac:(lia)).
  pose proof (Z.div_pos k n_col ltac:(lia) Hcol).
  assert (k / n_col < n_row) by (apply Z.div_lt_upper_bound; lia).
  repeat split; lia.
Qed.

Lemma to_linear_posn c :
  in_grid n_row n_col c ->
  to_linear (mkGridPosition n_row n_col) c.1 c.2 = posn n_col c.
Proof.
  intros H. pose proof (posn_range c H) as R. destruct H as [Hx Hy].
  apply to_linear_exact; simpl; unfold posn in R; lia.
Qed.

Lemma same_classes_refl dt : same_classes dt dt.
Proof. repeat split; auto. Qed.

Lemma active_live dt c :
  uf_inv (active_at act n_col) dt -> Z.of_nat (length dt) = n_row * n_col ->
  in_grid n_row n_col c -> act c.1 c.2 = true -> live dt (posn n_col c).
Proof.
  intros Hinv Hlen Hc Ha. pose proof (posn_range c Hc) as R.
  destruct (vec_read_is_Some dt (posn n_col c) ltac:(lia)) as [p Hp].
  exists p. split; [exact Hp|].
  destruct (Hinv _ _ Hp) as [[_ E]|[E|(R' & _)]]; [|lia|lia].
  rewrite active_at_posn in E by exact Hc. congruence.
Qed.

Lemma find_spec g c :
  locate g = mkGridPosition n_row n_col ->
  uf_inv (active_at act n_col) (data g) ->
  in_grid n_row n_col c -> live (data g) (posn n_col c) ->
  exists g',
    find g c.1 c.2 = (root (data g) (posn n_col c), g') /\
    locate g' = locate g /\
    uf_inv (active_at act n_col) (data g') /\
    same_classes (data g) (data g').
Proof.
  intros Hloc Hinv Hc Hl. unfold find. rewrite Hloc, to_linear_posn by exact Hc.
  destruct Hl as [p [Hr Hp]]. rewrite Hr.
  destruct (Z.ltb_spec p 0); [lia|].
  eexists. split; [reflexivity|]. cbn [locate data with_data].
  destruct (compress_spec (active_at act n_col) (data g) (length (data g)) Hinv
              (posn n_col c)) as (C1 & C2 & C3 & C4).
  { exists p. split; assumption. }
  fold (root (data g) (posn n_col c)).
  split; [exact Hloc|]. split; [exact C1|].
  split; [exact C2|]. split; [exact C3|exact C4].
Qed.

Lemma find_out g c :
  locate g = mkGridPosition n_row n_col ->
  Z.of_nat (length (data g)) = n_row * n_col ->
  in_grid n_row n_col c -> ~ live (data g) (posn n_col c) ->
  find g c.1 c.2 = (sentinel, g).
Proof.
  intros Hloc Hlen Hc Hl. unfold find. rewrite Hloc, to_linear_posn by exact Hc.
  destruct (vec_read (data g) (posn n_col c)) as [p|] eqn:Hr; [|reflexivity].
  destruct (Z.ltb_spec p 0); [reflexivity|].
  contradiction Hl. exists p. split; [exact Hr|assumption].
Qed.

(** A union joins the classes of its two pixels under the smaller of their
    labels and leaves the other classes alone. *)
Lemma merge_spec g c1 c2 :
  locate g = mkGridPosition n_row n_col ->
  uf_inv (active_at act n_col) (data g) ->
  Z.of_nat (length (data g)) = n_row * n_col ->
  in_grid n_row n_col c1 -> in_grid n_row n_col c2 ->
  act c1.1 c1.2 = true -> act c2.1 c2.2 = true ->
  let g' := merge g c1.1 c1.2 c2.1 c2.2 in
  let r1 := root (data g) (posn n_col c1) in
  let r2 := root (data g) (posn n_col c2) in
  locate g' = locate g /\
  uf_inv (active_at act n_col) (data g') /\
  length (data g') = length (data g) /\
  (forall k, live (data g') k <-> live (data g) k) /\
  (forall k, live (data g) k ->
     root (data g') k =
       if (root (data g) k =? r1) || (root (data g) k =? r2)
       then Z.min r1 r2 else root (data g) k).
Proof.
  intros Hloc Hinv Hlen Hc1 Hc2 Ha1 Ha2 g' r1 r2.
  pose proof (active_live _ c1 Hinv Hlen Hc1 Ha1) as L1.
  pose proof (active_live _ c2 Hinv Hlen Hc2 Ha2) as L2.
  destruct (find_spec g c1 Hloc Hinv Hc1 L1) as (g1 & F1 & Loc1 & Inv1 & S1).
  destruct S1 as (Len1 & Live1 & Root1).
  assert (live (data g1) (posn n_col c2)) as L2' by (apply Live1; exact L2).
  destruct (find_spec g1 c2 ltac:(congruence) Inv1 Hc2 L2')
    as (g2 & F2 & Loc2 & Inv2 & S2).
  destruct S2 as (Len2 & Live2 & Root2).
  assert (forall k, live (data g) k -> root (data g2) k = root (data g) k) as Root.
  { intros k Hk. rewrite Root2 by (apply Live1; exact Hk). apply Root1, Hk. }
  assert (forall k, live (data g2) k <-> live (data g) k) as Live.
  { intros k. rewrite Live2. apply Live1. }
  rewrite (Root1 _ L2) in F2. fold r1 in F1. fold r2 in F2.
  subst g'. unfold merge. rewrite F1, F2.
  destruct (root_spec _ (data g) _ Hinv L1) as (_ & R1 & A1).
  destruct (root_spec _ (data g) _ Hinv L2) as (_ & R2 & A2).
  fold r1 in R1, A1. fold r2 in R2, A2.
  rewrite active_at_posn in A1, A2 by assumption.
  assert (active_at act n_col r1 = true) as Ar1.
  { destruct A1 as [->|[H _]]; [rewrite active_at_posn by assumption|]; assumption. }
  assert (active_at act n_col r2 = true) as Ar2.
  { destruct A2 as [->|[H _]]; [rewrite active_at_posn by assumption|]; assumption. }
  assert (vec_read (data g2) r1 = Some r1 /\ root (data g2) r1 = r1) as [V1 Rr1].
  { destruct (root_spec _ (data g2) _ Inv2 (proj2 (Live _) L1)) as (H & _).
    rewrite (Root _ L1) in H. fold r1 in H.
    split; [exact H|]. eapply root_self; eassumption. }
  assert (vec_read (data g2) r2 = Some r2 /\ root (data g2) r2 = r2) as [V2 Rr2].
  { destruct (root_spec _ (data g2) _ Inv2 (proj2 (Live _) L2)) as (H & _).
    rewrite (Root _ L2) in H. fold r2 in H.
    split; [exact H|]. eapply root_self; eassumption. }
  destruct (Z.ltb_spec r1 0); [lia|]. destruct (Z.ltb_spec r2 0); [lia|].
  cbn [orb].
  destruct (Z.ltb_spec r1 r2) as [Lt|Ge].
  - (* the class of c2 takes the label r1 *)
    destruct (write_label _ (data g2) r2 r1 Inv2) as (W1 & W2 & W3).
    { exists r2. split; [exact V2|lia]. }
    { exact V1. }
    { right. repeat split; try lia; assumption. }
    { left. exact Rr2. }
    cbn [locate data with_data]. split; [congruence|]. split; [exact W1|].
    split; [rewrite length_vec_write; congruence|].
    split; [intros k; rewrite W2; apply Live|].
    intros k Hk. rewrite (W3 k (proj2 (Live k) Hk)), Rr2, (Root k Hk).
    rewrite Z.min_l by lia.
    destruct (Z.eqb_spec (root (data g) k) r2), (Z.eqb_spec (root (data g) k) r1);
      simpl; congruence.
  - destruct (Z.ltb_spec r2 r1) as [Lt|Ge'].
    + destruct (write_label _ (data g2) r1 r2 Inv2) as (W1 & W2 & W3).
      { exists r1. split; [exact V1|lia]. }
      { exact V2. }
      { right. repeat split; try lia; assumption. }
      { left. exact Rr1. }
      cbn [locate data with_data]. split; [congruence|]. split; [exact W1|].
      split; [rewrite length_vec_write; congruence|].
      split; [intros k; rewrite W2; apply Live|].
      intros k Hk. rewrite (W3 k (proj2 (Live k) Hk)), Rr1, (Root k Hk).
      rewrite Z.min_r by lia.
      destruct (Z.eqb_spec (root (data g) k) r2), (Z.eqb_spec (root (data g) k) r1);
        simpl; congruence.
    + assert (r1 = r2) as E by lia.
      split; [congruence|]. split; [exact Inv2|]. split; [congruence|].
      split; [exact Live|].
      intros k Hk. rewrite (Root k Hk), <- E, Z.min_id, orb_diag.
      destruct (Z.eqb_spec (root (data g) k) r1); congruence.
Qed.

(** Taking a pixel that is not active out of the pass leaves the labels of
    all other cells alone. *)
Lemma invalidate_spec g c :
  locate g = mkGridPosition n_row n_col ->
  uf_inv (active_at act n_col) (data g) ->
  Z.of_nat (length (data g)) = n_row * n_col ->
  in_grid n_row n_col c -> act c.1 c.2 = false ->
  let g' := invalidate g c.1 c.2 in
  locate g' = locate g /\
  uf_inv (active_at act n_col) (data g') /\
  length (data g') = length (data g) /\
  ~ live (data g') (posn n_col c) /\
  (forall k, k <> posn n_col c -> (live (data g') k <-> live (data g) k)) /\
  (forall k, k <> posn n_col c -> live (data g) k ->
     root (data g') k = root (data g) k).
Proof.
  intros Hloc Hinv Hlen Hc Ha g'. subst g'. unfold invalidate.
  rewrite Hloc, to_linear_posn by exact Hc.
  pose proof (posn_range c Hc) as R.
  destruct (vec_read (data g) (posn n_col c)) as [p|] eqn:Hr.
  2: { destruct (vec_read_is_Some (data g) (posn n_col c) ltac:(lia)). congruence. }
  destruct (Z.ltb_spec p 0) as [Lt|Ge].
  - split; [exact Hloc|]. split; [exact Hinv|]. split; [reflexivity|].
    split; [|split; auto].
    intros [q [Hq Hq0]]. rewrite Hr in Hq. injection Hq as <-. lia.
  - destruct (write_sentinel (active_at act n_col) (data g) (posn n_col c) Hinv)
      as (W1 & W2 & W3 & W4).
    { rewrite active_at_posn by exact Hc. exact Ha. }
    { exists p. split; [exact Hr|exact Ge]. }
    cbn [locate data with_data]. split; [exact Hloc|]. split; [exact W1|].
    split; [apply length_vec_write|]. repeat split; try assumption.
    + apply W3. assumption.
    + apply W3. assumption.
Qed.

End GridOps.

(** ** The labeling pass: the scan *)

Section Scan.

Import GridSet.

Variable act : Z -> Z -> bool.
Variables n_row n_col : Z.
Hypothesis Hcol : 0 < n_col.
Hypothesis Hmax : n_row * n_col <= Int32.INT_MAX.

Lemma linked_sym c1 c2 :
  linked act n_row n_col c1 c2 -> linked act n_row n_col c2 c1.
Proof.
  unfold linked, adjacent4. intros (H1 & H2 & H3 & H4 & H5).
  repeat split; try assumption; try apply H1; try apply H2. lia.
Qed.

Lemma connected4_sym c1 c2 :
  connected4 act n_row n_col c1 c2 -> connected4 act n_row n_col c2 c1.
Proof.
  unfold connected4. induction 1 as [|a b c Hab _ IH]; [apply rtc_refl|].
  eapply rtc_r; [exact IH|]. apply linked_sym, Hab.
Qed.

Lemma connected4_trans c1 c2 c3 :
  connected4 act n_row n_col c1 c2 -> connected4 act n_row n_col c2 c3 ->
  connected4 act n_row n_col c1 c3.
Proof. unfold connected4. apply rtc_trans. Qed.

Lemma pass_inv_live visited dt c :
  pass_inv act n_row n_col visited dt ->
  in_grid n_row n_col c -> act c.1 c.2 = true -> live dt (posn n_col c).
Proof.
  intros [Hlen Huf _ _ _ _] Hc Ha.
  eapply active_live; eassumption.
Qed.

(** The union of two linked pixels keeps the invariant and gives both
    pixels one label; pixels that had one label keep having one. *)
Lemma merge_pass_inv g visited c1 c2 :
  locate g = mkGridPosition n_row n_col ->
  pass_inv act n_row n_col visited (data g) ->
  linked act n_row n_col c1 c2 ->
  let g' := merge g c1.1 c1.2 c2.1 c2.2 in
  locate g' = mkGridPosition n_row n_col /\
  pass_inv act n_row n_col visited (data g') /\
  root (data g') (posn n_col c1) = root (data g') (posn n_col c2) /\
  (forall k1 k2, live (data g) k1 -> live (data g) k2 ->
     root (data g) k1 = root (data g) k2 ->
     root (data g') k1 = root (data g') k2).
Proof.
  intros Hloc Hpi (Hc1 & Hc2 & Ha1 & Ha2 & Hadj) g'.
  pose proof Hpi as [Hlen Huf Hout Hup Hleft Hsound].
  destruct (merge_spec act n_row n_col Hcol Hmax g c1 c2 Hloc Huf Hlen Hc1 Hc2 Ha1 Ha2)
    as (M1 & M2 & M3 & M4 & M5).
  fold g' in M1, M2, M3, M4, M5.
  set (r1 := root (data g) (posn n_col c1)) in *.
  set (r2 := root (data g) (posn n_col c2)) in *.
  pose proof (pass_inv_live _ _ c1 Hpi Hc1 Ha1) as L1.
  pose proof (pass_inv_live _ _ c2 Hpi Hc2 Ha2) as L2.
  assert (forall k1 k2, live (data g) k1 -> live (data g) k2 ->
            root (data g) k1 = root (data g) k2 ->
            root (data g') k1 = root (data g') k2) as Hkeep.
  { intros k1 k2 Hk1 Hk2 E. rewrite (M5 k1 Hk1), (M5 k2 Hk2), E. reflexivity. }
  split; [congruence|]. split; [|split; [|exact Hkeep]].
  - constructor.
    + rewrite M3. exact Hlen.
    + exact M2.
    + intros c Hv Hc Ha Hl. apply M4 in Hl. eapply Hout; eassumption.
    + intros c Hv Hc Ha Hx Hau.
      assert (in_grid n_row n_col (c.1 - 1, c.2)) as Hcu
        by (unfold in_grid in *; simpl; lia).
      apply Hkeep.
      * apply (pass_inv_live _ _ _ Hpi Hcu). exact Hau.
      * apply (pass_inv_live _ _ _ Hpi Hc). exact Ha.
      * apply Hup; assumption.
    + intros c Hv Hc Ha Hy Hal.
      assert (in_grid n_row n_col (c.1, c.2 - 1)) as Hcl
        by (unfold in_grid in *; simpl; lia).
      apply Hkeep.
      * apply (pass_inv_live _ _ _ Hpi Hcl). exact Hal.
      * apply (pass_inv_live _ _ _ Hpi Hc). exact Ha.
      * apply Hleft; assumption.
    + intros a b Hca Hcb Haa Hab E.
      pose proof (pass_inv_live _ _ a Hpi Hca Haa) as La.
      pose proof (pass_inv_live _ _ b Hpi Hcb Hab) as Lb.
      rewrite (M5 _ La), (M5 _ Lb) in E.
      assert (connected4 act n_row n_col c1 c2) as C12.
      { apply rtc_once. exact (conj Hc1 (conj Hc2 (conj Ha1 (conj Ha2 Hadj)))). }
      assert (forall c, in_grid n_row n_col c -> act c.1 c.2 = true ->
                (root (data g) (posn n_col c) =? r1)
                || (root (data g) (posn n_col c) =? r2) = true ->
                connected4 act n_row n_col c c1) as Hin.
      { intros c Hc Ha H. apply orb_true_iff in H as [H|H]; apply Z.eqb_eq in H.
        - apply Hsound; assumption.
        - eapply connected4_trans; [|apply connected4_sym, C12].
          apply Hsound; assumption. }
      destruct ((root (data g) (posn n_col a) =? r1)
                || (root (data g) (posn n_col a) =? r2)) eqn:Ea;
      destruct ((root (data g) (posn n_col b) =? r1)
                || (root (data g) (posn n_col b) =? r2)) eqn:Eb.
      * eapply connected4_trans; [apply Hin; eassumption|].
        apply connected4_sym, Hin; assumption.
      * exfalso. apply orb_false_iff in Eb as [B1 B2].
        apply Z.eqb_neq in B1. apply Z.eqb_neq in B2. lia.
      * exfalso. apply orb_false_iff in Ea as [B1 B2].
        apply Z.eqb_neq in B1. apply Z.eqb_neq in B2. lia.
      * apply Hsound; assumption.
  - rewrite (M5 _ L1), (M5 _ L2). fold r1 r2.
    rewrite !Z.eqb_refl, orb_true_r. reflexivity.
Qed.

Lemma visit_inv g visited c :
  locate g = mkGridPosition n_row n_col ->
  pass_inv act n_row n_col visited (data g) ->
  in_grid n_row n_col c ->
  let g' := visit act g c in
  locate g' = mkGridPosition n_row n_col /\
  pass_inv act n_row n_col (c :: visited) (data g').
Proof.
  intros Hloc Hpi Hc g'. subst g'. unfold visit.
  destruct (act c.1 c.2) eqn:Ha.
  - (* an active pixel: unions with the upper and the left neighbour *)
    set (g1 := if (0 <? c.1) && act (c.1 - 1) c.2
               then merge g (c.1 - 1) c.2 c.1 c.2 else g).
    assert (locate g1 = mkGridPosition n_row n_col /\
            pass_inv act n_row n_col visited (data g1) /\
            (0 < c.1 -> act (c.1 - 1) c.2 = true ->
             root (data g1) (posn n_col (c.1 - 1, c.2)) = root (data g1) (posn n_col c)))
      as (Hloc1 & Hpi1 & Hup1).
    { subst g1. destruct (Z.ltb_spec 0 c.1) as [Hx|Hx]; cbn [andb].
      - destruct (act (c.1 - 1) c.2) eqn:Hau.
        + destruct (merge_pass_inv g visited (c.1 - 1, c.2) c Hloc Hpi)
            as (M1 & M2 & M3 & _).
          { unfold linked, in_grid, adjacent4 in *. simpl. repeat split; try lia; try assumption. }
          split; [exact M1|]. split; [exact M2|]. intros _ _. exact M3.
        + split; [exact Hloc|]. split; [exact Hpi|]. intros _ H. discriminate.
      - split; [exact Hloc|]. split; [exact Hpi|]. intros H. lia. }
    set (g2 := if (0 <? c.2) && act c.1 (c.2 - 1)
               then merge g1 c.1 (c.2 - 1) c.1 c.2 else g1).
    assert (locate g2 = mkGridPosition n_row n_col /\
            pass_inv act n_row n_col visited (data g2) /\
            (0 < c.1 -> act (c.1 - 1) c.2 = true ->
             root (data g2) (posn n_col (c.1 - 1, c.2)) = root (data g2) (posn n_col c)) /\
            (0 < c.2 -> act c.1 (c.2 - 1) = true ->
             root (data g2) (posn n_col (c.1, c.2 - 1)) = root (data g2) (posn n_col c)))
      as (Hloc2 & Hpi2 & Hup2 & Hleft2).
    { subst g2. destruct (Z.ltb_spec 0 c.2) as [Hy|Hy]; cbn [andb].
      - destruct (act c.1 (c.2 - 1)) eqn:Hal.
        + destruct (merge_pass_inv g1 visited (c.1, c.2 - 1) c Hloc1 Hpi1)
            as (M1 & M2 & M3 & M4).
          { unfold linked, in_grid, adjacent4 in *. simpl. repeat split; try lia; try assumption. }
          split; [exact M1|]. split; [exact M2|]. split; [|intros _ _; exact M3].
          intros Hx Hau. apply M4.
          * apply (pass_inv_live _ _ _ Hpi1); [unfold in_grid in *; simpl; lia|exact Hau].
          * apply (pass_inv_live _ _ _ Hpi1); assumption.
          * apply Hup1; assumption.
        + split; [exact Hloc1|]. split; [exact Hpi1|]. split; [exact Hup1|].
          intros _ H. discriminate.
      - split; [exact Hloc1|]. split; [exact Hpi1|]. split; [exact Hup1|].
        intros H. lia. }
    split; [exact Hloc2|].
    destruct Hpi2 as [Hlen Huf Hout Hup Hleft Hsound]. constructor; try assumption.
    + intros c' Hv Hc' Ha'. apply elem_of_cons in Hv as [->|Hv]; [congruence|].
      apply Hout; assumption.
    + intros c' Hv Hc' Ha'. apply elem_of_cons in Hv as [->|Hv]; [exact Hup2|].
      apply Hup; assumption.
    + intros c' Hv Hc' Ha'. apply elem_of_cons in Hv as [->|Hv]; [exact Hleft2|].
      apply Hleft; assumption.
  - (* a pixel that is not active is taken out *)
    pose proof Hpi as [Hlen Huf Hout Hup Hleft Hsound].
    destruct (invalidate_spec act n_row n_col Hcol Hmax g c Hloc Huf Hlen Hc Ha)
      as (I1 & I2 & I3 & I4 & I5 & I6).
    split; [congruence|].
    assert (forall c', in_grid n_row n_col c' -> act c'.1 c'.2 = true ->
              posn n_col c' <> posn n_col c) as Hne.
    { intros c' Hc' Ha' E. eapply posn_inj in E; [|eassumption..]. subst c'. congruence. }
    assert (forall c', in_grid n_row n_col c' -> act c'.1 c'.2 = true ->
              root (data (invalidate g c.1 c.2)) (posn n_col c')
              = root (data g) (posn n_col c')) as Hroot.
    { intros c' Hc' Ha'. apply I6; [apply Hne; assumption|].
      apply (pass_inv_live _ _ _ Hpi); assumption. }
    constructor.
    + rewrite I3. exact Hlen.
    + exact I2.
    + intros c' Hv Hc' Ha'. apply elem_of_cons in Hv as [->|Hv]; [exact I4|].
      destruct (decide (posn n_col c' = posn n_col c)) as [E|N].
      * rewrite E. exact I4.
      * rewrite (I5 _ N). apply Hout; assumption.
    + intros c' Hv Hc' Ha' Hx Hau.
      apply elem_of_cons in Hv as [->|Hv]; [congruence|].
      rewrite !Hroot; try assumption; [apply Hup; assumption|].
      unfold in_grid in *. simpl. lia.
    + intros c' Hv Hc' Ha' Hy Hal.
      apply elem_of_cons in Hv as [->|Hv]; [congruence|].
      rewrite !Hroot; try assumption; [apply Hleft; assumption|].
      unfold in_grid in *. simpl. lia.
    + intros a b Hca Hcb Haa Hab E. rewrite !Hroot in E by assumption.
      apply Hsound; assumption.
Qed.

Lemma scan_inv scan :
  forall g visited,
    (forall c, c ∈ scan -> in_grid n_row n_col c) ->
    locate g = mkGridPosition n_row n_col ->
    pass_inv act n_row n_col visited (data g) ->
    let g' := fold_left (visit act) scan g in
    locate g' = mkGridPosition n_row n_col /\
    pass_inv act n_row n_col (rev scan ++ visited) (data g').
Proof.
  induction scan as [|c scan IH]; intros g visited Hscan Hloc Hpi.
  - simpl. split; assumption.
  - cbn [fold_left].
    destruct (visit_inv g visited c Hloc Hpi) as [Hloc' Hpi'].
    { apply Hscan. left. }
    destruct (IH (visit act g c) (c :: visited)) as [L P]; try assumption.
    { intros c' Hc'. apply Hscan. right. exact Hc'. }
    split; [exact L|]. cbn [rev]. rewrite <- app_assoc. exact P.
Qed.

End Scan.


(** ** The labeling pass: from [init] to the end of the scan *)

Section PassResult.

Import GridSet.

Variable act : Z -> Z -> bool.
Variables n_row n_col : Z.
Hypothesis Hrow : 0 <= n_row.
Hypothesis Hcol : 0 < n_col.
Hypothesis Hmax : n_row * n_col <= Int32.INT_MAX.

Lemma vec_read_seqZ n i :
  0 <= i < n -> vec_read (seqZ 0 n) i = Some i.
Proof.
  intros H. unfold vec_read. destruct (Z.leb_spec 0 i); [|lia].
  rewrite lookup_seqZ_lt by lia. f_equal. lia.
Qed.

Lemma init_pass_inv g :
  locate g = mkGridPosition n_row n_col ->
  Z.of_nat (length (data g)) = n_row * n_col ->
  locate (init g) = mkGridPosition n_row n_col /\
  pass_inv act n_row n_col [] (data (init g)).
Proof.
  intros Hloc Hlen. split; [exact Hloc|]. unfold init. cbn [data].
  assert (forall i p, vec_read (seqZ 0 (Z.of_nat (length (data g)))) i = Some p -> p = i)
    as Hself.
  { intros i p Hr. pose proof (vec_read_Some _ _ _ Hr) as R.
    rewrite length_seqZ in R. rewrite vec_read_seqZ in Hr by lia. congruence. }
  assert (uf_inv (active_at act n_col) (seqZ 0 (Z.of_nat (length (data g))))) as Huf.
  { intros i p Hr. right. left. eapply Hself, Hr. }
  constructor.
  - rewrite length_seqZ. lia.
  - exact Huf.
  - intros c Hv. inversion Hv.
  - intros c Hv. inversion Hv.
  - intros c Hv. inversion Hv.
  - intros c1 c2 Hc1 Hc2 _ _ E.
    pose proof (posn_range n_row n_col Hcol c1 Hc1) as R1.
    pose proof (posn_range n_row n_col Hcol c2 Hc2) as R2.
    rewrite !(root_self (active_at act n_col)) in E
      by (try exact Huf; apply vec_read_seqZ; lia).
    eapply posn_inj in E; [|eassumption..]. subst c2. apply rtc_refl.
Qed.

Lemma new_GridPartitionedSet_shape :
  locate (new_GridPartitionedSet n_row n_col) = mkGridPosition n_row n_col /\
  Z.of_nat (length (data (new_GridPartitionedSet n_row n_col))) = n_row * n_col.
Proof.
  split; [reflexivity|]. unfold new_GridPartitionedSet. cbn [data].
  rewrite length_replicate. unfold Int32.mul.
  rewrite wrap32_id by (apply in_range_nonneg; nia). nia.
Qed.

(** When every pixel of the grid has been visited: the cells left in the
    pass are the active pixels, and two active pixels have one label exactly
    when they are connected. *)
Lemma pass_final visited dt :
  pass_inv act n_row n_col visited dt ->
  (forall c, in_grid n_row n_col c -> c ∈ visited) ->
  (forall k, live dt k <->
     exists c, in_grid n_row n_col c /\ act c.1 c.2 = true /\ k = posn n_col c) /\
  (forall c1 c2, in_grid n_row n_col c1 -> in_grid n_row n_col c2 ->
     act c1.1 c1.2 = true -> act c2.1 c2.2 = true ->
     (root dt (posn n_col c1) = root dt (posn n_col c2) <->
      connected4 act n_row n_col c1 c2)).
Proof.
  intros Hpi Hall. pose proof Hpi as [Hlen Huf Hout Hup Hleft Hsound]. split.
  - intros k. split.
    + intros Hk. pose proof Hk as [p [Hr _]]. apply vec_read_Some in Hr.
      destruct (coordinate_of_position n_row n_col Hcol k ltac:(lia)) as [Hc E].
      exists (k / n_col, k mod n_col). split; [exact Hc|]. split; [|congruence].
      destruct (act (k / n_col, k mod n_col).1 (k / n_col, k mod n_col).2) eqn:Ha;
        [reflexivity|].
      exfalso. eapply Hout; [apply Hall, Hc|exact Hc|exact Ha|].
      rewrite E. exact Hk.
    + intros (c & Hc & Ha & ->). eapply pass_inv_live; eassumption.
  - intros c1 c2 Hc1 Hc2 Ha1 Ha2. split; [apply Hsound; assumption|].
    intros Hconn. clear Hc2 Ha2. revert Hc1 Ha1.
    induction Hconn as [c|a b c Hab _ IH]; intros Hca Haa; [reflexivity|].
    destruct Hab as (_ & Hcb & _ & Hab & Hadj).
    rewrite <- (IH Hcb Hab).
    destruct a as [xa ya], b as [xb yb]. unfold adjacent4 in Hadj. simpl in *.
    destruct Hadj as [[Ex [Ey|Ey]]|[Ey [Ex|Ex]]]; subst.
    + (* b is the left neighbour of a *)
      symmetry. replace yb with ((yb + 1) - 1) at 1 by lia.
      apply (Hleft (xb, yb + 1)); simpl;
        [apply Hall, Hca|exact Hca|exact Haa|unfold in_grid in Hcb; simpl in Hcb; lia|].
      replace (yb + 1 - 1) with yb by lia. exact Hab.
    + (* a is the left neighbour of b *)
      replace ya with ((ya + 1) - 1) at 1 by lia.
      apply (Hleft (xb, ya + 1)); simpl;
        [apply Hall, Hcb|exact Hcb|exact Hab|unfold in_grid in Hca; simpl in Hca; lia|].
      replace (ya + 1 - 1) with ya by lia. exact Haa.
    + (* b is the upper neighbour of a *)
      symmetry. replace xb with ((xb + 1) - 1) at 1 by lia.
      apply (Hup (xb + 1, yb)); simpl;
        [apply Hall, Hca|exact Hca|exact Haa|unfold in_grid in Hcb; simpl in Hcb; lia|].
      replace (xb + 1 - 1) with xb by lia. exact Hab.
    + (* a is the upper neighbour of b *)
      replace xa with ((xa + 1) - 1) at 1 by lia.
      apply (Hup (xa + 1, yb)); simpl;
        [apply Hall, Hcb|exact Hcb|exact Hab|unfold in_grid in Hca; simpl in Hca; lia|].
      replace (xa + 1 - 1) with xa by lia. exact Haa.
Qed.

End PassResult.


(** ** The labeling pass: [close] and [next] *)

Section Buffer.

Import GridSet.

Lemma elem_of_concat {T : Type} (x : T) (ls : list (list T)) :
  x ∈ concat ls <-> exists l, l ∈ ls /\ x ∈ l.
Proof.
  induction ls as [|l ls IH]; cbn [concat].
  - split; [intros H; inversion H|intros (l & H & _); inversion H].
  - rewrite elem_of_app, IH. split.
    + intros [H|(l' & H1 & H2)]; [exists l; split; [left|exact H]|].
      exists l'. split; [right; exact H1|exact H2].
    + intros (l' & H1 & H2). apply elem_of_cons in H1 as [->|H1]; [left; exact H2|].
      right. exists l'. split; assumption.
Qed.

Lemma labelled_cells_spec dt c :
  c ∈ labelled_cells dt <-> live dt (pos c) /\ label c = root dt (pos c).
Proof.
  unfold labelled_cells. rewrite list_elem_of_omap. split.
  - intros (i & _ & Hf). destruct (vec_read dt i) as [p|] eqn:Hr; [|discriminate].
    destruct (Z.ltb_spec p 0); [discriminate|]. injection Hf as <-. simpl.
    split; [|reflexivity]. exists p. split; assumption.
  - intros [[p [Hr Hp]] Hl]. exists (pos c). split.
    + apply elem_of_seqZ. apply vec_read_Some in Hr. lia.
    + rewrite Hr. destruct (Z.ltb_spec p 0); [lia|].
      destruct c as [l k]. simpl in *. subst l. reflexivity.
Qed.

Lemma labelled_cells_NoDup dt : NoDup (map pos (labelled_cells dt)).
Proof.
  unfold labelled_cells.
  apply (sublist_NoDup _ (seqZ 0 (Z.of_nat (length dt)))); [apply NoDup_seqZ|].
  induction (seqZ 0 (Z.of_nat (length dt))) as [|i l IH]; [constructor|].
  cbn [omap list_omap]. destruct (vec_read dt i) as [p|]; [|apply sublist_cons, IH].
  destruct (p <? 0); [apply sublist_cons, IH|]. cbn [map pos]. apply sublist_skip, IH.
Qed.

Lemma label_run_prefix l cs :
  cs = label_run l cs ++ drop (length (label_run l cs)) cs.
Proof.
  induction cs as [|c cs IH]; [reflexivity|]. cbn [label_run].
  destruct (label c =? l); [|reflexivity]. cbn [length drop app]. f_equal. exact IH.
Qed.

Lemma label_run_labels l cs : Forall (fun c => label c = l) (label_run l cs).
Proof.
  induction cs as [|c cs IH]; [constructor|]. cbn [label_run].
  destruct (Z.eqb_spec (label c) l); [|constructor]. constructor; assumption.
Qed.

(** In a sorted buffer, what follows the run of a label carries larger
    labels. *)
Lemma label_run_rest l cs :
  StronglySorted label_le cs -> Forall (fun c => l <= label c) cs ->
  Forall (fun c => l < label c) (drop (length (label_run l cs)) cs).
Proof.
  induction cs as [|c cs IH]; intros Hs Hl; [constructor|].
  apply StronglySorted_inv in Hs as [Hs Hc]. apply Forall_cons in Hl as [Hlc Hl].
  cbn [label_run]. destruct (Z.eqb_spec (label c) l) as [E|N].
  - cbn [length drop]. apply IH; assumption.
  - cbn [length drop]. constructor; [lia|].
    eapply Forall_impl; [exact Hc|]. unfold label_le. intros c' H. simpl in H. lia.
Qed.

Lemma split_runs_spec fuel :
  forall cs, (length cs < fuel)%nat -> StronglySorted label_le cs ->
    concat (split_runs fuel cs) = cs /\
    Forall (fun r => r <> []) (split_runs fuel cs) /\
    (forall r c c', r ∈ split_runs fuel cs -> c ∈ r -> c' ∈ cs ->
       (c' ∈ r <-> label c' = label c)).
Proof.
  induction fuel as [|fuel IH]; intros cs Hlen Hs; [lia|].
  destruct cs as [|c0 cs].
  { simpl. split; [reflexivity|]. split; [apply Forall_nil_2|].
    intros r c c' H. inversion H. }
  cbn [split_runs]. cbv zeta.
  set (run := c0 :: label_run (label c0) cs).
  set (rest := drop (length run) (c0 :: cs)).
  pose proof Hs as Hs0. apply StronglySorted_inv in Hs0 as [Hs' Hc0].
  assert (rest = drop (length (label_run (label c0) cs)) cs) as Erest by reflexivity.
  assert (c0 :: cs = run ++ rest) as Ecs.
  { subst run. rewrite Erest. cbn [app]. f_equal. apply label_run_prefix. }
  assert (Forall (fun c => label c = label c0) run) as Hrun.
  { subst run. constructor; [reflexivity|apply label_run_labels]. }
  assert (Forall (fun c => label c0 < label c) rest) as Hrest.
  { rewrite Erest. apply label_run_rest; [exact Hs'|exact Hc0]. }
  assert (StronglySorted label_le rest) as Hsr.
  { rewrite Ecs in Hs. apply StronglySorted_app_1_r in Hs. exact Hs. }
  assert (length rest < fuel)%nat as Hlr.
  { rewrite Erest, length_drop. simpl in Hlen. lia. }
  destruct (IH rest Hlr Hsr) as (I1 & I2 & I3).
  split; [|split].
  - cbn [concat]. rewrite I1. symmetry. exact Ecs.
  - constructor; [subst run; discriminate|exact I2].
  - intros r c c' Hr Hc Hc'. apply elem_of_cons in Hr as [->|Hr].
    + rewrite Forall_forall in Hrun. rewrite (Hrun c Hc). split.
      * intros H. apply Hrun, H.
      * intros E. rewrite Ecs in Hc'. apply elem_of_app in Hc' as [H|H]; [exact H|].
        rewrite Forall_forall in Hrest. specialize (Hrest c' H). lia.
    + assert (forall x, x ∈ r -> x ∈ rest) as Hsub.
      { intros x Hx. rewrite <- I1. apply elem_of_concat. exists r. split; assumption. }
      rewrite Forall_forall in Hrest, Hrun.
      rewrite Ecs in Hc'. apply elem_of_app in Hc' as [H|H].
      * pose proof (Hrun c' H). pose proof (Hrest c (Hsub c Hc)). split.
        -- intros H'. pose proof (Hrest c' (Hsub c' H')). lia.
        -- lia.
      * apply I3; assumption.
Qed.

Lemma next_spec g :
  0 <= c_next g ->
  Z.of_nat (length (c_buffer g)) <= Int32.INT_MAX ->
  match drop (Z.to_nat (c_next g)) (c_buffer g) with
  | [] => (next g).1 = []
  | c :: cs =>
      let run := c :: label_run (label c) cs in
      (next g).1 = map pos run /\
      c_buffer (next g).2 = c_buffer g /\
      0 <= c_next (next g).2 /\
      drop (Z.to_nat (c_next (next g).2)) (c_buffer g) = drop (length run) (c :: cs)
  end.
Proof.
  intros Hn Hmaxb. unfold next.
  destruct (drop (Z.to_nat (c_next g)) (c_buffer g)) as [|c cs] eqn:Ed; [reflexivity|].
  cbv zeta. cbn [fst snd c_buffer c_next with_buffer].
  split; [reflexivity|]. split; [reflexivity|].
  set (run := c :: label_run (label c) cs).
  assert (length run <= length (c :: cs))%nat as Hle.
  { pose proof (f_equal length (label_run_prefix (label c) cs)) as E.
    rewrite length_app in E. subst run. cbn [length]. lia. }
  assert (length (c :: cs) = length (c_buffer g) - Z.to_nat (c_next g))%nat as Hld.
  { rewrite <- Ed. apply length_drop. }
  assert (Int32.add (c_next g) (Z.of_nat (length run))
          = c_next g + Z.of_nat (length run)) as ->.
  { unfold Int32.add. apply wrap32_id, in_range_nonneg.
    assert (1 <= length (c :: cs))%nat by (cbn [length]; lia). lia. }
  split; [lia|].
  rewrite <- Ed, drop_drop. f_equal. lia.
Qed.

Lemma drain_split_runs fuel :
  forall g,
    0 <= c_next g ->
    Z.of_nat (length (c_buffer g)) <= Int32.INT_MAX ->
    (drain fuel g).1 =
      map (map pos) (split_runs fuel (drop (Z.to_nat (c_next g)) (c_buffer g))).
Proof.
  induction fuel as [|fuel IH]; intros g Hn Hmaxb; [reflexivity|].
  cbn [drain split_runs]. pose proof (next_spec g Hn Hmaxb) as Hnext.
  destruct (next g) as [cl g1] eqn:En. cbn [fst snd] in Hnext.
  destruct (drop (Z.to_nat (c_next g)) (c_buffer g)) as [|c cs] eqn:Ed.
  - rewrite Hnext. reflexivity.
  - cbv zeta in Hnext. destruct Hnext as (-> & Hb & Hn1 & Hd).
    cbn [map]. specialize (IH g1 Hn1 ltac:(rewrite Hb; exact Hmaxb)).
    destruct (drain fuel g1) as [cls g2]. cbn [fst] in IH |- *.
    rewrite IH, Hb, Hd. reflexivity.
Qed.

End Buffer.


(** ** The labeling pass: the clusters *)

Section Clusters.

Import GridSet.

Variable act : Z -> Z -> bool.
Variables n_row n_col : Z.
Hypothesis Hrow : 0 <= n_row.
Hypothesis Hcol : 0 < n_col.
Hypothesis Hmax : n_row * n_col <= Int32.INT_MAX.

Variable scan : list (Z * Z).
Hypothesis Hscan : forall c, c ∈ scan <-> in_grid n_row n_col c.

Lemma labelled_cells_length dt :
  (length (labelled_cells dt) <= length dt)%nat.
Proof.
  unfold labelled_cells.
  rewrite <- (Nat2Z.id (length dt)) at 2. rewrite <- (length_seqZ 0).
  induction (seqZ 0 (Z.of_nat (length dt))) as [|i l IH]; [reflexivity|].
  cbn [omap list_omap length].
  destruct (vec_read dt i) as [p|]; [|lia]. destruct (p <? 0); cbn [length]; lia.
Qed.

(** The clusters of a pass, in terms of the labels at the end of its scan. *)
Lemma pass_clusters_from g :
  locate g = mkGridPosition n_row n_col ->
  Z.of_nat (length (data g)) = n_row * n_col ->
  let clusters := (labeling_pass_in scan act g).1 in
  exists dt,
    pass_inv act n_row n_col (rev scan) dt /\
    Forall (fun cl => cl <> []) clusters /\
    NoDup (concat clusters) /\
    (forall k, k ∈ concat clusters <-> live dt k) /\
    (forall cl k1 k2, cl ∈ clusters -> k1 ∈ cl -> live dt k2 ->
       (k2 ∈ cl <-> root dt k2 = root dt k1)).
Proof.
  intros Hloc0 Hlen0 clusters. subst clusters. unfold labeling_pass_in.
  opose proof* (init_pass_inv act n_row n_col) as [Hloc1 Hpi1];
    [try eassumption..|].
  opose proof* (scan_inv act n_row n_col) as [Hloc2 Hpi2];
    [try eassumption..|].
  { intros c H. apply Hscan, H. }
  rewrite app_nil_r in Hpi2.
  set (g2 := fold_left (visit act) scan (init g)) in *.
  set (dt := data g2) in *.
  set (cells := labelled_cells dt).
  set (buf := merge_sort label_le cells).
  assert (buf ≡ₚ cells) as Hperm by apply merge_sort_Permutation.
  assert (StronglySorted label_le buf) as Hsorted
    by (apply StronglySorted_merge_sort; apply _).
  assert (Z.of_nat (length buf) <= Int32.INT_MAX) as Hlb.
  { rewrite Hperm. pose proof (labelled_cells_length dt) as H.
    destruct Hpi2 as [Hlen _ _ _ _ _]. fold cells in H. lia. }
  assert (forall c, c ∈ buf <-> live dt (pos c) /\ label c = root dt (pos c)) as Hbuf.
  { intros c. rewrite Hperm. apply labelled_cells_spec. }
  assert (NoDup (map pos buf)) as Hnd.
  { rewrite Hperm. apply labelled_cells_NoDup. }
  unfold close. cbn [c_buffer with_buffer]. fold dt cells buf.
  rewrite drain_split_runs by (cbn [c_next c_buffer with_buffer]; try lia; exact Hlb).
  cbn [c_next c_buffer with_buffer]. change (Z.to_nat 0) with 0%nat. rewrite drop_0.
  destruct (split_runs_spec (S (length buf)) buf ltac:(lia) Hsorted) as (R1 & R2 & R3).
  set (runs := split_runs (S (length buf)) buf) in *.
  assert (concat (map (map pos) runs) = map pos buf) as Hcat.
  { rewrite <- concat_map, R1. reflexivity. }
  exists dt. split; [exact Hpi2|]. split; [|split; [|split]].
  - apply Forall_forall. intros cl Hcl. apply list_elem_of_fmap in Hcl as (run & -> & Hrun).
    rewrite Forall_forall in R2. specialize (R2 run Hrun).
    destruct run; [contradiction|discriminate].
  - rewrite Hcat. exact Hnd.
  - intros k. rewrite Hcat. rewrite list_elem_of_fmap. split.
    + intros (c & -> & Hc). apply Hbuf, Hc.
    + intros Hk. exists {| label := root dt k; pos := k |}. split; [reflexivity|].
      apply Hbuf. split; [exact Hk|reflexivity].
  - intros cl k1 k2 Hcl Hk1 Hk2.
    apply list_elem_of_fmap in Hcl as (run & -> & Hrun).
    apply list_elem_of_fmap in Hk1 as (c1 & -> & Hc1).
    assert (forall c, c ∈ run -> c ∈ buf) as Hsub.
    { intros c Hc. rewrite <- R1. apply elem_of_concat. exists run. split; assumption. }
    set (c2 := {| label := root dt k2; pos := k2 |}).
    assert (c2 ∈ buf) as Hc2 by (apply Hbuf; split; [exact Hk2|reflexivity]).
    assert (k2 ∈ map pos run <-> c2 ∈ run) as ->.
    { split.
      - intros H. apply list_elem_of_fmap in H as (c & E & Hc).
        pose proof (proj1 (Hbuf c) (Hsub c Hc)) as [_ Hl].
        replace c2 with c; [exact Hc|].
        destruct c as [l k]. simpl in *. subst. reflexivity.
      - intros H. apply list_elem_of_fmap. exists c2. split; [reflexivity|exact H]. }
    rewrite (R3 run c1 c2 Hrun Hc1 Hc2).
    pose proof (proj1 (Hbuf c1) (Hsub c1 Hc1)) as [_ ->]. reflexivity.
Qed.

Lemma pass_clusters :
  let clusters := (labeling_pass_in scan act (new_GridPartitionedSet n_row n_col)).1 in
  exists dt,
    pass_inv act n_row n_col (rev scan) dt /\
    Forall (fun cl => cl <> []) clusters /\
    NoDup (concat clusters) /\
    (forall k, k ∈ concat clusters <-> live dt k) /\
    (forall cl k1 k2, cl ∈ clusters -> k1 ∈ cl -> live dt k2 ->
       (k2 ∈ cl <-> root dt k2 = root dt k1)).
Proof.
  opose proof* (new_GridPartitionedSet_shape n_row n_col) as [Hloc0 Hlen0];
    [assumption..|].
  apply pass_clusters_from; assumption.
Qed.

End Clusters.


(** ** The labeling pass: connected components *)

Lemma NoDup_concat_member {T : Type} (ls : list (list T)) (l : list T) :
  NoDup (concat ls) -> l ∈ ls -> NoDup l.
Proof.
  induction ls as [|l0 ls IH]; intros Hnd Hl; [inversion Hl|].
  cbn [concat] in Hnd. apply NoDup_app in Hnd as (H0 & _ & Hs).
  apply elem_of_cons in Hl as [->|Hl]; [exact H0|]. apply IH; assumption.
Qed.

Lemma cluster_unique {T : Type} (ls : list (list T)) (l1 l2 : list T) (x : T) :
  NoDup (concat ls) -> l1 ∈ ls -> l2 ∈ ls -> x ∈ l1 -> x ∈ l2 -> l1 = l2.
Proof.
  induction ls as [|l0 ls IH]; intros Hnd H1 H2 X1 X2; [inversion H1|].
  cbn [concat] in Hnd. apply NoDup_app in Hnd as (H0 & Hd & Hs).
  apply elem_of_cons in H1 as [->|H1]; apply elem_of_cons in H2 as [->|H2].
  - reflexivity.
  - exfalso. apply (Hd x X1). apply elem_of_concat. exists l2. split; assumption.
  - exfalso. apply (Hd x X2). apply elem_of_concat. exists l1. split; assumption.
  - apply IH; assumption.
Qed.

Lemma NoDup_all_equal {T : Type} (l : list T) (a : T) :
  NoDup l -> l <> [] -> (forall x, x ∈ l -> x = a) -> l = [a].
Proof.
  intros Hnd Hne Hall. destruct l as [|x l]; [contradiction|].
  assert (x = a) as -> by (apply Hall; left).
  destruct l as [|y l]; [reflexivity|]. exfalso.
  assert (y = a) as -> by (apply Hall; right; left).
  apply NoDup_cons in Hnd as [Hnd _]. apply Hnd. left.
Qed.

Lemma row_major_covers (n_row n_col : Z) (c : Z * Z) :
  c ∈ GridSet.row_major n_row n_col <-> in_grid n_row n_col c.
Proof.
  unfold GridSet.row_major, in_grid. rewrite list_elem_of_bind. split.
  - intros (x & Hc & Hx). apply list_elem_of_bind in Hc as (y & Hc & Hy).
    apply list_elem_of_singleton in Hc as ->. simpl.
    apply elem_of_seqZ in Hx. apply elem_of_seqZ in Hy. lia.
  - intros [Hx Hy]. exists c.1. split; [|apply elem_of_seqZ; lia].
    apply list_elem_of_bind. exists c.2. split; [|apply elem_of_seqZ; lia].
    destruct c. apply list_elem_of_singleton. reflexivity.
Qed.

Lemma isolated_connected act n_row n_col c c' :
  isolated act n_row n_col c -> connected4 act n_row n_col c c' -> c' = c.
Proof.
  intros Hiso Hconn. apply rtc_inv in Hconn as [E|(y & Hy & _)]; [congruence|].
  exfalso. eapply Hiso, Hy.
Qed.

(** C3.  On a grid of [n_row] x [n_col] pixels whose positions fit an [int],
    and for every scan order that visits the pixels of the grid, the clusters
    that one labeling pass returns are non-empty and pairwise without common
    position, they hold exactly the positions of the active pixels, and two
    active pixels are in one cluster exactly when they are connected under
    4-connectivity.  In particular two active pixels that touch at a corner
    and have no active neighbour across an edge come out as two clusters of
    one pixel each, and an L-shaped triple of active pixels that no other
    active pixel touches across an edge comes out as one cluster of exactly
    its three pixels, the only cluster to hold any of them. *)
Theorem labeling_pass_components (act : Z -> Z -> bool) (n_row n_col : Z)
    (scan : list (Z * Z)) :
  0 <= n_row -> 0 < n_col -> n_row * n_col <= Int32.INT_MAX ->
  (forall c, c ∈ scan <-> in_grid n_row n_col c) ->
  let clusters :=
    (GridSet.labeling_pass_in scan act (GridSet.new_GridPartitionedSet n_row n_col)).1 in
  Forall (fun cl => cl <> []) clusters /\
  NoDup (concat clusters) /\
  (forall k, k ∈ concat clusters <->
     exists c, is_pixel act n_row n_col c /\ k = posn n_col c) /\
  (forall c1 c2, is_pixel act n_row n_col c1 -> is_pixel act n_row n_col c2 ->
     ((exists cl, cl ∈ clusters /\ posn n_col c1 ∈ cl /\ posn n_col c2 ∈ cl) <->
      connected4 act n_row n_col c1 c2)) /\
  (forall c1 c2, is_pixel act n_row n_col c1 -> is_pixel act n_row n_col c2 ->
     diagonal c1 c2 ->
     isolated act n_row n_col c1 -> isolated act n_row n_col c2 ->
     [posn n_col c1] ∈ clusters /\ [posn n_col c2] ∈ clusters /\
     posn n_col c1 <> posn n_col c2) /\
  (forall r c, Forall (is_pixel act n_row n_col) (l_shape r c) ->
     (forall p c', p ∈ l_shape r c -> linked act n_row n_col p c' ->
        c' ∈ l_shape r c) ->
     exists cl, cl ∈ clusters /\ cl ≡ₚ map (posn n_col) (l_shape r c) /\
       forall cl' p, cl' ∈ clusters -> p ∈ l_shape r c -> posn n_col p ∈ cl' ->
         cl' = cl).
Proof.
  intros Hrow Hcol Hmax Hscan clusters.
  destruct (pass_clusters act n_row n_col Hrow Hcol Hmax scan Hscan)
    as (dt & Hpi & Hne & Hnd & Hmem & Hcl).
  fold clusters in Hne, Hnd, Hmem, Hcl.
  opose proof* (pass_final act n_row n_col) as [Hlive Hroot]; [try eassumption..|].
  { intros c Hc. apply list_elem_of_In, in_rev. rewrite rev_involutive.
    apply list_elem_of_In, Hscan, Hc. }
  (* the cluster of a pixel *)
  assert (forall c, is_pixel act n_row n_col c ->
            exists cl, cl ∈ clusters /\ posn n_col c ∈ cl /\
              forall c', is_pixel act n_row n_col c' ->
                (posn n_col c' ∈ cl <-> connected4 act n_row n_col c c')) as Hof.
  { intros c [Hc Ha].
    assert (live dt (posn n_col c)) as Lc by (apply Hlive; exists c; auto).
    apply Hmem, elem_of_concat in Lc as Hin. destruct Hin as (cl & Hcl1 & Hcl2).
    exists cl. split; [exact Hcl1|]. split; [exact Hcl2|].
    intros c' [Hc' Ha'].
    assert (live dt (posn n_col c')) as Lc' by (apply Hlive; exists c'; auto).
    rewrite (Hcl cl _ _ Hcl1 Hcl2 Lc'), <- (Hroot c c' Hc Hc' Ha Ha').
    split; congruence. }
  assert (forall cl k, cl ∈ clusters -> k ∈ cl ->
            exists c, is_pixel act n_row n_col c /\ k = posn n_col c) as Hpix.
  { intros cl k H1 H2.
    assert (k ∈ concat clusters) as Hk by (apply elem_of_concat; exists cl; auto).
    apply Hmem, Hlive in Hk as (c & Hc & Ha & ->). exists c. split; [split|]; auto. }
  assert (forall c, is_pixel act n_row n_col c -> isolated act n_row n_col c ->
            [posn n_col c] ∈ clusters) as Hsingle.
  { intros c Hc Hiso. destruct (Hof c Hc) as (cl & Hcl1 & Hcl2 & Hcl3).
    replace [posn n_col c] with cl; [exact Hcl1|].
    apply NoDup_all_equal.
    - eapply NoDup_concat_member; eassumption.
    - intros ->. inversion Hcl2.
    - intros k Hk. destruct (Hpix cl k Hcl1 Hk) as (c' & Hc' & ->).
      f_equal. eapply isolated_connected; [exact Hiso|]. apply Hcl3; assumption. }
  split; [exact Hne|]. split; [exact Hnd|]. split; [|split; [|split]].
  - intros k. rewrite Hmem, Hlive. unfold is_pixel. split.
    + intros (c & H1 & H2 & H3). exists c. auto.
    + intros (c & [H1 H2] & H3). exists c. auto.
  - intros c1 c2 Hp1 Hp2. destruct (Hof c1 Hp1) as (cl & Hcl1 & Hcl2 & Hcl3). split.
    + intros (cl' & H1 & H2 & H3).
      assert (cl' = cl) as ->
        by (apply (cluster_unique clusters cl' cl (posn n_col c1)); assumption).
      apply Hcl3; assumption.
    + intros Hconn. exists cl. split; [exact Hcl1|]. split; [exact Hcl2|].
      apply Hcl3; assumption.
  - intros c1 c2 Hp1 Hp2 Hdiag Hi1 Hi2.
    split; [apply Hsingle; assumption|]. split; [apply Hsingle; assumption|].
    intros E. eapply posn_inj in E; [|apply Hp1|apply Hp2].
    subst c2. unfold diagonal in Hdiag. lia.
  - intros r c Hall Hclosed.
    assert (is_pixel act n_row n_col (r, c) /\ is_pixel act n_row n_col (r, c + 1)
            /\ is_pixel act n_row n_col (r + 1, c + 1)) as (P1 & P2 & P3).
    { unfold l_shape in Hall. rewrite !Forall_cons in Hall. tauto. }
    assert (linked act n_row n_col (r, c) (r, c + 1)) as L12.
    { refine (conj (proj1 P1) (conj (proj1 P2) (conj (proj2 P1) (conj (proj2 P2) _)))).
      unfold adjacent4. simpl. lia. }
    assert (linked act n_row n_col (r, c + 1) (r + 1, c + 1)) as L23.
    { refine (conj (proj1 P2) (conj (proj1 P3) (conj (proj2 P2) (conj (proj2 P3) _)))).
      unfold adjacent4. simpl. lia. }
    assert (forall p, p ∈ l_shape r c -> connected4 act n_row n_col (r, c) p) as Hreach.
    { intros p Hp. unfold l_shape in Hp. rewrite !elem_of_cons in Hp.
      destruct Hp as [->|[->|[->|Hp]]]; [apply rtc_refl|apply rtc_once, L12| |inversion Hp].
      eapply rtc_l; [exact L12|]. apply rtc_once, L23. }
    assert (forall p, connected4 act n_row n_col (r, c) p -> p ∈ l_shape r c) as Hstay.
    { apply (rtc_ind_r (fun p => p ∈ l_shape r c) (r, c)); [left|].
      intros p q _ Hq IH. eapply Hclosed; eassumption. }
    destruct (Hof (r, c) P1) as (cl & Hcl1 & Hcl2 & Hcl3).
    assert (forall k, k ∈ cl <-> k ∈ map (posn n_col) (l_shape r c)) as Hsame.
    { intros k. rewrite list_elem_of_fmap. split.
      - intros Hk. destruct (Hpix cl k Hcl1 Hk) as (c' & Hc' & ->).
        exists c'. split; [reflexivity|]. apply Hstay, Hcl3; assumption.
      - intros (p & -> & Hp). apply Hcl3; [|apply Hreach, Hp].
        rewrite Forall_forall in Hall. apply Hall, Hp. }
    exists cl. split; [exact Hcl1|]. split.
    + apply NoDup_Permutation; [eapply NoDup_concat_member; eassumption| |exact Hsame].
      assert (forall p q, is_pixel act n_row n_col p -> is_pixel act n_row n_col q ->
                p <> q -> posn n_col p <> posn n_col q) as Hneq.
      { intros p q [Hp _] [Hq _] N E. apply N. eapply posn_inj; eassumption. }
      unfold l_shape. cbn [map]. apply NoDup_cons. split.
      * rewrite !elem_of_cons. intros [E|[E|E]]; [| |inversion E];
          revert E; apply Hneq; try assumption; intros E; injection E; lia.
      * apply NoDup_cons. split; [|apply NoDup_singleton].
        rewrite list_elem_of_singleton. apply Hneq; try assumption.
        intros E; injection E; lia.
    + intros cl' p Hcl' Hp Hk. eapply cluster_unique; [exact Hnd|exact Hcl'|exact Hcl1|exact Hk|].
      apply Hsame. apply list_elem_of_fmap. exists p. split; [reflexivity|exact Hp].
Qed.

Lemma sample_isolated (c : Z * Z) :
  c = (2, 3) \/ c = (3, 2) -> isolated sample_activity 4 4 c.
Proof.
  intros Hc [x y] (_ & _ & _ & Ha & Hadj). unfold adjacent4 in Hadj. simpl in *.
  destruct Hc as [->| ->]; simpl in Hadj;
    destruct Hadj as [[Ex [Ey|Ey]]|[Ey [Ex|Ex]]];
    assert (x = x) as _ by reflexivity;
    first [ assert (x = 2) as -> by lia | assert (x = 3) as -> by lia
          | assert (x = 1) as -> by lia | assert (x = 4) as -> by lia ];
    first [ assert (y = 2) as -> by lia | assert (y = 3) as -> by lia
          | assert (y = 1) as -> by lia | assert (y = 4) as -> by lia ];
    vm_compute in Ha; discriminate.
Qed.

Lemma labeling_pass_components_witness :
  let clusters :=
    (GridSet.labeling_pass_in (GridSet.row_major 4 4) sample_activity
       (GridSet.new_GridPartitionedSet 4 4)).1 in
  NoDup (concat clusters) /\
  [posn 4 (2, 3)] ∈ clusters /\ [posn 4 (3, 2)] ∈ clusters /\
  exists cl, cl ∈ clusters /\ cl ≡ₚ map (posn 4) (l_shape 0 0).
Proof.
  intros clusters.
  destruct (labeling_pass_components sample_activity 4 4 (GridSet.row_major 4 4))
    as (_ & Hnd & _ & _ & Hdiag & Hl).
  - lia.
  - lia.
  - unfold Int32.INT_MAX. lia.
  - apply row_major_covers.
  - fold clusters in Hnd, Hdiag, Hl. split; [exact Hnd|].
    destruct (Hdiag (2, 3) (3, 2)) as (D1 & D2 & _).
    + split; [unfold in_grid; simpl; lia|reflexivity].
    + split; [unfold in_grid; simpl; lia|reflexivity].
    + unfold diagonal. simpl. lia.
    + apply sample_isolated. left. reflexivity.
    + apply sample_isolated. right. reflexivity.
    + split; [exact D1|]. split; [exact D2|].
      destruct (Hl 0 0) as (cl & Hcl & Hperm & _).
      * unfold l_shape. repeat constructor; unfold in_grid; simpl; lia.
      * intros p [x y] Hp (_ & Hc & _ & Ha & Hadj).
        unfold l_shape in Hp |- *. rewrite !elem_of_cons in Hp.
        unfold adjacent4 in Hadj. unfold in_grid in Hc. cbn [fst snd] in Hc, Hadj, Ha.
        assert ((x, y) ∈ [(0, 0); (0, 1); (1, 1); (2, 3); (3, 2)]) as Hin
          by (apply bool_decide_eq_true in Ha; exact Ha).
        rewrite !elem_of_cons in Hin. rewrite !elem_of_cons.
        destruct Hin as [E|[E|[E|[E|[E|E]]]]]; try (inversion E; fail);
          injection E as -> ->; try tauto;
          destruct Hp as [->|[->|[->|Hp]]]; try (inversion Hp; fail);
          cbn [fst snd] in Hadj; lia.
      * exists cl. split; assumption.
Defined.


(** ** The cluster heap: members of an item *)

Section RefsTo.

Implicit Types (rt : gmap Z Z) (p id : Z).







End RefsTo.

(** ** The cluster heap: what the operations keep *)

Section HeapInv.

Import Heap.



Lemma size_nonneg skip h id item :
  heap_inv_but skip h -> cluster_table h !! id = Some item -> 0 <= size item.
Proof. intros [_ _ Hsize _ _ _] H. rewrite (Hsize id item H). lia. Qed.

(** *** SetupPixel *)


End HeapInv.


(** ** The cluster heap: PopClusters and register *)

Section HeapPop.

Import Heap.





(** *** register *)



End HeapPop.


(** ** The cluster heap: merging *)

Section HeapMerge.

Import Heap.













End HeapMerge.


(** ** The cluster heap: every run *)

Section HeapRuns.

Import Heap.






End HeapRuns.



(** ** The cluster heap: a cluster seen at two ticks *)

Section Reconcile.

Import Heap.

















End Reconcile.




(** ** The sensor without charge *)

Section IdlePass.

Import GridSet.

Variable act : Z -> Z -> bool.
Hypothesis Hact : forall x y, act x y = false.





End IdlePass.


(** ** The sensor after Reset *)

Section IdleSensor.

Import Sensor.

Variable processCluster : list Z -> list Z.
Variable encode : string -> Z -> Z -> Z -> Z -> Z -> Z.

Lemma vec_read_elem {A : Type} (v : list A) i a : vec_read v i = Some a -> a ∈ v.
Proof.
  unfold vec_read. destruct (0 <=? i); [|discriminate].
  apply list_elem_of_lookup_2.
Qed.















End IdleSensor.




(** The temporal reconciliation on the sensor of the 2 x 2 ladder (threshold
    200, slope 50, clock period 1): the pixel P = (0, 0) receives 100 at
    tick 0 and 200 at tick 1, its neighbour Q = (0, 1) receives 260 at
    tick 0.  When hits are built, Q holds 210 and P 50 at tick 0, P holds 200
    and Q 160 at tick 1.  No hit is emitted while a pixel holds charge; the
    tick that finds both pixels empty emits one hit, which has the time of
    tick 0 and the charge of both pixels. *)
Lemma sensor_reconciles :
  let tick := Sensor.tick (fun c => c) (fun _ _ _ _ _ _ => 0) in
  let s0 := Sensor.on_base (fun m => UpdatePixel (UpdatePixel m 0 0 100) 0 1 260)
              sensor_2x2 in
  let s1 := Sensor.on_base (fun m => UpdatePixel m 0 0 200) (tick s0).2 in
  (tick s0).1 = [] /\ (tick s1).1 = [] /\
  exists hit,
    Sensor.run_ticks (fun c => c) (fun _ _ _ _ _ _ => 0) 6 (tick s1).2
    = [[]; []; []; [hit]; []; []] /\
    hit_time hit = clock_time (Sensor.base (tick s0).2) /\
    hit_charge hit = 410%Q.
Proof.
  vm_compute. split; [reflexivity|]. split; [reflexivity|].
  eexists. split; [reflexivity|]. split; reflexivity.
Qed.


(** * Properties of more of the sources *)

(** ** Conversions to [int] *)



Lemma Qtrunc_small q : (- (1) < q)%Q -> (q < 1)%Q -> Qtrunc q = 0.
Proof.
  destruct q as [n d]. unfold Qlt, Qtrunc. simpl. intros H1 H2.
  apply Z.quot_small_iff; lia.
Qed.

(** A coordinate less than one pitch away from the low edge, on either
    side, is given the index 0: the conversion to [int] truncates toward
    zero. *)
Lemma int_of_quotient_edge a p :
  (0 < p)%Q -> (- p < a)%Q -> (a < p)%Q -> int_of_quotient a p = Some 0.
Proof.
  intros Hp H1 H2.
  assert (~ p == 0)%Q as Hp0 by (intros E; rewrite E in Hp; discriminate).
  unfold int_of_quotient.
  assert (Qeq_bool p 0 = false) as -> by (apply Qeq_bool_false; exact Hp0).
  unfold int_of_double. rewrite Qtrunc_small; [reflexivity| |].
  - apply Qlt_shift_div_l; [exact Hp|]. lra.
  - apply Qlt_shift_div_r; [exact Hp|]. lra.
Qed.

Lemma ceil_to_int_Some a p n :
  Steps.ceil_to_int a p = Some n ->
  ~ (p == 0)%Q /\ n = Qceiling (a / p) /\ Int32.in_range n.
Proof.
  unfold Steps.ceil_to_int. destruct (Qeq_bool p 0) eqn:E; [discriminate|].
  intros H. split; [apply Qeq_bool_false, E|].
  split; [|eapply int_of_double_range, H].
  unfold int_of_double in H.
  assert (Qtrunc (inject_Z (Qceiling (a / p))) = Qceiling (a / p)) as Et.
  { unfold Qtrunc, inject_Z. simpl. apply Z.quot_1_r. }
  rewrite Et in H.
  destruct ((Int32.INT_MIN <=? Qceiling (a / p)) && (Qceiling (a / p) <=? Int32.INT_MAX));
    [|discriminate].
  congruence.
Qed.

Lemma ceil_to_int_defined a p :
  (0 < p)%Q -> (0 <= a)%Q -> (a / p <= inject_Z Int32.INT_MAX)%Q ->
  exists n, Steps.ceil_to_int a p = Some n /\ n = Qceiling (a / p) /\
            0 <= n <= Int32.INT_MAX.
Proof.
  intros Hp Ha Hmax.
  assert (~ p == 0)%Q as Hp0 by (intros E; rewrite E in Hp; discriminate).
  assert (0 <= a / p)%Q as Hq.
  { apply Qle_shift_div_l; [exact Hp|]. rewrite Qmult_0_l. exact Ha. }
  assert (0 <= Qceiling (a / p) <= Int32.INT_MAX) as Hr.
  { split.
    - change 0 with (Qceiling 0). apply Qceiling_resp_le, Hq.
    - rewrite <- (Qceiling_Z Int32.INT_MAX). apply Qceiling_resp_le, Hmax. }
  exists (Qceiling (a / p)). split; [|split; [reflexivity|exact Hr]].
  unfold Steps.ceil_to_int.
  assert (Qeq_bool p 0 = false) as -> by (apply Qeq_bool_false; exact Hp0).
  unfold int_of_double.
  assert (Qtrunc (inject_Z (Qceiling (a / p))) = Qceiling (a / p)) as ->.
  { unfold Qtrunc, inject_Z. simpl. apply Z.quot_1_r. }
  destruct (Z.leb_spec Int32.INT_MIN (Qceiling (a / p)));
    [|unfold Int32.INT_MIN in *; lia].
  destruct (Z.leb_spec (Qceiling (a / p)) Int32.INT_MAX); [|lia].
  reflexivity.
Qed.

(** ** MuonCVXDDigitiser: pixel indices and local coordinates *)

Section CellID.

Import Digitiser.

Variable d : MuonCVXDDigitiser.
Variables len hw : Q.
Hypothesis Hlen : vec_read (_layerLadderLength d) (_currentLayer d) = Some len.
Hypothesis Hhw : vec_read (_layerLadderHalfWidth d) (_currentLayer d) = Some hw.

Lemma TransformXYToCellID_eq x y :
  TransformXYToCellID d x y =
    iy ← int_of_quotient (y + len / 2)%Q (_pixelSizeY d);
    ix ← int_of_quotient (x + hw)%Q (_pixelSizeX d);
    Some (ix, iy).
Proof. unfold TransformXYToCellID. rewrite Hlen, Hhw. reflexivity. Qed.

Lemma TransformCellIDToXY_eq ix iy :
  TransformCellIDToXY d ix iy =
    Some ((((1 # 2) + double_of_int ix) * _pixelSizeX d - hw)%Q,
          (((1 # 2) + double_of_int iy) * _pixelSizeY d - len / 2)%Q).
Proof. unfold TransformCellIDToXY. rewrite Hlen, Hhw. reflexivity. Qed.


End CellID.

(** X1.  With positive pixel sizes and a valid current layer, the centre
    that [TransformCellIDToXY] gives for a pixel with non-negative indices
    is converted back to the indices of that pixel by
    [TransformXYToCellID]. *)
Theorem TransformCellID_round_trip (d : Digitiser.MuonCVXDDigitiser) (ix iy : Z) :
  (0 < Digitiser._pixelSizeX d)%Q -> (0 < Digitiser._pixelSizeY d)%Q ->
  is_Some (vec_read (Digitiser._layerLadderLength d) (Digitiser._currentLayer d)) ->
  is_Some (vec_read (Digitiser._layerLadderHalfWidth d) (Digitiser._currentLayer d)) ->
  0 <= ix <= Int32.INT_MAX -> 0 <= iy <= Int32.INT_MAX ->
  exists x y,
    Digitiser.TransformCellIDToXY d ix iy = Some (x, y) /\
    Digitiser.TransformXYToCellID d x y = Some (ix, iy).
Proof.
  intros Hpx Hpy [len Hlen] [hw Hhw] Hix Hiy.
  eexists _, _. split; [apply (TransformCellIDToXY_eq d len hw Hlen Hhw)|].
  rewrite (TransformXYToCellID_eq d len hw Hlen Hhw).
  rewrite (bin_centre (len / 2) _ iy Hpy Hiy). simpl.
  rewrite (bin_centre hw _ ix Hpx Hix). reflexivity.
Qed.

Lemma TransformCellID_round_trip_witness :
  let d := Digitiser.mkMuonCVXDDigitiser (8 # 10) 0 (25 # 1000) (25 # 1000)
             (2703 # 10) 200 0 [(25 # 1000)%Q] [125%Q] [(64 # 10)%Q] (1 # 1000000) in
  exists x y,
    Digitiser.TransformCellIDToXY d 17 4999 = Some (x, y) /\
    Digitiser.TransformXYToCellID d x y = Some (17, 4999).
Proof.
  intros d. apply (TransformCellID_round_trip d 17 4999).
  - reflexivity.
  - reflexivity.
  - vm_compute. eauto.
  - vm_compute. eauto.
  - vm_compute. split; discriminate.
  - vm_compute. split; discriminate.
Defined.



(** X3.  The conversion to [int] truncates toward zero: with positive pixel
    sizes, every coordinate pair less than one pixel away from the low
    edges of the ladder, inside or outside, is given the indices (0, 0), so
    that the test [ix < 0] of [ProduceHits] does not see a point that lies
    up to one pixel outside the ladder. *)
Theorem TransformXYToCellID_low_edge (d : Digitiser.MuonCVXDDigitiser) (x y len hw : Q) :
  (0 < Digitiser._pixelSizeX d)%Q -> (0 < Digitiser._pixelSizeY d)%Q ->
  vec_read (Digitiser._layerLadderLength d) (Digitiser._currentLayer d) = Some len ->
  vec_read (Digitiser._layerLadderHalfWidth d) (Digitiser._currentLayer d) = Some hw ->
  (- hw - Digitiser._pixelSizeX d < x)%Q -> (x < - hw + Digitiser._pixelSizeX d)%Q ->
  (- (len / 2) - Digitiser._pixelSizeY d < y)%Q ->
  (y < - (len / 2) + Digitiser._pixelSizeY d)%Q ->
  Digitiser.TransformXYToCellID d x y = Some (0, 0).
Proof.
  intros Hpx Hpy Hlen Hhw Hx1 Hx2 Hy1 Hy2.
  rewrite (TransformXYToCellID_eq d len hw Hlen Hhw).
  rewrite (int_of_quotient_edge (y + len / 2) _ Hpy) by lra. simpl.
  rewrite (int_of_quotient_edge (x + hw) _ Hpx) by lra. reflexivity.
Qed.

Lemma TransformXYToCellID_low_edge_witness :
  let d := Digitiser.mkMuonCVXDDigitiser (8 # 10) 0 (25 # 1000) (25 # 1000)
             (2703 # 10) 200 0 [(25 # 1000)%Q] [125%Q] [(64 # 10)%Q] (1 # 1000000) in
  Digitiser.TransformXYToCellID d (- (641 # 100)) (- (6251 # 100)) = Some (0, 0).
Proof.
  intros d.
  apply (TransformXYToCellID_low_edge d (- (641 # 100)) (- (6251 # 100)) 125 (64 # 10));
    try reflexivity; vm_compute; reflexivity.
Defined.




(** ** PixelDigiMatrix.h: rows, columns and coordinates *)

(** X5.  With positive pixel sizes, the coordinate that [PixelRowToX]
    gives for a row index from 0 to [INT_MAX] is converted back to that
    index by [XToPixelRow], and likewise for [PixelColToY] and
    [YToPixelCol]. *)
Theorem pixel_index_round_trip (m : PixelDigiMatrix) (ix iy : Z) :
  (0 < _pixelSizeX m)%Q -> (0 < _pixelSizeY m)%Q ->
  0 <= ix <= Int32.INT_MAX -> 0 <= iy <= Int32.INT_MAX ->
  XToPixelRow m (PixelRowToX m ix) = Some ix /\
  YToPixelCol m (PixelColToY m iy) = Some iy.
Proof.
  intros Hpx Hpy Hix Hiy. unfold XToPixelRow, PixelRowToX, YToPixelCol, PixelColToY.
  split; apply bin_centre; assumption.
Qed.

Lemma pixel_index_round_trip_witness :
  XToPixelRow matrix_2x2 (PixelRowToX matrix_2x2 1) = Some 1 /\
  YToPixelCol matrix_2x2 (PixelColToY matrix_2x2 0) = Some 0.
Proof.
  apply pixel_index_round_trip; vm_compute; try reflexivity; split; discriminate.
Defined.



(** ** PixelDigiMatrix.h: the pixel store and the segments *)

Lemma row_major_exact n x y :
  0 <= x -> 0 <= y < n -> x * n + y <= Int32.INT_MAX ->
  Int32.add (Int32.mul x n) y = x * n + y.
Proof.
  intros Hx Hy Hmax. unfold Int32.add, Int32.mul.
  assert (0 <= x * n) by nia.
  rewrite (wrap32_id (x * n)) by (apply in_range_nonneg; lia).
  apply wrap32_id, in_range_nonneg. lia.
Qed.

Lemma row_major_inj n x y x' y' :
  0 <= y < n -> 0 <= y' < n -> x * n + y = x' * n + y' -> x = x' /\ y = y'.
Proof. intros Hy Hy' E. assert (x = x') by nia. subst. lia. Qed.

(** X7.  For a matrix of at most [INT_MAX] pixels, [index] numbers the
    pixels with [0 <= x < l_rows] and [0 <= y < l_columns] within
    [0, l_rows * l_columns) and gives two different pixels two different
    numbers. *)
Theorem index_in_bounds_injective (m : PixelDigiMatrix) (x y x' y' : Z) :
  l_rows m * l_columns m <= Int32.INT_MAX ->
  0 <= x < l_rows m -> 0 <= y < l_columns m ->
  0 <= x' < l_rows m -> 0 <= y' < l_columns m ->
  0 <= index m x y < l_rows m * l_columns m /\
  (index m x y = index m x' y' -> x = x' /\ y = y').
Proof.
  intros Hmax Hx Hy Hx' Hy'. unfold index.
  rewrite (row_major_exact (l_columns m) x y) by nia.
  rewrite (row_major_exact (l_columns m) x' y') by nia.
  split; [nia|]. apply row_major_inj; assumption.
Qed.

Lemma index_in_bounds_injective_witness :
  0 <= index matrix_2x2 1 0 < l_rows matrix_2x2 * l_columns matrix_2x2 /\
  (index matrix_2x2 1 0 = index matrix_2x2 0 1 -> 1 = 0 /\ 0 = 1).
Proof.
  apply index_in_bounds_injective; vm_compute; try split; congruence.
Defined.

(** X8.  When [s_rows > 0] rows of [x_segnum] segments make at most [INT_MAX]
    ladder rows, [SensorRowToLadderRow] maps the positions
    [0 <= pos_x < s_rows] of the segments [0 <= seg_x < x_segnum] one to one
    onto the ladder rows [0 .. x_segnum * s_rows - 1]: the segment and the
    position are the quotient and the remainder of the ladder row.
    Likewise for [SensorColToLadderCol]. *)
Theorem segments_tile_ladder (m : PixelDigiMatrix) :
  0 < s_rows m -> 0 < s_colums m ->
  x_segnum m * s_rows m <= Int32.INT_MAX ->
  y_segnum m * s_colums m <= Int32.INT_MAX ->
  (forall seg_x pos_x, 0 <= seg_x < x_segnum m -> 0 <= pos_x < s_rows m ->
     let r := SensorRowToLadderRow m seg_x pos_x in
     0 <= r < x_segnum m * s_rows m /\ r / s_rows m = seg_x /\ r mod s_rows m = pos_x) /\
  (forall r, 0 <= r < x_segnum m * s_rows m ->
     0 <= r / s_rows m < x_segnum m /\ 0 <= r mod s_rows m < s_rows m /\
     SensorRowToLadderRow m (r / s_rows m) (r mod s_rows m) = r) /\
  (forall seg_y pos_y, 0 <= seg_y < y_segnum m -> 0 <= pos_y < s_colums m ->
     let c := SensorColToLadderCol m seg_y pos_y in
     0 <= c < y_segnum m * s_colums m /\ c / s_colums m = seg_y /\
     c mod s_colums m = pos_y) /\
  (forall c, 0 <= c < y_segnum m * s_colums m ->
     0 <= c / s_colums m < y_segnum m /\ 0 <= c mod s_colums m < s_colums m /\
     SensorColToLadderCol m (c / s_colums m) (c mod s_colums m) = c).
Proof.
  intros Hsr Hsc Hx Hy.
  assert (forall n k seg pos, n * k <= Int32.INT_MAX -> 0 <= seg < n -> 0 <= pos < k ->
            let r := Int32.add (Int32.mul seg k) pos in
            0 <= r < n * k /\ r / k = seg /\ r mod k = pos) as Hfwd.
  { intros n k seg pos Hmax Hseg Hpos r. subst r.
    assert ((seg + 1) * k <= n * k) as Hle by (apply Z.mul_le_mono_nonneg_r; lia).
    assert (0 <= seg * k) by (apply Z.mul_nonneg_nonneg; lia).
    rewrite (row_major_exact k seg pos) by lia.
    split; [lia|]. split.
    - symmetry. apply (Z.div_unique _ _ seg pos); lia.
    - symmetry. apply (Z.mod_unique _ _ seg pos); lia. }
  assert (forall n k r, 0 < k -> n * k <= Int32.INT_MAX -> 0 <= r < n * k ->
            0 <= r / k < n /\ 0 <= r mod k < k /\
            Int32.add (Int32.mul (r / k) k) (r mod k) = r) as Hbwd.
  { intros n k r Hk Hmax Hr.
    pose proof (Z.div_mod r k ltac:(lia)) as E.
    pose proof (Z.mod_pos_bound r k Hk) as Hm.
    pose proof (Z.div_pos r k ltac:(lia) Hk) as Hd.
    assert (r / k < n) by (apply Z.div_lt_upper_bound; nia).
    split; [lia|]. split; [lia|].
    rewrite (row_major_exact k (r / k) (r mod k)); lia. }
  split; [|split; [|split]].
  - intros seg_x pos_x. apply Hfwd, Hx.
  - intros r. apply Hbwd; assumption.
  - intros seg_y pos_y. apply Hfwd, Hy.
  - intros c. apply Hbwd; assumption.
Qed.

Lemma segments_tile_ladder_witness :
  SensorRowToLadderRow matrix_2x2 0 1 / s_rows matrix_2x2 = 0 /\
  SensorRowToLadderRow matrix_2x2 (1 / s_rows matrix_2x2) (1 mod s_rows matrix_2x2) = 1.
Proof.
  destruct (segments_tile_ladder matrix_2x2) as (F & B & _).
  - reflexivity.
  - reflexivity.
  - vm_compute. discriminate.
  - vm_compute. discriminate.
  - split.
    + apply (F 0 1); vm_compute; split; congruence.
    + apply (B 1). vm_compute. split; congruence.
Defined.

(** ** GridPosition: every linear position *)

(** X9.  On a grid with a positive number of columns, decoding any linear
    position of type [int], negative ones too, and encoding the coordinate
    again gives the position back; the column of a non-negative position is
    in [0, cols), the column of a negative position is in (-cols, 0], as the
    quotient of C++ truncates toward zero. *)
Theorem GridPosition_decode_encode (g : GridPosition) (pos : Z) :
  0 < b_size g -> Int32.in_range (b_size g) -> Int32.in_range pos ->
  exists rc,
    to_coordinate g pos = Some rc /\
    to_linear g (row rc) (col rc) = pos /\
    (0 <= pos -> 0 <= row rc /\ 0 <= col rc < b_size g) /\
    (pos <= 0 -> row rc <= 0 /\ - b_size g < col rc <= 0).
Proof.
  intros Hb Rb Rp. unfold to_coordinate.
  destruct (Z.eqb_spec (b_size g) 0) as [E|_]; [lia|].
  eexists. split; [reflexivity|]. cbn [row col].
  pose proof (Z.quot_rem' pos (b_size g)) as Eqr.
  pose proof (rem_between pos (b_size g) Hb) as [Rpos Rneg].
  assert (0 <= pos -> 0 <= Z.quot pos (b_size g) <= pos) as Qpos.
  { intros Hp. pose proof (Rpos Hp) as R.
    pose proof (Z.quot_pos pos (b_size g) Hp Hb) as Q0.
    split; [exact Q0|].
    pose proof (Z.mul_le_mono_nonneg_r 1 (b_size g) (Z.quot pos (b_size g))
                  Q0 ltac:(lia)). lia. }
  assert (pos <= 0 -> pos <= Z.quot pos (b_size g) <= 0) as Qneg.
  { intros Hp. assert (Z.quot pos (b_size g) <= 0).
    { rewrite <- (Z.opp_involutive pos), Z.quot_opp_l by lia.
      pose proof (Z.quot_pos (- pos) (b_size g) ltac:(lia) ltac:(lia)). lia. }
    split; [|assumption]. pose proof (Rneg Hp) as R.
    pose proof (Z.mul_le_mono_nonpos_r 1 (b_size g) (Z.quot pos (b_size g))
                  ltac:(lia) ltac:(lia)). lia. }
  assert (0 <= pos -> Z.rem pos (b_size g) < b_size g) as Rlt.
  { intros Hp. apply Z.rem_bound_pos; lia. }
  assert (pos <= 0 -> - b_size g < Z.rem pos (b_size g)) as Rgt.
  { intros Hp. pose proof (Z.rem_bound_abs pos (b_size g) ltac:(lia)) as H.
    pose proof (Rneg Hp). lia. }
  unfold Int32.in_range, Int32.INT_MIN, Int32.INT_MAX in Rp, Rb.
  assert (Int32.div pos (b_size g) = Z.quot pos (b_size g)) as Ed.
  { unfold Int32.div. apply wrap32_id.
    unfold Int32.in_range, Int32.INT_MIN, Int32.INT_MAX.
    destruct (Z.le_gt_cases 0 pos); [specialize (Qpos ltac:(lia))|specialize (Qneg ltac:(lia))];
      lia. }
  assert (Int32.rem pos (b_size g) = Z.rem pos (b_size g)) as Er.
  { unfold Int32.rem. apply wrap32_id.
    unfold Int32.in_range, Int32.INT_MIN, Int32.INT_MAX.
    destruct (Z.le_gt_cases 0 pos); [specialize (Rpos ltac:(lia))|specialize (Rneg ltac:(lia))];
      lia. }
  rewrite Ed, Er. split; [|split].
  - unfold to_linear, Int32.mul, Int32.add.
    assert (Int32.in_range (Z.quot pos (b_size g) * b_size g)) as Rm.
    { unfold Int32.in_range, Int32.INT_MIN, Int32.INT_MAX.
      destruct (Z.le_gt_cases 0 pos) as [Hp|Hp].
      - specialize (Qpos Hp). specialize (Rpos Hp). lia.
      - specialize (Qneg ltac:(lia)). specialize (Rneg ltac:(lia)). lia. }
    rewrite (wrap32_id _ Rm).
    rewrite wrap32_id by (unfold Int32.in_range, Int32.INT_MIN, Int32.INT_MAX; lia).
    lia.
  - intros Hp. specialize (Qpos Hp). specialize (Rpos Hp). specialize (Rlt Hp). lia.
  - intros Hp. specialize (Qneg Hp). specialize (Rneg Hp). specialize (Rgt Hp). lia.
Qed.

Lemma GridPosition_decode_encode_witness :
  exists rc,
    to_coordinate (mkGridPosition 3 4) (-7) = Some rc /\
    to_linear (mkGridPosition 3 4) (row rc) (col rc) = -7 /\
    (0 <= -7 -> 0 <= row rc /\ 0 <= col rc < b_size (mkGridPosition 3 4)) /\
    (-7 <= 0 -> row rc <= 0 /\ - b_size (mkGridPosition 3 4) < col rc <= 0).
Proof.
  apply GridPosition_decode_encode; vm_compute; try split; congruence.
Defined.

(** ** HKBaseSensor.h: the comparison of the cluster buffer *)

(** X10.  [CmpClusterData] is a strict weak ordering, as [std::sort] asks of
    its comparison: no entry is before itself, the comparison is
    transitive, and being neither before nor after is transitive and means
    carrying the same label, whatever the positions are. *)
Theorem CmpClusterData_strict_weak (c1 c2 c3 : GridSet.ClusterData) :
  CmpClusterData c1 c1 = false /\
  (CmpClusterData c1 c2 = true -> CmpClusterData c2 c3 = true ->
   CmpClusterData c1 c3 = true) /\
  (CmpClusterData c1 c2 = false /\ CmpClusterData c2 c1 = false <->
   GridSet.label c1 = GridSet.label c2) /\
  (CmpClusterData c1 c2 = false -> CmpClusterData c2 c1 = false ->
   CmpClusterData c2 c3 = false -> CmpClusterData c3 c2 = false ->
   CmpClusterData c1 c3 = false /\ CmpClusterData c3 c1 = false).
Proof.
  unfold CmpClusterData. rewrite Z.ltb_irrefl.
  rewrite ?Z.ltb_lt, ?Z.ltb_ge. repeat split; lia.
Qed.

Lemma CmpClusterData_strict_weak_witness :
  CmpClusterData (GridSet.mkClusterData 1 5) (GridSet.mkClusterData 3 2) = true.
Proof.
  destruct (CmpClusterData_strict_weak (GridSet.mkClusterData 1 5)
              (GridSet.mkClusterData 2 7) (GridSet.mkClusterData 3 2)) as (_ & T & _).
  apply T; reflexivity.
Defined.


(** ** ReconstructTrackerHit: what the result depends on *)

Section RecoFacts.

Import Digitiser.

Variable d : MuonCVXDDigitiser.

(** The loop over the pixels above threshold alone gives the same sums. *)
Lemma reco_fold_above v : forall a,
  fold_left (reco_step d) v a = fold_left (reco_step d) (above_threshold d v) a.
Proof.
  induction v as [|hit v IH]; intros a; [reflexivity|].
  rewrite above_threshold_cons. cbn [fold_left].
  destruct (Qle_bool (getEDep hit) (_threshold d)) eqn:E.
  - unfold reco_step at 2. rewrite E. apply IH.
  - cbn [fold_left]. apply IH.
Qed.

Lemma reco_loop_all v :
  Z.of_nat (length v) <= Int32.INT_MAX ->
  reco_loop d v =
    fold_left (reco_step d) v {| pos0 := 0; pos1 := 0; r_charge := 0; size := 0 |}.
Proof.
  intros Hlen. unfold reco_loop.
  rewrite wrap32_id by (apply in_range_nonneg; lia).
  rewrite Nat2Z.id, firstn_all. reflexivity.
Qed.


Lemma above_threshold_idem v :
  above_threshold d (above_threshold d v) = above_threshold d v.
Proof.
  induction v as [|hit v IH]; [reflexivity|].
  rewrite above_threshold_cons.
  destruct (Qle_bool (getEDep hit) (_threshold d)) eqn:E; [exact IH|].
  rewrite above_threshold_cons, E, IH. reflexivity.
Qed.



End RecoFacts.

(** X11.  [ReconstructTrackerHit] does not look at the pixels at or below
    the threshold: two inputs of at most [INT_MAX] pixels with the same
    pixels strictly above threshold, in the same order, give the same
    result; so the result for an input is the result for its pixels above
    threshold alone. *)
Theorem ReconstructTrackerHit_above_only (d : Digitiser.MuonCVXDDigitiser)
    (v v' : list Digitiser.SimTrackerHit) :
  Z.of_nat (length v) <= Int32.INT_MAX -> Z.of_nat (length v') <= Int32.INT_MAX ->
  above_threshold d v = above_threshold d v' ->
  Digitiser.ReconstructTrackerHit d v = Digitiser.ReconstructTrackerHit d v' /\
  Digitiser.ReconstructTrackerHit d v
  = Digitiser.ReconstructTrackerHit d (above_threshold d v).
Proof.
  intros Hv Hv' E.
  assert (forall u u', Z.of_nat (length u) <= Int32.INT_MAX ->
            Z.of_nat (length u') <= Int32.INT_MAX ->
            above_threshold d u = above_threshold d u' ->
            Digitiser.ReconstructTrackerHit d u = Digitiser.ReconstructTrackerHit d u')
    as G.
  { intros u u' Hu Hu' Eu. unfold Digitiser.ReconstructTrackerHit.
    rewrite (reco_loop_all d u Hu), (reco_loop_all d u' Hu').
    rewrite (reco_fold_above d u), (reco_fold_above d u'), Eu. reflexivity. }
  split; [apply G; assumption|].
  apply G; [exact Hv| |symmetry; apply above_threshold_idem].
  pose proof (length_above_threshold d v). lia.
Qed.

Lemma ReconstructTrackerHit_above_only_witness :
  let d := Digitiser.mkMuonCVXDDigitiser (8 # 10) 0 (25 # 1000) (25 # 1000)
             (2703 # 10) 200 0 [(25 # 1000)%Q] [125%Q] [(64 # 10)%Q] (1 # 1000000) in
  let a := Digitiser.mkSimTrackerHit 500 (1, 2, 0)%Q in
  let b := Digitiser.mkSimTrackerHit 200 (7, 7, 0)%Q in
  Digitiser.ReconstructTrackerHit d [b; a; b] = Digitiser.ReconstructTrackerHit d [a].
Proof.
  intros d a b.
  apply (ReconstructTrackerHit_above_only d [b; a; b] [a]).
  - vm_compute. discriminate.
  - vm_compute. discriminate.
  - reflexivity.
Defined.













(** ** randomTail: the range of the sampled charge *)




(** ** ProduceSignalPoints *)

Lemma Qsum_scaled (f : Steps.IonisationPoint -> Q) (k e : Q)
    (l : list Steps.IonisationPoint) :
  (Qsum (map (fun p => f p / k * e) l) == Qsum (map f l) / k * e)%Q.
Proof.
  induction l as [|p l IH]; cbn [map Qsum foldr].
  - unfold Qdiv. ring.
  - fold (Qsum (map (fun p => f p / k * e)%Q l)) (Qsum (map f l)).
    rewrite IH. unfold Qdiv. ring.
Qed.

(** The signal points are the images of the first ionisation points. *)
Lemma ProduceSignalPoints_eq (sqrt : Q -> Q) (s : Steps.DigitiserState) (ht : Q) :
  0 <= Steps._numberOfSegments s <= Z.of_nat (length (Steps._ionisationPoints s)) ->
  vec_read (Digitiser._layerHalfThickness (Steps.conf s))
           (Digitiser._currentLayer (Steps.conf s)) = Some ht ->
  Steps.ProduceSignalPoints sqrt s
  = Some (Steps.with_signalPoints s
            (map (Steps.signal_point sqrt s ht)
               (take (Z.to_nat (Steps._numberOfSegments s))
                  (Steps._ionisationPoints s)))).
Proof.
  intros Hn Hht.
  set (used := take (Z.to_nat (Steps._numberOfSegments s)) (Steps._ionisationPoints s)).
  set (pts := map (Steps.signal_point sqrt s ht) used).
  assert (length used = Z.to_nat (Steps._numberOfSegments s)) as Hlen
    by (unfold used; rewrite length_take; lia).
  unfold Steps.ProduceSignalPoints.
  destruct (Z.ltb_spec (Steps._numberOfSegments s) 0) as [|_]; [lia|].
  rewrite Hht.
  match goal with |- context [mapM ?f ?l] =>
    assert (mapM f l = Some pts) as -> end; [|reflexivity].
  apply mapM_Some. apply Forall2_same_length_lookup_2.
  - unfold pts. rewrite length_map, Hlen, length_seqZ. reflexivity.
  - intros i x y Hx Hy. apply lookup_seqZ in Hx as [-> Hi].
    unfold pts in Hy. rewrite list_lookup_fmap in Hy.
    unfold used in Hy. rewrite lookup_take_lt in Hy by lia.
    unfold vec_read. destruct (Z.leb_spec 0 (0 + Z.of_nat i)); [|lia].
    replace (Z.to_nat (0 + Z.of_nat i)) with i by lia.
    destruct (Steps._ionisationPoints s !! i) as [p|]; [|discriminate].
    cbn in Hy |- *. exact Hy.
Qed.

(** X16.  With [_numberOfSegments] between 0 and the number of ionisation
    points, and the current layer in the table of half thicknesses,
    [ProduceSignalPoints] replaces [_signalPoints] by exactly
    [_numberOfSegments] points, the images of the first ionisation points in
    their order, and changes nothing else; the sum of their charges is the
    sum of the energy losses, divided by [keV] and multiplied by
    [_electronsPerKeV]. *)
Theorem ProduceSignalPoints_points (sqrt : Q -> Q) (s : Steps.DigitiserState) (ht : Q) :
  0 <= Steps._numberOfSegments s <= Z.of_nat (length (Steps._ionisationPoints s)) ->
  vec_read (Digitiser._layerHalfThickness (Steps.conf s))
           (Digitiser._currentLayer (Steps.conf s)) = Some ht ->
  let used := take (Z.to_nat (Steps._numberOfSegments s)) (Steps._ionisationPoints s) in
  let pts := map (Steps.signal_point sqrt s ht) used in
  Steps.ProduceSignalPoints sqrt s = Some (Steps.with_signalPoints s pts) /\
  Z.of_nat (length pts) = Steps._numberOfSegments s /\
  (Qsum (map Steps.sp_charge pts)
   == Qsum (map Steps.eloss used) / Digitiser.keV (Steps.conf s)
      * Digitiser._electronsPerKeV (Steps.conf s))%Q.
Proof.
  intros Hn Hht used pts.
  split; [apply ProduceSignalPoints_eq; assumption|]. split.
  - unfold pts, used. rewrite length_map, length_take. lia.
  - unfold pts. rewrite map_map. apply Qsum_scaled.
Qed.

Lemma ProduceSignalPoints_points_witness :
  let d := Digitiser.mkMuonCVXDDigitiser (8 # 10) 0 (25 # 1000) (25 # 1000)
             (2703 # 10) 200 0 [(25 # 1000)%Q] [125%Q] [(64 # 10)%Q] (1 # 1000000) in
  let ips := [Steps.mkIonisationPoint 1 2 (-(1 # 100)) (3 # 1000000);
              Steps.mkIonisationPoint 1 2 (1 # 100) (5 # 1000000);
              Steps.mkIonisationPoint 0 0 0 1] in
  let s := Steps.mkDigitiserState d [(128 # 10)%Q] [(5 # 100)%Q] (7 # 100) 2 ips [] in
  let pts := map (Steps.signal_point sample_sqrt s (25 # 1000)) (take 2 ips) in
  Steps.ProduceSignalPoints sample_sqrt s = Some (Steps.with_signalPoints s pts) /\
  Z.of_nat (length pts) = 2 /\
  (Qsum (map Steps.sp_charge pts)
   == Qsum (map Steps.eloss (take 2 ips)) / (1 # 1000000) * (2703 # 10))%Q.
Proof.
  intros d ips s.
  apply (ProduceSignalPoints_points sample_sqrt s (25 # 1000)).
  - vm_compute. split; discriminate.
  - reflexivity.
Defined.

(** X17.  [ProduceSignalPoints] has a result exactly when
    [_numberOfSegments] is between 0 and the number of ionisation points and,
    unless it is 0, the current layer is in the table of half thicknesses:
    the loop runs to [_numberOfSegments] whatever the size of
    [_ionisationPoints], and reads past its end when it is shorter. *)
Theorem ProduceSignalPoints_defined (sqrt : Q -> Q) (s : Steps.DigitiserState) :
  is_Some (Steps.ProduceSignalPoints sqrt s) <->
  0 <= Steps._numberOfSegments s <= Z.of_nat (length (Steps._ionisationPoints s)) /\
  (Steps._numberOfSegments s = 0 \/
   is_Some (vec_read (Digitiser._layerHalfThickness (Steps.conf s))
              (Digitiser._currentLayer (Steps.conf s)))).
Proof.
  unfold Steps.ProduceSignalPoints.
  destruct (Z.ltb_spec (Steps._numberOfSegments s) 0) as [Hneg|Hnn].
  { split; [intros [x Hx]; discriminate|lia]. }
  set (n := Steps._numberOfSegments s) in *.
  match goal with |- context [mapM ?f ?l] => set (body := f) end.
  assert (is_Some (mapM body (seqZ 0 n)) <->
          Forall (fun i => is_Some (body i)) (seqZ 0 n)) as Hm
    by (rewrite mapM_is_Some; reflexivity).
  assert (forall i, is_Some (body i) <->
            is_Some (vec_read (Steps._ionisationPoints s) i) /\
            is_Some (vec_read (Digitiser._layerHalfThickness (Steps.conf s))
                       (Digitiser._currentLayer (Steps.conf s)))) as Hb.
  { intros i. unfold body.
    destruct (vec_read (Steps._ionisationPoints s) i) as [p|]; cbn;
      [|split; [intros [x Hx]; discriminate|intros [[x Hx] _]; discriminate]].
    destruct (vec_read _ _) as [ht|]; cbn.
    - split; [intros _; split; eexists; reflexivity|intros _; eexists; reflexivity].
    - split; [intros [x Hx]; discriminate|intros [_ [x Hx]]; discriminate]. }
  split.
  - intros Hs.
    assert (is_Some (mapM body (seqZ 0 n))) as Hs'.
    { destruct (mapM body (seqZ 0 n)); [eexists; reflexivity|].
      destruct Hs as [x Hx]. discriminate. }
    apply Hm in Hs'. rewrite Forall_forall in Hs'.
    destruct (Z.eq_dec n 0) as [E|E]; [lia|].
    assert (is_Some (body (n - 1))) as Hlast
      by (apply Hs', elem_of_seqZ; lia).
    apply Hb in Hlast as [[p Hp] Hht].
    apply vec_read_Some in Hp. split; [lia|right; exact Hht].
  - intros [Hr Hl].
    assert (is_Some (mapM body (seqZ 0 n))) as [pts ->]; [|eexists; reflexivity].
    apply Hm, Forall_forall. intros i Hi. apply elem_of_seqZ in Hi.
    apply Hb. split.
    + destruct (vec_read_is_Some (Steps._ionisationPoints s) i) as [p ->];
        [lia|eexists; reflexivity].
    + destruct Hl as [Hl|Hl]; [lia|exact Hl].
Qed.


(** ** ProduceHits *)

Lemma fold_opt_inv {A B : Type} (P : A -> Prop) (f : A -> B -> option A) :
  (forall a b a', P a -> f a b = Some a' -> P a') ->
  forall l a a', P a -> Steps.fold_opt f l a = Some a' -> P a'.
Proof.
  intros Hf. induction l as [|b l IH]; intros a a' Ha; cbn [Steps.fold_opt].
  - intros E. injection E as <-. exact Ha.
  - destruct (f a b) as [a1|] eqn:E; [|discriminate]. cbn.
    apply IH. eapply Hf; eassumption.
Qed.

(** The keys of a sorted list of distinct keys increase strictly. *)
Lemma key_order_strict (l : list (Z * Digitiser.SimTrackerHit)) :
  StronglySorted Steps.key_le l -> NoDup l.*1 -> StronglySorted Z.lt l.*1.
Proof.
  induction 1 as [|a l Hs IH Ha]; cbn [fmap list_fmap]; intros Hnd.
  - constructor.
  - apply NoDup_cons in Hnd as [Hin Hnd]. constructor; [apply IH, Hnd|].
    apply Forall_fmap, Forall_forall. intros b Hb. cbn.
    rewrite Forall_forall in Ha. specialize (Ha b Hb). unfold Steps.key_le in Ha.
    assert (a.1 <> b.1); [|lia].
    intros E. apply Hin. rewrite E. apply list_elem_of_fmap. exists b. auto.
Qed.

Lemma in_key_order_strict (dict : gmap Z Digitiser.SimTrackerHit) :
  StronglySorted Z.lt (Steps.in_key_order dict).*1.
Proof.
  unfold Steps.in_key_order. apply key_order_strict.
  - apply StronglySorted_merge_sort; apply _.
  - rewrite merge_sort_Permutation. apply NoDup_fst_map_to_list.
Qed.

Lemma in_key_order_elem (dict : gmap Z Digitiser.SimTrackerHit) k hit :
  (k, hit) ∈ Steps.in_key_order dict <-> dict !! k = Some hit.
Proof.
  unfold Steps.in_key_order. rewrite merge_sort_Permutation.
  apply elem_of_map_to_list.
Qed.


(** X18.  [ProduceHits] puts the pixel hits in [simTrkVec] in the strictly
    increasing order of their pixel indices: no pixel has two hits. *)
Theorem ProduceHits_key_order (erf_Q : Q -> Q) (s : Steps.DigitiserState)
    (out : list (Z * Digitiser.SimTrackerHit)) :
  Steps.ProduceHits erf_Q s = Some out ->
  StronglySorted Z.lt out.*1.
Proof.
  unfold Steps.ProduceHits.
  destruct (Steps.fold_opt _ _ _) as [dict|]; [|discriminate].
  cbn. intros E. injection E as <-. apply in_key_order_strict.
Qed.

Section HitsFacts.

Variable erf_Q : Q -> Q.
Variable s : Steps.DigitiserState.

Lemma deposit_cases spoint ix dict iy dict' :
  Steps.deposit erf_Q s spoint ix dict iy = Some dict' ->
  dict' = dict \/
  exists nrow xy integralX integralY,
    Steps.GetPixelsInaRow s = Some nrow /\ 0 <= iy < nrow /\
    Digitiser.TransformCellIDToXY (Steps.conf s) ix iy = Some xy /\
    Steps.pixel_integral erf_Q (Steps.sp_x spoint) (Steps.sigmaX spoint)
      (Digitiser._pixelSizeX (Steps.conf s)) xy.1 = Some integralX /\
    Steps.pixel_integral erf_Q (Steps.sp_y spoint) (Steps.sigmaY spoint)
      (Digitiser._pixelSizeY (Steps.conf s)) xy.2 = Some integralY /\
    let totCharge := (Steps.sp_charge spoint * integralX * integralY)%Q in
    let pixelID := Int32.add (Int32.mul nrow ix) iy in
    match dict !! pixelID with
    | None =>
        exists ht,
          vec_read (Digitiser._layerHalfThickness (Steps.conf s))
                   (Digitiser._currentLayer (Steps.conf s)) = Some ht /\
          dict' = <[pixelID := {| Digitiser.getEDep := totCharge;
                                  Digitiser.getPosition := (xy.1, xy.2, ht) |}]> dict
    | Some item =>
        dict' = <[pixelID := {| Digitiser.getEDep :=
                                  (Digitiser.getEDep item + totCharge)%Q;
                                Digitiser.getPosition :=
                                  Digitiser.getPosition item |}]> dict
    end.
Proof.
  unfold Steps.deposit.
  destruct (Z.ltb_spec iy 0) as [|H0]; [intros E; injection E as <-; auto|].
  destruct (Steps.GetPixelsInaRow s) as [nrow|]; [|discriminate]. cbn.
  destruct (Z.leb_spec nrow iy) as [|H1]; [intros E; injection E as <-; auto|].
  destruct (Digitiser.TransformCellIDToXY _ _ _) as [xy|] eqn:Exy; [|discriminate]. cbn.
  destruct (Steps.pixel_integral _ _ _ _ xy.1) as [integralX|] eqn:EX; [|discriminate]. cbn.
  destruct (Steps.pixel_integral _ _ _ _ xy.2) as [integralY|] eqn:EY; [|discriminate]. cbn.
  intros E. right. exists nrow, xy, integralX, integralY.
  split; [reflexivity|]. split; [lia|]. split; [reflexivity|].
  split; [exact EX|]. split; [exact EY|].
  cbv zeta.
  destruct (dict !! Int32.add (Int32.mul nrow ix) iy) as [item|].
  - injection E as <-. reflexivity.
  - destruct (vec_read _ _) as [ht|]; [|discriminate]. cbn in E.
    injection E as <-. exists ht. auto.
Qed.

Lemma deposit_column_cases spoint iyLo iyUp dict ix dict' :
  Steps.deposit_column erf_Q s spoint iyLo iyUp dict ix = Some dict' ->
  dict' = dict \/
  exists ncol,
    Steps.GetPixelsInaColumn s = Some ncol /\ 0 <= ix < ncol /\
    Steps.fold_opt (Steps.deposit erf_Q s spoint ix) (Steps.int_range iyLo iyUp) dict
    = Some dict'.
Proof.
  unfold Steps.deposit_column.
  destruct (Z.ltb_spec ix 0) as [|H0]; [intros E; injection E as <-; auto|].
  destruct (Steps.GetPixelsInaColumn s) as [ncol|]; [|discriminate]. cbn.
  destruct (Z.leb_spec ncol ix) as [|H1]; [intros E; injection E as <-; auto|].
  intros E. right. exists ncol. repeat split; first [lia|exact E].
Qed.

(** An invariant of [hit_Dict] that every deposit in a pixel of the matrix
    keeps is an invariant of the loops. *)
Lemma ProduceHits_inv (P : gmap Z Digitiser.SimTrackerHit -> Prop) :
  P ∅ ->
  (forall spoint i ix iy dict dict' ncol,
     vec_read (Steps._signalPoints s) i = Some spoint ->
     Steps.GetPixelsInaColumn s = Some ncol -> 0 <= ix < ncol ->
     P dict -> Steps.deposit erf_Q s spoint ix dict iy = Some dict' -> P dict') ->
  forall out, Steps.ProduceHits erf_Q s = Some out ->
  exists dict, P dict /\ out = Steps.in_key_order dict.
Proof.
  intros Hempty Hstep out. unfold Steps.ProduceHits.
  destruct (Steps.fold_opt _ _ _) as [dict|] eqn:E; [|discriminate].
  cbn [mbind option_bind]. intros Eo. injection Eo as <-. exists dict. split; [|reflexivity].
  revert E. apply fold_opt_inv; [|exact Hempty].
  intros d1 i d2 Hd1. unfold Steps.deposit_point.
  destruct (vec_read (Steps._signalPoints s) i) as [spoint|] eqn:Ei; [|discriminate].
  cbn [mbind option_bind].
  destruct (Digitiser.TransformXYToCellID _ (_ - _)%Q _) as [lo|]; [|discriminate].
  cbn [mbind option_bind].
  destruct (Digitiser.TransformXYToCellID _ _ _) as [up|]; [|discriminate].
  cbn [mbind option_bind].
  apply fold_opt_inv; [|exact Hd1].
  intros d3 ix d4 Hd3 Ec.
  apply deposit_column_cases in Ec as [->|(ncol & Hc & Hix & Ec)]; [exact Hd3|].
  revert Ec. apply fold_opt_inv; [|exact Hd3].
  intros d5 iy d6 Hd5 Ed. eapply Hstep; eassumption.
Qed.

End HitsFacts.

(** Every entry of [hit_Dict] is a pixel of the matrix. *)
Lemma hits_inside_matrix (erf_Q : Q -> Q) (s : Steps.DigitiserState)
    (out : list (Z * Digitiser.SimTrackerHit)) :
  Steps.ProduceHits erf_Q s = Some out ->
  Forall (fun kh => pixel_hit s kh.1 kh.2) out.
Proof.
  intros E.
  destruct (ProduceHits_inv erf_Q s (map_Forall (pixel_hit s))) with (out := out)
    as (dict & Hd & ->); [apply map_Forall_empty| |exact E|].
  - intros spoint i ix iy dict dict' ncol _ Hc Hix Hd Ed.
    apply deposit_cases in Ed
      as [->|(nrow & xy & iX & iY & Hr & Hiy & Hxy & _ & _ & Ed)]; [exact Hd|].
    cbv zeta in Ed.
    destruct (dict !! Int32.add (Int32.mul nrow ix) iy) as [item|] eqn:El.
    + subst dict'. apply map_Forall_insert_2; [|exact Hd].
      destruct (Hd _ _ El) as (ix' & iy' & nrow' & ncol' & xy' & ht' & H).
      exists ix', iy', nrow', ncol', xy', ht'. exact H.
    + destruct Ed as (ht & Hht & ->). apply map_Forall_insert_2; [|exact Hd].
      exists ix, iy, nrow, ncol, xy, ht. cbn. repeat split; auto; lia.
  - apply Forall_forall. intros [k hit] Hin. apply in_key_order_elem in Hin.
    exact (Hd _ _ Hin).
Qed.

(** X19.  Every hit that [ProduceHits] produces is in a pixel of the matrix:
    its pixel index is [GetPixelsInaRow() * ix + iy] for a column index
    [0 <= ix < GetPixelsInaColumn()] and a row index
    [0 <= iy < GetPixelsInaRow()], and its position is the centre of that
    pixel given by [TransformCellIDToXY], at [z] the half thickness of the
    current layer; adding charge to a pixel never moves its hit. *)
Theorem ProduceHits_inside_matrix (erf_Q : Q -> Q) (s : Steps.DigitiserState)
    (out : list (Z * Digitiser.SimTrackerHit)) :
  Steps.ProduceHits erf_Q s = Some out ->
  Forall (fun kh => pixel_hit s kh.1 kh.2) out.
Proof.
  intros E. exact (hits_inside_matrix erf_Q s out E).
Qed.

(** The sign of the charge fraction along one axis, for a decreasing
    [erf_Q]: the sign of [sigma]. *)
Lemma pixel_integral_sign (erf_Q : Q -> Q) (centre sigma pitch current v : Q) :
  (forall a b, a <= b -> erf_Q b <= erf_Q a)%Q ->
  (0 < pitch)%Q ->
  Steps.pixel_integral erf_Q centre sigma pitch current = Some v ->
  ((0 < sigma -> 0 <= v) /\ (sigma < 0 -> v <= 0))%Q.
Proof.
  intros Hmono Hp. unfold Steps.pixel_integral, Steps.erf_bound.
  destruct (Qeq_bool sigma 0) eqn:E; [discriminate|].
  apply Qeq_bool_false in E. cbn. intros Ev. injection Ev as <-.
  set (a := (current - (1 # 2) * pitch - centre)%Q).
  set (b := (current + (1 # 2) * pitch - centre)%Q).
  assert (a <= b)%Q as Hab by (unfold a, b; lra).
  set (t := (/ sigma)%Q).
  assert (sigma * t == 1)%Q as Ht by (apply Qmult_inv_r, E).
  unfold Qdiv. fold t. split; intros Hs.
  - assert (0 < t)%Q as Htp by (apply Qinv_lt_0_compat, Hs).
    assert (a * t <= b * t)%Q as Hd by (apply Qmult_le_compat_r; lra).
    pose proof (Hmono _ _ Hd). lra.
  - assert (0 < - t)%Q as Htp.
    { assert (0 < / (- sigma))%Q as H by (apply Qinv_lt_0_compat; lra).
      assert (/ (- sigma) == - t)%Q as <-; [|exact H].
      unfold t. field. exact E. }
    assert (a * (- t) <= b * (- t))%Q as Hd by (apply Qmult_le_compat_r; lra).
    assert (b * t <= a * t)%Q as Hd' by lra.
    pose proof (Hmono _ _ Hd'). lra.
Qed.

Lemma same_sign (a b : Q) :
  (0 < a * b -> (0 < a /\ 0 < b) \/ (a < 0 /\ b < 0))%Q.
Proof.
  intros H.
  destruct (Qlt_le_dec 0 a) as [Ha|Ha], (Qlt_le_dec 0 b) as [Hb|Hb].
  - left. auto.
  - exfalso. assert (0 <= a * - b)%Q by (apply Qmult_le_0_compat; lra). lra.
  - exfalso. assert (0 <= - a * b)%Q by (apply Qmult_le_0_compat; lra). lra.
  - right. split.
    + destruct (Qlt_le_dec a 0) as [|Ha']; [assumption|exfalso].
      assert (a == 0)%Q as E by lra. rewrite E in H. lra.
    + destruct (Qlt_le_dec b 0) as [|Hb']; [assumption|exfalso].
      assert (b == 0)%Q as E by lra. rewrite E in H. lra.
Qed.

(** X20.  With a decreasing [erf_Q], positive pixel sizes and signal points
    of non-negative charge whose [sigmaX] and [sigmaY] have the same sign,
    no hit that [ProduceHits] produces has a negative charge. *)
Theorem ProduceHits_charge_nonneg (erf_Q : Q -> Q) (s : Steps.DigitiserState)
    (out : list (Z * Digitiser.SimTrackerHit)) :
  (forall a b, a <= b -> erf_Q b <= erf_Q a)%Q ->
  (0 < Digitiser._pixelSizeX (Steps.conf s))%Q ->
  (0 < Digitiser._pixelSizeY (Steps.conf s))%Q ->
  Forall (fun p => 0 <= Steps.sp_charge p /\ 0 < Steps.sigmaX p * Steps.sigmaY p)%Q
         (Steps._signalPoints s) ->
  Steps.ProduceHits erf_Q s = Some out ->
  Forall (fun kh => 0 <= Digitiser.getEDep kh.2)%Q out.
Proof.
  intros Hmono Hpx Hpy Hpts E.
  destruct (ProduceHits_inv erf_Q s
              (map_Forall (fun _ hit => 0 <= Digitiser.getEDep hit)%Q))
    with (out := out) as (dict & Hd & ->); [apply map_Forall_empty| |exact E|].
  - intros spoint i ix iy dict dict' ncol Hi _ _ Hd Ed.
    apply vec_read_elem in Hi. rewrite Forall_forall in Hpts.
    destruct (Hpts _ Hi) as [Hq Hsig].
    apply deposit_cases in Ed
      as [->|(nrow & xy & iX & iY & _ & _ & _ & HX & HY & Ed)]; [exact Hd|].
    apply (pixel_integral_sign _ _ _ _ _ _ Hmono Hpx) in HX as [HX1 HX2].
    apply (pixel_integral_sign _ _ _ _ _ _ Hmono Hpy) in HY as [HY1 HY2].
    assert (0 <= iX * iY)%Q as Hxy.
    { destruct (same_sign _ _ Hsig) as [[Hx Hy]|[Hx Hy]].
      - apply Qmult_le_0_compat; auto.
      - specialize (HX2 Hx). specialize (HY2 Hy).
        assert (0 <= - iX * - iY)%Q by (apply Qmult_le_0_compat; lra). lra. }
    assert (0 <= Steps.sp_charge spoint * iX * iY)%Q as Htot.
    { rewrite <- Qmult_assoc. apply Qmult_le_0_compat; assumption. }
    cbv zeta in Ed.
    destruct (dict !! Int32.add (Int32.mul nrow ix) iy) as [item|] eqn:El.
    + subst dict'. apply map_Forall_insert_2; [|exact Hd].
      cbn. pose proof (Hd _ _ El) as Hitem. cbn in Hitem. lra.
    + destruct Ed as (ht & _ & ->). apply map_Forall_insert_2; [|exact Hd].
      cbn. exact Htot.
  - apply Forall_forall. intros [k hit] Hin. apply in_key_order_elem in Hin.
    exact (Hd _ _ Hin).
Qed.

Lemma fold_opt_is_Some {A B : Type} (f : A -> B -> option A) (l : list B) :
  (forall a b, b ∈ l -> is_Some (f a b)) ->
  forall a, is_Some (Steps.fold_opt f l a).
Proof.
  induction l as [|b l IH]; intros Hf a; cbn [Steps.fold_opt].
  - eexists. reflexivity.
  - destruct (Hf a b) as [a1 ->]; [left|]. cbn [mbind option_bind].
    apply IH. intros a' b' Hb'. apply Hf. right. exact Hb'.
Qed.

(** X21.  [ProduceHits] has a result when the current layer is in the four
    geometry tables, the pixel sizes are positive, the numbers of pixels of
    the ladder are representable, [_numberOfSegments] is at most the number
    of signal points, and each signal point read has non-zero [sigmaX] and
    [sigmaY] and the two corners of its window converted to cell indices
    that are representable. *)
Theorem ProduceHits_defined (erf_Q : Q -> Q) (s : Steps.DigitiserState)
    (len hw w ht : Q) :
  let d := Steps.conf s in
  vec_read (Digitiser._layerLadderLength d) (Digitiser._currentLayer d) = Some len ->
  vec_read (Digitiser._layerLadderHalfWidth d) (Digitiser._currentLayer d) = Some hw ->
  vec_read (Steps._layerLadderWidth s) (Digitiser._currentLayer d) = Some w ->
  vec_read (Digitiser._layerHalfThickness d) (Digitiser._currentLayer d) = Some ht ->
  (0 < Digitiser._pixelSizeX d)%Q -> (0 < Digitiser._pixelSizeY d)%Q ->
  (0 <= w)%Q -> (0 <= len)%Q ->
  (w / Digitiser._pixelSizeX d <= inject_Z Int32.INT_MAX)%Q ->
  (len / Digitiser._pixelSizeY d <= inject_Z Int32.INT_MAX)%Q ->
  Steps._numberOfSegments s <= Z.of_nat (length (Steps._signalPoints s)) ->
  Forall (fun p =>
            ~ (Steps.sigmaX p == 0)%Q /\ ~ (Steps.sigmaY p == 0)%Q /\
            is_Some (Digitiser.TransformXYToCellID d
                       (Steps.sp_x p - 3 * Steps.sigmaX p)%Q
                       (Steps.sp_y p - 3 * Steps.sigmaY p)%Q) /\
            is_Some (Digitiser.TransformXYToCellID d
                       (Steps.sp_x p + 3 * Steps.sigmaX p)%Q
                       (Steps.sp_y p + 3 * Steps.sigmaY p)%Q))
         (take (Z.to_nat (Steps._numberOfSegments s)) (Steps._signalPoints s)) ->
  is_Some (Steps.ProduceHits erf_Q s).
Proof.
  intros d Hlen Hhw Hw Hht Hpx Hpy Hw0 Hlen0 Hwmax Hlenmax Hn Hpts.
  destruct (ceil_to_int_defined len _ Hpy Hlen0 Hlenmax) as (nrow & Hrow & _).
  destruct (ceil_to_int_defined w _ Hpx Hw0 Hwmax) as (ncol & Hcol & _).
  assert (Steps.GetPixelsInaRow s = Some nrow) as Grow
    by (unfold Steps.GetPixelsInaRow; fold d; rewrite Hlen; exact Hrow).
  assert (Steps.GetPixelsInaColumn s = Some ncol) as Gcol
    by (unfold Steps.GetPixelsInaColumn; fold d; rewrite Hw; exact Hcol).
  assert (forall p ix dict iy,
            ~ (Steps.sigmaX p == 0)%Q -> ~ (Steps.sigmaY p == 0)%Q ->
            is_Some (Steps.deposit erf_Q s p ix dict iy)) as Hdep.
  { intros p ix dict iy Hsx Hsy. unfold Steps.deposit.
    destruct (iy <? 0); [eexists; reflexivity|].
    rewrite Grow. cbn [mbind option_bind].
    destruct (nrow <=? iy); [eexists; reflexivity|].
    unfold Digitiser.TransformCellIDToXY. fold d. rewrite Hlen, Hhw.
    cbn [mbind option_bind].
    unfold Steps.pixel_integral, Steps.erf_bound.
    apply Qeq_bool_false in Hsx, Hsy. rewrite Hsx, Hsy.
    cbn [mbind option_bind].
    destruct (dict !! _); [eexists; reflexivity|].
    rewrite Hht. eexists. reflexivity. }
  unfold Steps.ProduceHits.
  match goal with |- is_Some (?m ≫= _) => assert (is_Some m) as [dict ->] end;
    [|eexists; reflexivity].
  apply fold_opt_is_Some. intros dict i Hi. apply elem_of_seqZ in Hi.
  unfold Steps.deposit_point.
  destruct (vec_read_is_Some (Steps._signalPoints s) i) as [p Hp]; [lia|].
  rewrite Hp. cbn [mbind option_bind].
  assert (p ∈ take (Z.to_nat (Steps._numberOfSegments s)) (Steps._signalPoints s))
    as Hin.
  { unfold vec_read in Hp. destruct (0 <=? i); [|discriminate].
    apply list_elem_of_lookup. exists (Z.to_nat i).
    rewrite lookup_take_lt by lia. exact Hp. }
  rewrite Forall_forall in Hpts.
  destruct (Hpts p Hin) as (Hsx & Hsy & [lo Hlo] & [up Hup]).
  fold d. rewrite Hlo. cbn [mbind option_bind]. rewrite Hup. cbn [mbind option_bind].
  apply fold_opt_is_Some. intros dict1 ix _.
  unfold Steps.deposit_column.
  destruct (ix <? 0); [eexists; reflexivity|].
  rewrite Gcol. cbn [mbind option_bind].
  destruct (ncol <=? ix); [eexists; reflexivity|].
  apply fold_opt_is_Some. intros dict2 iy _. apply Hdep; assumption.
Qed.

Lemma sample_erf_Q_decreasing (a b : Q) :
  (a <= b -> sample_erf_Q b <= sample_erf_Q a)%Q.
Proof.
  intros Hab. unfold sample_erf_Q.
  destruct (Qle_bool a (-1)) eqn:A1; destruct (Qle_bool b (-1)) eqn:B1;
    destruct (Qle_bool 1 a) eqn:A2; destruct (Qle_bool 1 b) eqn:B2;
    try apply Qle_bool_iff in A1; try apply Qle_bool_iff in B1;
    try apply Qle_bool_iff in A2; try apply Qle_bool_iff in B2;
    try apply Qle_bool_false in A1; try apply Qle_bool_false in B1;
    try apply Qle_bool_false in A2; try apply Qle_bool_false in B2;
    try lra;
    try (assert ((1 - a) / 2 == (1 - a) * (1 # 2))%Q as -> by (field; lra));
    try (assert ((1 - b) / 2 == (1 - b) * (1 # 2))%Q as -> by (field; lra));
    lra.
Qed.

Lemma ProduceHits_key_order_witness :
  exists out, Steps.ProduceHits sample_erf_Q sample_state = Some out /\
              StronglySorted Z.lt out.*1.
Proof.
  eexists. split; [vm_compute; reflexivity|].
  apply (ProduceHits_key_order sample_erf_Q sample_state).
  vm_compute. reflexivity.
Defined.

Lemma ProduceHits_inside_matrix_witness :
  exists out, Steps.ProduceHits sample_erf_Q sample_state = Some out /\
              Forall (fun kh => pixel_hit sample_state kh.1 kh.2) out.
Proof.
  eexists. split; [vm_compute; reflexivity|].
  apply (ProduceHits_inside_matrix sample_erf_Q sample_state).
  vm_compute. reflexivity.
Defined.

Lemma ProduceHits_charge_nonneg_witness :
  exists out, Steps.ProduceHits sample_erf_Q sample_state = Some out /\
              Forall (fun kh => 0 <= Digitiser.getEDep kh.2)%Q out.
Proof.
  eexists. split; [vm_compute; reflexivity|].
  apply (ProduceHits_charge_nonneg sample_erf_Q sample_state).
  - exact sample_erf_Q_decreasing.
  - reflexivity.
  - reflexivity.
  - repeat constructor; vm_compute; congruence.
  - vm_compute. reflexivity.
Defined.

Lemma ProduceHits_defined_witness :
  is_Some (Steps.ProduceHits sample_erf_Q sample_state).
Proof.
  apply (ProduceHits_defined sample_erf_Q sample_state 125 (64 # 10) (128 # 10)
           (25 # 1000)).
  - vm_compute. reflexivity.
  - vm_compute. reflexivity.
  - vm_compute. reflexivity.
  - vm_compute. reflexivity.
  - vm_compute. reflexivity.
  - vm_compute. reflexivity.
  - vm_compute. congruence.
  - vm_compute. congruence.
  - vm_compute. congruence.
  - vm_compute. congruence.
  - vm_compute. congruence.
  - repeat constructor; try (vm_compute; congruence); eexists; vm_compute; reflexivity.
Defined.


(** ** ProduceIonisationPoints *)

Lemma length_resize n v : 0 <= n -> length (Track.resize n v) = Z.to_nat n.
Proof.
  intros Hn. unfold Track.resize, vec_resize.
  rewrite length_app, length_take, length_replicate. lia.
Qed.

Lemma Qsum_app (l1 l2 : list Q) : (Qsum (l1 ++ l2) == Qsum l1 + Qsum l2)%Q.
Proof.
  induction l1 as [|a l1 IH]; cbn [app Qsum foldr].
  - fold (Qsum l2). ring.
  - fold (Qsum (l1 ++ l2)) (Qsum l1). rewrite IH. ring.
Qed.

Lemma quotient_Some a b q :
  quotient a b = Some q -> ~ (b == 0)%Q /\ q = (a / b)%Q.
Proof.
  unfold quotient. destruct (Qeq_bool b 0) eqn:E; [discriminate|].
  intros H. injection H as <-. split; [apply Qeq_bool_false, E|reflexivity].
Qed.

Lemma quotient_defined a b :
  ~ (b == 0)%Q -> quotient a b = Some (a / b)%Q.
Proof.
  intros H. unfold quotient.
  assert (Qeq_bool b 0 = false) as -> by (apply Qeq_bool_false, H). reflexivity.
Qed.

Lemma quotient_zero a b : (b == 0)%Q -> quotient a b = None.
Proof.
  intros H. unfold quotient.
  assert (Qeq_bool b 0 = true) as -> by (apply Qeq_bool_iff, H). reflexivity.
Qed.

Section IonisationFacts.

Import Steps Track.

Variable sqrt : Q -> Q.
Variable SampleFluctuations : Z -> Q -> Q -> Q -> Q -> Q -> Q.
Variable shoot : nat -> Q.
Variable shoot_in : nat -> Q -> Q -> Q.

(** What the loop over the segments has made after [k] turns. *)
Lemma segment_loop_spec s m pos tanx tany depth segmentLength dEmean z0 points0 :
  forall k : nat,
    (k <= length points0)%nat ->
    let a := fold_left
               (segment_step SampleFluctuations s m pos tanx tany depth
                  segmentLength dEmean)
               (seqZ 0 (Z.of_nat k))
               {| loop_z := z0; loop_eSum := 0; loop_points := points0 |} in
    (loop_z a == z0 + inject_Z (Z.of_nat k) * depth)%Q /\
    length (loop_points a) = length points0 /\
    (loop_eSum a == Qsum (map eloss (take k (loop_points a))))%Q /\
    (forall (i : nat) p, (i < k)%nat -> loop_points a !! i = Some p ->
       (ip_z p == z0 + (inject_Z (Z.of_nat i) + 1) * depth)%Q /\
       (ip_x p == pos.1.1 + tanx * (ip_z p - pos.2))%Q /\
       (ip_y p == pos.1.2 + tany * (ip_z p - pos.2))%Q /\
       eloss p =
         (SampleFluctuations (Z.of_nat i)
            (_currentParticleMomentum m * Digitiser.keV (conf s) / MeV m)
            (_currentParticleMass m * Digitiser.keV (conf s) / MeV m)
            (_cutOnDeltaRays m) segmentLength (dEmean / MeV m)
          * MeV m)%Q).
Proof.
  induction k as [|k IH]; intros Hk a.
  - subst a. change (Z.of_nat 0) with 0. change (seqZ 0 0) with (@nil Z).
    cbn [fold_left loop_z loop_eSum loop_points take].
    split; [change (inject_Z 0) with 0%Q; ring|].
    split; [reflexivity|]. split; [reflexivity|]. intros i p Hi. lia.
  - specialize (IH ltac:(lia)). cbv zeta in IH.
    subst a. rewrite seqZ_S, fold_left_app.
    set (b := fold_left _ (seqZ 0 (Z.of_nat k)) _) in *.
    destruct IH as (Iz & Il & Ie & Ip).
    cbn [fold_left]. rewrite Z.add_0_l.
    unfold segment_step at 1 2 3 4 5.
    cbn [loop_z loop_eSum loop_points].
    set (de := (SampleFluctuations (Z.of_nat k) _ _ _ _ _ * MeV m)%Q).
    set (z := (loop_z b + depth)%Q).
    set (pt := {| ip_x := _; ip_y := _; ip_z := z; eloss := de |}).
    assert (vec_write (loop_points b) (Z.of_nat k) pt
            = <[k := pt]> (loop_points b)) as Ew.
    { unfold vec_write, vec_alter.
      destruct (Z.leb_spec 0 (Z.of_nat k)); [|lia].
      rewrite Nat2Z.id. symmetry. apply list_insert_alter. }
    rewrite Ew. clear Ew.
    split; [|split; [|split]].
    + unfold z. rewrite Iz, Nat2Z.inj_succ, <- Z.add_1_r, inject_Z_plus.
      change (inject_Z 1) with 1%Q. ring.
    + rewrite length_insert. exact Il.
    + rewrite (take_S_r _ _ pt)
        by (apply list_lookup_insert_eq; lia).
      rewrite take_insert_ge by lia.
      rewrite map_app, Qsum_app, <- Ie. cbn. ring.
    + intros i p Hi Hp.
      destruct (decide (i = k)) as [->|Hne].
      * rewrite list_lookup_insert_eq in Hp by lia. injection Hp as <-.
        unfold pt. cbn [ip_x ip_y ip_z eloss].
        split; [|split; [reflexivity|split; reflexivity]].
        unfold z. rewrite Iz. ring.
      * rewrite list_lookup_insert_ne in Hp by congruence.
        apply Ip; [lia|exact Hp].
Qed.

(** [_ionisationPoints[h].eloss += q] adds [q] to the sum of the losses and
    moves no point. *)
Lemma Qsum_alter_eloss q (pts : list IonisationPoint) : forall h : nat,
  (h < length pts)%nat ->
  (Qsum (map eloss (alter (add_eloss q) h pts)) == Qsum (map eloss pts) + q)%Q.
Proof.
  induction pts as [|p pts IH]; intros h Hh; [cbn in Hh; lia|].
  destruct h as [|h].
  - cbn [alter list_alter map Qsum foldr add_eloss eloss].
    fold (Qsum (map eloss pts)). ring.
  - cbn [alter list_alter map Qsum foldr].
    fold (Qsum (map eloss pts)).
    change (foldr Qplus 0%Q (map eloss (list_alter (add_eloss q) h pts)))
      with (Qsum (map eloss (alter (add_eloss q) h pts))).
    rewrite IH by (cbn in Hh; lia). ring.
Qed.

Lemma alter_add_eloss_place q (pts : list IonisationPoint) (h : nat) :
  map (fun p => (ip_x p, ip_y p, ip_z p)) (alter (add_eloss q) h pts)
  = map (fun p => (ip_x p, ip_y p, ip_z p)) pts.
Proof.
  revert h. induction pts as [|p pts IH]; intros h; [reflexivity|].
  destruct h as [|h]; cbn [alter list_alter map]; [reflexivity|].
  f_equal. apply IH.
Qed.

Lemma vec_alter_in_range {A : Type} (f : A -> A) (h : Z) (v : list A) :
  0 <= h -> vec_alter f h v = alter f (Z.to_nat h) v.
Proof.
  intros Hh. unfold vec_alter. destruct (Z.leb_spec 0 h); [reflexivity|lia].
Qed.

(** What the padding loop leaves when it ends: the exit condition, the
    places of the points, and the energy that it has added. *)
Lemma pad_tail_frame hcharge thr n : forall fuel k pts e r,
  pad_tail shoot shoot_in fuel k hcharge thr n pts e = Some r ->
  (hcharge <= r.2 + thr)%Q /\
  map (fun p => (ip_x p, ip_y p, ip_z p)) r.1
  = map (fun p => (ip_x p, ip_y p, ip_z p)) pts /\
  (r.2 - e == Qsum (map eloss r.1) - Qsum (map eloss pts))%Q.
Proof.
  induction fuel as [|fuel IH]; intros k pts e r; cbn [pad_tail].
  - destruct (Qlt_le_dec (e + thr) hcharge) as [Hc|Hc]; [discriminate|].
    intros E. injection E as <-. cbn [fst snd].
    split; [exact Hc|]. split; [reflexivity|]. ring.
  - destruct (Qlt_le_dec (e + thr) hcharge) as [Hc|Hc].
    + destruct (randomTail (shoot k) thr (hcharge - e)) as [q|]; [|discriminate].
      cbn [mbind option_bind].
      set (h := Qfloor (shoot_in k 0 (double_of_int n))).
      destruct (Z.leb_spec 0 h) as [H0|]; [|discriminate].
      destruct (Z.ltb_spec h (Z.of_nat (length pts))) as [H1|]; [|discriminate].
      cbn [andb]. intros E. apply IH in E as (E1 & E2 & E3).
      rewrite vec_alter_in_range in E2, E3 by exact H0.
      rewrite alter_add_eloss_place in E2.
      rewrite Qsum_alter_eloss in E3 by lia.
      split; [exact E1|]. split; [exact E2|]. lra.
    + intros E. injection E as <-. cbn [fst snd].
      split; [exact Hc|]. split; [reflexivity|]. ring.
Qed.



(** [ProduceIonisationPoints] for a hit inside the bounds of its surface,
    once its reads and its divisions are known to have a value. *)
Lemma ProduceIonisationPoints_eq fuel s m f hitEDep ht th n :
  let pos := localPosition f in
  let dir := localDirection f in
  let tl := track_length sqrt m dir th in
  let m1 := with_particle m f in
  Digitiser._currentLayer (conf s) <> -1 ->
  vec_read (Digitiser._layerHalfThickness (conf s))
           (Digitiser._currentLayer (conf s)) = Some ht ->
  vec_read (_layerThickness s) (Digitiser._currentLayer (conf s)) = Some th ->
  ~ (dir.2 == 0)%Q ->
  ceil_to_int tl (_segmentLength m) = Some n ->
  0 < n ->
  ~ (Digitiser._electronsPerKeV (conf s) == 0)%Q ->
  ProduceIonisationPoints sqrt SampleFluctuations shoot shoot_in fuel s m
    (Some f) hitEDep
  = (r ← pad_tail shoot shoot_in fuel 0 (hitEDep / GeV m)
           (padding_threshold s m) n
           (loop_points
              (fold_left
                 (segment_step SampleFluctuations s m1 pos
                    (dir.1.1 / dir.2) (dir.1.2 / dir.2) (th / inject_Z n)
                    (tl / inject_Z n)
                    (Digitiser.keV (conf s) * _energyLoss m * tl / inject_Z n))
                 (seqZ 0 n)
                 {| loop_z := - ht - (1 # 2) * (th / inject_Z n);
                    loop_eSum := 0;
                    loop_points := resize n (_ionisationPoints s) |}))
           (loop_eSum
              (fold_left
                 (segment_step SampleFluctuations s m1 pos
                    (dir.1.1 / dir.2) (dir.1.2 / dir.2) (th / inject_Z n)
                    (tl / inject_Z n)
                    (Digitiser.keV (conf s) * _energyLoss m * tl / inject_Z n))
                 (seqZ 0 n)
                 {| loop_z := - ht - (1 # 2) * (th / inject_Z n);
                    loop_eSum := 0;
                    loop_points := resize n (_ionisationPoints s) |}));
     Some (with_ionisationPoints s n r.1,
           with_track m1 pos
             ((pos.1.1 + dir.1.1 * (- ht - pos.2) / dir.2)%Q,
              (pos.1.2 + dir.1.2 * (- ht - pos.2) / dir.2)%Q, (- ht)%Q)
             ((pos.1.1 + dir.1.1 * (ht - pos.2) / dir.2)%Q,
              (pos.1.2 + dir.1.2 * (ht - pos.2) / dir.2)%Q, ht)
             r.2 (th / inject_Z n))).
Proof.
  intros pos dir tl m1 Hlayer Hht Hth Hdz Hn Hpos He.
  assert (~ (inject_Z n == 0)%Q) as Hn0.
  { change 0%Q with (inject_Z 0). rewrite inject_Z_injective. lia. }
  unfold ProduceIonisationPoints.
  destruct (Z.eqb_spec (Digitiser._currentLayer (conf s)) (-1)) as [|_];
    [contradiction|].
  rewrite Hht. cbn [mbind option_bind].
  fold pos dir.
  rewrite !(quotient_defined _ dir.2) by exact Hdz. cbn [mbind option_bind].
  rewrite Hth. cbn [mbind option_bind].
  change (std_min _ _) with tl.
  rewrite Hn. cbn [mbind option_bind].
  unfold double_of_int.
  rewrite !(quotient_defined _ (inject_Z n)) by exact Hn0.
  cbn [mbind option_bind].
  destruct (Z.ltb_spec n 0) as [|_]; [lia|].
  rewrite (quotient_defined _ _ He). cbn [mbind option_bind].
  reflexivity.
Qed.

(** What a result of [ProduceIonisationPoints] tells, for a hit inside the
    bounds of its surface and a layer that is not -1. *)
Lemma ProduceIonisationPoints_Some fuel s m f hitEDep r :
  Digitiser._currentLayer (conf s) <> -1 ->
  ProduceIonisationPoints sqrt SampleFluctuations shoot shoot_in fuel s m
    (Some f) hitEDep = Some r ->
  exists ht th n,
    vec_read (Digitiser._layerHalfThickness (conf s))
             (Digitiser._currentLayer (conf s)) = Some ht /\
    vec_read (_layerThickness s) (Digitiser._currentLayer (conf s)) = Some th /\
    ~ ((localDirection f).2 == 0)%Q /\
    ceil_to_int (track_length sqrt m (localDirection f) th) (_segmentLength m)
    = Some n /\
    0 < n /\
    ~ (Digitiser._electronsPerKeV (conf s) == 0)%Q.
Proof.
  intros Hlayer. unfold ProduceIonisationPoints.
  destruct (Z.eqb_spec (Digitiser._currentLayer (conf s)) (-1)) as [|_];
    [contradiction|].
  destruct (vec_read (Digitiser._layerHalfThickness (conf s)) _) as [ht|];
    [|discriminate].
  cbn [mbind option_bind].
  destruct (Qeq_dec (localDirection f).2 0) as [Hz|Hdz].
  { rewrite !(quotient_zero _ _ Hz). cbn [mbind option_bind]. discriminate. }
  rewrite !(quotient_defined _ (localDirection f).2) by exact Hdz.
  cbn [mbind option_bind].
  destruct (vec_read (_layerThickness s) _) as [th|]; [|discriminate].
  cbn [mbind option_bind].
  change (std_min _ _) with (track_length sqrt m (localDirection f) th).
  destruct (ceil_to_int _ _) as [n|] eqn:En; [|discriminate].
  cbn [mbind option_bind].
  destruct (Qeq_dec (double_of_int n) 0) as [Hz|Hn0].
  { rewrite !(quotient_zero _ _ Hz). cbn [mbind option_bind]. discriminate. }
  rewrite !(quotient_defined _ (double_of_int n)) by exact Hn0.
  cbn [mbind option_bind].
  destruct (Z.ltb_spec n 0) as [|Hn]; [discriminate|].
  cbn [mbind option_bind].
  destruct (Qeq_dec (Digitiser._electronsPerKeV (conf s)) 0) as [Hz|He].
  { rewrite !(quotient_zero _ _ Hz). cbn [mbind option_bind]. discriminate. }
  intros _. exists ht, th, n. repeat split; try assumption; try reflexivity.
  destruct (Z.eq_dec n 0) as [->|]; [|lia].
  exfalso. apply Hn0. reflexivity.
Qed.

End IonisationFacts.

Lemma lookup_same_place (l l' : list Steps.IonisationPoint) (i : nat) p :
  map (fun p => (Steps.ip_x p, Steps.ip_y p, Steps.ip_z p)) l
  = map (fun p => (Steps.ip_x p, Steps.ip_y p, Steps.ip_z p)) l' ->
  l !! i = Some p ->
  exists p', l' !! i = Some p' /\
    Steps.ip_x p' = Steps.ip_x p /\ Steps.ip_y p' = Steps.ip_y p /\
    Steps.ip_z p' = Steps.ip_z p.
Proof.
  intros E Hp.
  assert (map (fun p => (Steps.ip_x p, Steps.ip_y p, Steps.ip_z p)) l' !! i
          = Some (Steps.ip_x p, Steps.ip_y p, Steps.ip_z p)) as H.
  { rewrite <- E. change (map ?f l) with (f <$> l).
    rewrite list_lookup_fmap, Hp. reflexivity. }
  change (map ?f l') with (f <$> l') in H. rewrite list_lookup_fmap in H.
  destruct (l' !! i) as [p'|]; [|discriminate]. cbn in H.
  exists p'. split; [reflexivity|]. injection H as -> -> ->. auto.
Qed.

(** The places of the ionisation points. *)
Lemma ionisation_points_spec
    (sqrt : Q -> Q) (SampleFluctuations : Z -> Q -> Q -> Q -> Q -> Q -> Q)
    (shoot : nat -> Q) (shoot_in : nat -> Q -> Q -> Q)
    (fuel : nat) (s : Steps.DigitiserState) (m : Track.TrackMembers)
    (f : Track.LocalHit) (hitEDep ht th : Q) (r : Steps.DigitiserState * Track.TrackMembers) :
  Digitiser._currentLayer (Steps.conf s) <> -1 ->
  vec_read (Digitiser._layerHalfThickness (Steps.conf s))
           (Digitiser._currentLayer (Steps.conf s)) = Some ht ->
  vec_read (Steps._layerThickness s) (Digitiser._currentLayer (Steps.conf s)) = Some th ->
  Track.ProduceIonisationPoints sqrt SampleFluctuations shoot shoot_in fuel s m
    (Some f) hitEDep = Some r ->
  let n := Steps._numberOfSegments r.1 in
  let pos := Track.localPosition f in
  let dir := Track.localDirection f in
  n = Qceiling (track_length sqrt m dir th / Track._segmentLength m) /\
  0 < n /\
  Z.of_nat (length (Steps._ionisationPoints r.1)) = n /\
  Track._segmentDepth r.2 = (th / inject_Z n)%Q /\
  forall i p, vec_read (Steps._ionisationPoints r.1) i = Some p ->
    (Steps.ip_z p == - ht + (inject_Z i + (1 # 2)) * (th / inject_Z n))%Q /\
    (Steps.ip_x p == pos.1.1 + dir.1.1 / dir.2 * (Steps.ip_z p - pos.2))%Q /\
    (Steps.ip_y p == pos.1.2 + dir.1.2 / dir.2 * (Steps.ip_z p - pos.2))%Q /\
    (th == 2 * ht -> 0 < ht -> - ht < Steps.ip_z p /\ Steps.ip_z p < ht)%Q.
Proof.
  intros Hlayer Hht Hth E.
  destruct (ProduceIonisationPoints_Some _ _ _ _ _ _ _ _ _ _ Hlayer E)
    as (ht' & th' & n0 & Hht' & Hth' & Hdz & Hn & Hpos & He).
  assert (ht' = ht) as -> by congruence. assert (th' = th) as -> by congruence.
  rewrite (ProduceIonisationPoints_eq _ _ _ _ _ _ _ _ _ ht th n0
             Hlayer Hht Hth Hdz Hn Hpos He) in E.
  match type of E with (?pt ≫= _) = _ => destruct pt as [r0|] eqn:Ep end;
    [|discriminate].
  cbn [mbind option_bind] in E. injection E as <-.
  cbn [fst snd Steps._numberOfSegments Steps._ionisationPoints
       Track.with_ionisationPoints Track.with_track Track._segmentDepth].
  apply pad_tail_frame in Ep as (_ & Eplace & _).
  match type of Eplace with _ = map _ (Track.loop_points (fold_left ?g _ ?init)) =>
    pose proof (segment_loop_spec SampleFluctuations s (Track.with_particle m f)
                  (Track.localPosition f)
                  ((Track.localDirection f).1.1 / (Track.localDirection f).2)
                  ((Track.localDirection f).1.2 / (Track.localDirection f).2)
                  (th / inject_Z n0)
                  (track_length sqrt m (Track.localDirection f) th / inject_Z n0)
                  (Digitiser.keV (Steps.conf s) * Track._energyLoss m
                   * track_length sqrt m (Track.localDirection f) th / inject_Z n0)
                  (- ht - (1 # 2) * (th / inject_Z n0))
                  (Track.resize n0 (Steps._ionisationPoints s))
                  (Z.to_nat n0)) as L
  end.
  rewrite length_resize in L by lia. specialize (L ltac:(lia)).
  cbv zeta in L. rewrite Z2Nat.id in L by lia.
  destruct L as (_ & Ll & _ & Lp).
  apply ceil_to_int_Some in Hn as (_ & Hc & _).
  assert (length r0.1 = Z.to_nat n0) as Hlen.
  { apply (f_equal length) in Eplace. rewrite !length_map in Eplace.
    rewrite Eplace, Ll. reflexivity. }
  split; [exact Hc|]. split; [exact Hpos|]. split; [lia|].
  split; [reflexivity|].
  intros i p Hp.
  pose proof (vec_read_Some _ _ _ Hp) as Hi.
  unfold vec_read in Hp. destruct (Z.leb_spec 0 i) as [Hi0|]; [|discriminate].
  destruct (lookup_same_place _ _ _ _ Eplace Hp) as (p' & Hp' & Ex & Ey & Ez).
  destruct (Lp (Z.to_nat i) p' ltac:(lia) Hp') as (Pz & Px & Py & _).
  rewrite Z2Nat.id in Pz by lia.
  rewrite Ex in Px. rewrite Ey in Py. rewrite Ez in Pz, Px, Py.
  assert (Steps.ip_z p == - ht + (inject_Z i + (1 # 2)) * (th / inject_Z n0))%Q as Hz
    by (rewrite Pz; ring).
  split; [exact Hz|]. split; [exact Px|]. split; [exact Py|].
  intros Hth2 Hht0.
  assert (0 < inject_Z n0)%Q as Hnq
    by (change 0%Q with (inject_Z 0); rewrite <- Zlt_Qlt; exact Hpos).
  assert (0 <= inject_Z i)%Q as Hiq
    by (change 0%Q with (inject_Z 0); rewrite <- Zle_Qle; exact Hi0).
  assert (inject_Z i + 1 <= inject_Z n0)%Q as Hin.
  { change 1%Q with (inject_Z 1). rewrite <- inject_Z_plus, <- Zle_Qle. lia. }
  set (t := ((inject_Z i + (1 # 2)) / inject_Z n0)%Q).
  assert (0 < t)%Q as Ht0 by (apply Qlt_shift_div_l; lra).
  assert (t < 1)%Q as Ht1 by (apply Qlt_shift_div_r; lra).
  assert (Steps.ip_z p == - ht + t * (2 * ht))%Q as Hz'.
  { rewrite Hz, Hth2. unfold t. field. lra. }
  assert (0 < t * (2 * ht))%Q by (apply Qmult_lt_0_compat; lra).
  assert (0 < (1 - t) * (2 * ht))%Q by (apply Qmult_lt_0_compat; lra).
  split; lra.
Qed.



(** The loop over the segments, with the names of the theorems below. *)
Lemma segment_loop_facts (SampleFluctuations : Z -> Q -> Q -> Q -> Q -> Q -> Q)
    s m pos tanx tany depth segmentLength dEmean z0 lst n :
  0 <= n ->
  let a := fold_left
             (Track.segment_step SampleFluctuations s m pos tanx tany depth
                segmentLength dEmean)
             (seqZ 0 n)
             {| Track.loop_z := z0; Track.loop_eSum := 0;
                Track.loop_points := Track.resize n lst |} in
  Z.of_nat (length (Track.loop_points a)) = n /\
  (Track.loop_eSum a == Qsum (map Steps.eloss (Track.loop_points a)))%Q /\
  forall i p, vec_read (Track.loop_points a) i = Some p ->
    Steps.eloss p =
      (SampleFluctuations i
         (Track._currentParticleMomentum m * Digitiser.keV (Steps.conf s) / Track.MeV m)
         (Track._currentParticleMass m * Digitiser.keV (Steps.conf s) / Track.MeV m)
         (Track._cutOnDeltaRays m) segmentLength (dEmean / Track.MeV m)
       * Track.MeV m)%Q.
Proof.
  intros Hn a.
  pose proof (segment_loop_spec SampleFluctuations s m pos tanx tany depth
                segmentLength dEmean z0 (Track.resize n lst) (Z.to_nat n)) as L.
  rewrite length_resize in L by lia. specialize (L ltac:(lia)).
  cbv zeta in L. rewrite Z2Nat.id in L by lia. fold a in L.
  destruct L as (_ & Ll & Le & Lp).
  split; [lia|]. split.
  - rewrite Le, take_ge by lia. reflexivity.
  - intros i p Hp. pose proof (vec_read_Some _ _ _ Hp) as Hi.
    unfold vec_read in Hp. destruct (Z.leb_spec 0 i) as [Hi0|]; [|discriminate].
    destruct (Lp (Z.to_nat i) p ltac:(lia) Hp) as (_ & _ & _ & Pe).
    rewrite Z2Nat.id in Pe by lia. exact Pe.
Qed.


(** X24.  What a result of [ProduceIonisationPoints] keeps of the energy:
    [_eSum] is the sum of the losses of the ionisation points, and the
    padding loop has ended, [hit->getEDep() / GeV <= _eSum + thr] with [thr]
    the padding threshold. *)
Theorem ProduceIonisationPoints_energy
    (sqrt : Q -> Q) (SampleFluctuations : Z -> Q -> Q -> Q -> Q -> Q -> Q)
    (shoot : nat -> Q) (shoot_in : nat -> Q -> Q -> Q)
    (fuel : nat) (s : Steps.DigitiserState) (m : Track.TrackMembers)
    (f : Track.LocalHit) (hitEDep : Q) (r : Steps.DigitiserState * Track.TrackMembers) :
  Digitiser._currentLayer (Steps.conf s) <> -1 ->
  Track.ProduceIonisationPoints sqrt SampleFluctuations shoot shoot_in fuel s m
    (Some f) hitEDep = Some r ->
  (Track._eSum r.2 == Qsum (map Steps.eloss (Steps._ionisationPoints r.1)))%Q /\
  (hitEDep / Track.GeV m <= Track._eSum r.2 + padding_threshold s m)%Q.
Proof.
  intros Hlayer E.
  destruct (ProduceIonisationPoints_Some _ _ _ _ _ _ _ _ _ _ Hlayer E)
    as (ht & th & n & Hht & Hth & Hdz & Hn & Hpos & He).
  rewrite (ProduceIonisationPoints_eq _ _ _ _ _ _ _ _ _ ht th n
             Hlayer Hht Hth Hdz Hn Hpos He) in E.
  match type of E with (?pt ≫= _) = _ => destruct pt as [r0|] eqn:Ep end;
    [|discriminate].
  cbn [mbind option_bind] in E. injection E as <-.
  cbn [fst snd Steps._ionisationPoints Track.with_ionisationPoints
       Track.with_track Track._eSum].
  apply pad_tail_frame in Ep as (Ex & _ & Es).
  match type of Es with
  | context [fold_left (Track.segment_step ?fl ?s0 ?m0 ?p0 ?tx ?ty ?dp ?sl ?dE)
                (seqZ 0 n)
                {| Track.loop_z := ?z0; Track.loop_eSum := 0;
                   Track.loop_points := Track.resize n ?lst |}] =>
    destruct (segment_loop_facts fl s0 m0 p0 tx ty dp sl dE z0 lst n ltac:(lia))
      as (_ & Le & _)
  end.
  split; [lra|exact Ex].
Qed.


(** X26.  [ProduceSignalPoints] after [ProduceIonisationPoints], as
    [processEvent] calls them: when [ProduceIonisationPoints] has a result
    for a hit inside the bounds of its surface, [ProduceSignalPoints] has
    one, with [_numberOfSegments] signal points whose charges sum to
    [_eSum / keV * _electronsPerKeV]. *)
Theorem ProduceSignalPoints_after_ionisation
    (sqrt : Q -> Q) (SampleFluctuations : Z -> Q -> Q -> Q -> Q -> Q -> Q)
    (shoot : nat -> Q) (shoot_in : nat -> Q -> Q -> Q)
    (fuel : nat) (s : Steps.DigitiserState) (m : Track.TrackMembers)
    (f : Track.LocalHit) (hitEDep : Q) (r : Steps.DigitiserState * Track.TrackMembers) :
  Digitiser._currentLayer (Steps.conf s) <> -1 ->
  Track.ProduceIonisationPoints sqrt SampleFluctuations shoot shoot_in fuel s m
    (Some f) hitEDep = Some r ->
  exists pts,
    Steps.ProduceSignalPoints sqrt r.1 = Some (Steps.with_signalPoints r.1 pts) /\
    Z.of_nat (length pts) = Steps._numberOfSegments r.1 /\
    (Qsum (map Steps.sp_charge pts)
     == Track._eSum r.2 / Digitiser.keV (Steps.conf s)
        * Digitiser._electronsPerKeV (Steps.conf s))%Q.
Proof.
  intros Hlayer E.
  destruct (ProduceIonisationPoints_Some _ _ _ _ _ _ _ _ _ _ Hlayer E)
    as (ht & th & n & Hht & Hth & Hdz & Hn & Hpos & He).
  rewrite (ProduceIonisationPoints_eq _ _ _ _ _ _ _ _ _ ht th n
             Hlayer Hht Hth Hdz Hn Hpos He) in E.
  match type of E with (?pt ≫= _) = _ => destruct pt as [r0|] eqn:Ep end;
    [|discriminate].
  cbn [mbind option_bind] in E. injection E as <-.
  apply pad_tail_frame in Ep as (_ & Eplace & Es).
  match type of Es with
  | context [fold_left (Track.segment_step ?fl ?s0 ?m0 ?p0 ?tx ?ty ?dp ?sl ?dE)
                (seqZ 0 n)
                {| Track.loop_z := ?z0; Track.loop_eSum := 0;
                   Track.loop_points := Track.resize n ?lst |}] =>
    destruct (segment_loop_facts fl s0 m0 p0 tx ty dp sl dE z0 lst n ltac:(lia))
      as (Ll & Le & _)
  end.
  assert (Z.of_nat (length r0.1) = n) as Hlen.
  { apply (f_equal length) in Eplace. rewrite !length_map in Eplace. lia. }
  set (s' := Track.with_ionisationPoints s n r0.1).
  assert (take (Z.to_nat (Steps._numberOfSegments s')) (Steps._ionisationPoints s')
          = r0.1) as Etake by (apply take_ge; cbn; lia).
  eexists. split; [|split].
  - cbn [fst]. apply (ProduceSignalPoints_eq sqrt s' ht); [cbn; lia|exact Hht].
  - rewrite Etake, length_map. exact Hlen.
  - rewrite Etake, map_map.
    change (fun x => Steps.sp_charge (Steps.signal_point sqrt s' ht x))
      with (fun p => (Steps.eloss p / Digitiser.keV (Steps.conf s)
                      * Digitiser._electronsPerKeV (Steps.conf s))%Q).
    rewrite Qsum_scaled.
    cbn [snd Track.with_track Track._eSum].
    assert (r0.2 == Qsum (map Steps.eloss r0.1))%Q as -> by lra.
    reflexivity.
Qed.



Lemma ProduceIonisationPoints_energy_witness :
  exists r,
    Track.ProduceIonisationPoints sample_sqrt sample_fluctuations sample_shoot
      sample_shoot_in 60 sample_state sample_members (Some sample_hit) sample_EDep
    = Some r /\
    (Track._eSum r.2 == Qsum (map Steps.eloss (Steps._ionisationPoints r.1)))%Q /\
    (sample_EDep / Track.GeV sample_members
     <= Track._eSum r.2 + padding_threshold sample_state sample_members)%Q.
Proof.
  eexists. split; [vm_compute; reflexivity|].
  apply (ProduceIonisationPoints_energy sample_sqrt sample_fluctuations
           sample_shoot sample_shoot_in 60 sample_state sample_members
           sample_hit sample_EDep).
  - vm_compute. discriminate.
  - vm_compute. reflexivity.
Defined.


Lemma ProduceSignalPoints_after_ionisation_witness :
  exists r,
    Track.ProduceIonisationPoints sample_sqrt sample_fluctuations sample_shoot
      sample_shoot_in 60 sample_state sample_members (Some sample_hit) sample_EDep
    = Some r /\
    exists pts,
      Steps.ProduceSignalPoints sample_sqrt r.1
      = Some (Steps.with_signalPoints r.1 pts) /\
      Z.of_nat (length pts) = Steps._numberOfSegments r.1 /\
      (Qsum (map Steps.sp_charge pts)
       == Track._eSum r.2 / Digitiser.keV (Steps.conf sample_state)
          * Digitiser._electronsPerKeV (Steps.conf sample_state))%Q.
Proof.
  eexists. split; [vm_compute; reflexivity|].
  apply (ProduceSignalPoints_after_ionisation sample_sqrt sample_fluctuations
           sample_shoot sample_shoot_in 60 sample_state sample_members
           sample_hit sample_EDep).
  - vm_compute. discriminate.
  - vm_compute. reflexivity.
Defined.


(** ** processRunHeader *)

Lemma length_vec_resize {A : Type} n (dflt : A) v :
  0 <= n -> length (vec_resize n dflt v) = Z.to_nat n.
Proof.
  intros Hn. unfold vec_resize.
  rewrite length_app, length_take, length_replicate. lia.
Qed.

Lemma vec_write_insert {A : Type} (v : list A) (k : nat) (a : A) :
  vec_write v (Z.of_nat k) a = <[k := a]> v.
Proof.
  unfold vec_write, vec_alter. destruct (Z.leb_spec 0 (Z.of_nat k)); [|lia].
  rewrite Nat2Z.id. symmetry. apply list_insert_alter.
Qed.

Lemma vec_read_insert {A : Type} (v : list A) (k : nat) (a : A) :
  (k < length v)%nat -> vec_read (<[k := a]> v) (Z.of_nat k) = Some a.
Proof.
  intros Hk. unfold vec_read. destruct (Z.leb_spec 0 (Z.of_nat k)); [|lia].
  rewrite Nat2Z.id. apply list_lookup_insert_eq. exact Hk.
Qed.

(** A table of which the entries from [k] on are written one by one. *)
Lemma fill_step {A : Type} (T : list A) (k m : nat) (a : A) (tl : list A) :
  (k < length T)%nat ->
  take (S k) (<[k := a]> T) ++ tl ++ drop (S k + m) (<[k := a]> T)
  = take k T ++ (a :: tl) ++ drop (k + S m) T.
Proof.
  intros Hk.
  rewrite (take_S_r _ _ a) by (apply list_lookup_insert_eq; exact Hk).
  rewrite take_insert_ge by lia.
  rewrite drop_insert_lt by lia.
  rewrite <- app_assoc. cbn [app].
  replace (S k + m)%nat with (k + S m)%nat by lia. reflexivity.
Qed.

Section GeometryFacts.

Import Geometry.

Variable ZSEGMENTED : bool.
Variable M_PI : Q.
Variable cm : Q.
Variable mm : Q.

(** One turn of the loop over the layers writes the entry [k] of every
    table. *)
Lemma layer_step_spec (g : Tables) (k : nat) (l : LayerLayout) :
  ladderNumber l <> 0 ->
  (k < length (_laddersInLayer g))%nat ->
  (k < length (_layerThickness g))%nat ->
  (k < length (_layerHalfThickness g))%nat ->
  (k < length (_layerLadderWidth g))%nat ->
  Z.of_nat k < Int32.INT_MAX ->
  layer_step ZSEGMENTED M_PI cm mm (g, Z.of_nat k) l
  = Some
      ({| _nRun := _nRun g;
          _numberOfLayers := _numberOfLayers g;
          _laddersInLayer := <[k := ladderNumber l]> (_laddersInLayer g);
          _sensorsPerLadder :=
            if ZSEGMENTED then <[k := sensorsPerLadder l]> (_sensorsPerLadder g)
            else _sensorsPerLadder g;
          _layerHalfPhi :=
            <[k := (M_PI / inject_Z (ladderNumber l))%Q]> (_layerHalfPhi g);
          _layerHalfThickness :=
            <[k := ((1 # 2) * (thicknessSensitive l * cm / mm))%Q]>
              (_layerHalfThickness g);
          _layerThickness :=
            <[k := (thicknessSensitive l * cm / mm)%Q]> (_layerThickness g);
          _layerRadius :=
            <[k := (distanceSensitive l * cm / mm
                    + (1 # 2) * (thicknessSensitive l * cm / mm))%Q]>
              (_layerRadius g);
          _layerLadderLength :=
            <[k := (if ZSEGMENTED
                    then lengthSensor l * inject_Z (sensorsPerLadder l) * cm / mm
                    else lengthSensor l * cm / mm)%Q]>
              (_layerLadderLength g);
          _layerLadderWidth :=
            <[k := (widthSensitive l * cm / mm)%Q]> (_layerLadderWidth g);
          _layerLadderHalfWidth :=
            <[k := (widthSensitive l * cm / mm / 2)%Q]> (_layerLadderHalfWidth g);
          _layerActiveSiOffset :=
            <[k := (- offsetSensitive l * cm / mm)%Q]> (_layerActiveSiOffset g);
          _layerPhiOffset := <[k := phi0 l]> (_layerPhiOffset g) |},
       Z.of_nat (S k)).
Proof.
  intros Hl H1 H2 H3 H4 Hk. unfold layer_step. cbn [fst snd].
  repeat first [rewrite vec_write_insert
               |rewrite vec_read_insert by assumption
               |progress cbn [mbind option_bind]].
  rewrite quotient_defined.
  2:{ unfold double_of_int. change 0%Q with (inject_Z 0).
      rewrite inject_Z_injective. exact Hl. }
  repeat first [rewrite vec_write_insert
               |rewrite vec_read_insert by assumption
               |progress cbn [mbind option_bind]].
  unfold double_of_int.
  replace (Int32.add (Z.of_nat k) 1) with (Z.of_nat (S k)).
  2:{ unfold Int32.add. rewrite wrap32_id; [lia|].
      unfold Int32.in_range, Int32.INT_MIN, Int32.INT_MAX in *. lia. }
  destruct ZSEGMENTED; rewrite ?vec_write_insert; reflexivity.
Qed.

Lemma fill_nil {A : Type} (T : list A) (k : nat) :
  take k T ++ [] ++ drop (k + 0) T = T.
Proof. rewrite Nat.add_0_r. cbn [app]. apply take_drop. Qed.

(** The loop over the layers fills the tables from the entry [k] on. *)
Lemma layers_loop_spec (layers : list LayerLayout) : forall (g : Tables) (k : nat),
  Forall (fun l => ladderNumber l <> 0) layers ->
  tables_hold ZSEGMENTED g (k + length layers) ->
  Z.of_nat (k + length layers) <= Int32.INT_MAX ->
  Steps.fold_opt (layer_step ZSEGMENTED M_PI cm mm) layers (g, Z.of_nat k)
  = Some (fill_tables ZSEGMENTED M_PI cm mm g k layers,
          Z.of_nat (k + length layers)).
Proof.
  induction layers as [|l layers IH]; intros g k Hl Hg Hk.
  - cbn [Steps.fold_opt length]. rewrite Nat.add_0_r. f_equal. f_equal.
    unfold fill_tables. destruct g. cbn [map length
      _nRun _numberOfLayers _laddersInLayer _sensorsPerLadder _layerHalfPhi
      _layerHalfThickness _layerThickness _layerRadius _layerLadderLength
      _layerLadderWidth _layerLadderHalfWidth _layerActiveSiOffset
      _layerPhiOffset].
    rewrite !fill_nil. destruct ZSEGMENTED; reflexivity.
  - apply Forall_cons in Hl as [Hl0 Hl].
    cbn [length] in Hg, Hk.
    destruct Hg as (G1 & G2 & G3 & G4 & G5 & G6 & G7 & G8 & G9 & G10 & G11).
    cbn [Steps.fold_opt].
    rewrite layer_step_spec by (first [exact Hl0|lia]).
    cbn [mbind option_bind].
    rewrite IH; [| exact Hl | | lia].
    2:{ unfold tables_hold. cbn [
          _nRun _numberOfLayers _laddersInLayer _sensorsPerLadder _layerHalfPhi
          _layerHalfThickness _layerThickness _layerRadius _layerLadderLength
          _layerLadderWidth _layerLadderHalfWidth _layerActiveSiOffset
          _layerPhiOffset].
        rewrite !length_insert.
        repeat split; try lia.
        intros Hz. specialize (G2 Hz). rewrite Hz, length_insert. lia. }
    cbn [length]. f_equal. f_equal; [|f_equal; lia].
    unfold fill_tables. cbn [map length
      _nRun _numberOfLayers _laddersInLayer _sensorsPerLadder _layerHalfPhi
      _layerHalfThickness _layerThickness _layerRadius _layerLadderLength
      _layerLadderWidth _layerLadderHalfWidth _layerActiveSiOffset
      _layerPhiOffset].
    rewrite !fill_step by lia.
    destruct ZSEGMENTED; [|reflexivity].
    rewrite fill_step by (specialize (G2 eq_refl); lia). reflexivity.
Qed.

End GeometryFacts.

(** The tables that [processRunHeader] leaves, for any tables before. *)
Lemma processRunHeader_eq (ZSEGMENTED : bool) (M_PI cm mm : Q)
    (g : Geometry.Tables) (vx_layers : list Geometry.LayerLayout) :
  Z.of_nat (length vx_layers) <= Int32.INT_MAX ->
  Forall (fun l => Geometry.ladderNumber l <> 0) vx_layers ->
  exists g',
    Geometry.processRunHeader ZSEGMENTED M_PI cm mm g vx_layers true = Some g' /\
    Geometry._nRun g' = Int32.add (Geometry._nRun g) 1 /\
    Geometry._numberOfLayers g' = Z.of_nat (length vx_layers) /\
    Geometry._laddersInLayer g' = map Geometry.ladderNumber vx_layers /\
    Geometry._layerHalfPhi g'
    = map (fun l => M_PI / inject_Z (Geometry.ladderNumber l))%Q vx_layers /\
    Geometry._layerThickness g'
    = map (fun l => Geometry.thicknessSensitive l * cm / mm)%Q vx_layers /\
    Geometry._layerHalfThickness g'
    = map (fun l => (1 # 2) * (Geometry.thicknessSensitive l * cm / mm))%Q
        vx_layers /\
    Geometry._layerRadius g'
    = map (fun l => Geometry.distanceSensitive l * cm / mm
                    + (1 # 2) * (Geometry.thicknessSensitive l * cm / mm))%Q
        vx_layers /\
    Geometry._layerLadderLength g'
    = map (fun l => if ZSEGMENTED
                    then Geometry.lengthSensor l
                         * inject_Z (Geometry.sensorsPerLadder l) * cm / mm
                    else Geometry.lengthSensor l * cm / mm)%Q vx_layers /\
    Geometry._layerLadderWidth g'
    = map (fun l => Geometry.widthSensitive l * cm / mm)%Q vx_layers /\
    Geometry._layerLadderHalfWidth g'
    = map (fun l => Geometry.widthSensitive l * cm / mm / 2)%Q vx_layers /\
    Geometry._layerActiveSiOffset g'
    = map (fun l => - Geometry.offsetSensitive l * cm / mm)%Q vx_layers /\
    Geometry._layerPhiOffset g' = map Geometry.phi0 vx_layers /\
    Geometry._sensorsPerLadder g'
    = if ZSEGMENTED then map Geometry.sensorsPerLadder vx_layers
      else Geometry._sensorsPerLadder g.
Proof.
  intros Hlen Hl. unfold Geometry.processRunHeader. cbn [negb].
  set (n := length vx_layers) in *.
  rewrite wrap32_id by (apply in_range_nonneg; lia).
  destruct (Z.ltb_spec (Z.of_nat n) 0) as [|_]; [lia|].
  match goal with |- context [Steps.fold_opt _ _ (?x, 0)] =>
    set (g1 := x); change (g1, 0) with (g1, Z.of_nat 0) end.
  assert (forall {A : Type} (d : A) (T : list A),
            length (vec_resize (Z.of_nat n) d T) = n) as Hr.
  { intros A d T. rewrite length_vec_resize by lia. lia. }
  rewrite (layers_loop_spec ZSEGMENTED M_PI cm mm vx_layers g1 0 Hl).
  2:{ unfold tables_hold, g1. cbn [Geometry._laddersInLayer
        Geometry._sensorsPerLadder Geometry._layerHalfPhi
        Geometry._layerHalfThickness Geometry._layerThickness
        Geometry._layerRadius Geometry._layerLadderLength
        Geometry._layerLadderWidth Geometry._layerLadderHalfWidth
        Geometry._layerActiveSiOffset Geometry._layerPhiOffset].
      rewrite !Hr. fold n. cbn [Nat.add].
      repeat split; try lia. intros ->. rewrite Hr. lia. }
  2:{ fold n. cbn [Nat.add]. exact Hlen. }
  cbn [mbind option_bind fst]. eexists. split; [reflexivity|].
  assert (forall {A B : Type} (f : B -> A) (d : A) (T : list A) (l : list B),
            length l = n ->
            take 0 (vec_resize (Z.of_nat n) d T) ++ map f l
            ++ drop (0 + length l) (vec_resize (Z.of_nat n) d T) = map f l) as Hf.
  { intros A B f d T l El. cbn [take app Nat.add].
    rewrite drop_ge by (rewrite Hr; lia). apply app_nil_r. }
  unfold fill_tables, g1. cbn [Geometry._nRun Geometry._numberOfLayers
    Geometry._laddersInLayer
    Geometry._sensorsPerLadder Geometry._layerHalfPhi
    Geometry._layerHalfThickness Geometry._layerThickness
    Geometry._layerRadius Geometry._layerLadderLength
    Geometry._layerLadderWidth Geometry._layerLadderHalfWidth
    Geometry._layerActiveSiOffset Geometry._layerPhiOffset].
  rewrite !Hf by reflexivity.
  repeat (split; [reflexivity|]).
  destruct ZSEGMENTED; [apply Hf|]; reflexivity.
Qed.

(** X27.  [processRunHeader], when the surface map is found, fills the
    geometry tables from the layers of the detector alone: for at most
    [INT_MAX] layers with a non-zero number of ladders, every table has one
    entry per layer, whatever it held before, and for every layer the half
    thickness is half the thickness, the half width is half the width, and
    the radius is the distance of the sensitive part plus the half
    thickness. *)
Theorem processRunHeader_tables (ZSEGMENTED : bool) (M_PI cm mm : Q)
    (g : Geometry.Tables) (vx_layers : list Geometry.LayerLayout) :
  Z.of_nat (length vx_layers) <= Int32.INT_MAX ->
  Forall (fun l => Geometry.ladderNumber l <> 0) vx_layers ->
  exists g',
    (forall g0, Geometry._nRun g0 = Geometry._nRun g ->
       (ZSEGMENTED = false ->
        Geometry._sensorsPerLadder g0 = Geometry._sensorsPerLadder g) ->
       Geometry.processRunHeader ZSEGMENTED M_PI cm mm g0 vx_layers true
       = Some g') /\
    Geometry._numberOfLayers g' = Z.of_nat (length vx_layers) /\
    length (Geometry._layerThickness g') = length vx_layers /\
    length (Geometry._layerHalfThickness g') = length vx_layers /\
    length (Geometry._layerLadderLength g') = length vx_layers /\
    length (Geometry._layerLadderWidth g') = length vx_layers /\
    length (Geometry._layerLadderHalfWidth g') = length vx_layers /\
    length (Geometry._layerRadius g') = length vx_layers /\
    forall (i : nat) l, vx_layers !! i = Some l ->
      exists th w,
        Geometry._layerThickness g' !! i = Some th /\
        Geometry._layerHalfThickness g' !! i = Some ((1 # 2) * th)%Q /\
        Geometry._layerLadderWidth g' !! i = Some w /\
        Geometry._layerLadderHalfWidth g' !! i = Some (w / 2)%Q /\
        Geometry._layerRadius g' !! i
        = Some (Geometry.distanceSensitive l * cm / mm + (1 # 2) * th)%Q /\
        th = (Geometry.thicknessSensitive l * cm / mm)%Q /\
        w = (Geometry.widthSensitive l * cm / mm)%Q.
Proof.
  intros Hlen Hl.
  destruct (processRunHeader_eq ZSEGMENTED M_PI cm mm g vx_layers Hlen Hl)
    as (g' & E & E0 & E1 & E2 & E3 & E4 & E5 & E6 & E7 & E8 & E9 & E10 & E11 & E12).
  exists g'. split.
  - intros g0 Hrun Hsens.
    destruct (processRunHeader_eq ZSEGMENTED M_PI cm mm g0 vx_layers Hlen Hl)
      as (g'' & F & F0 & F1 & F2 & F3 & F4 & F5 & F6 & F7 & F8 & F9 & F10 & F11 & F12).
    rewrite F. f_equal. destruct g', g''.
    cbn [Geometry._nRun Geometry._numberOfLayers Geometry._laddersInLayer
         Geometry._sensorsPerLadder Geometry._layerHalfPhi
         Geometry._layerHalfThickness Geometry._layerThickness
         Geometry._layerRadius Geometry._layerLadderLength
         Geometry._layerLadderWidth Geometry._layerLadderHalfWidth
         Geometry._layerActiveSiOffset Geometry._layerPhiOffset] in *.
    assert (_sensorsPerLadder0 = _sensorsPerLadder) as ->.
    { rewrite F12, E12. destruct ZSEGMENTED; [reflexivity|]. apply Hsens. reflexivity. }
    congruence.
  - split; [exact E1|].
    rewrite E4, E5, E7, E8, E9, E6, !length_map.
    repeat (split; [reflexivity|]).
    intros i l Hi. eexists _, _.
    change (map ?f vx_layers) with (f <$> vx_layers).
    rewrite !list_lookup_fmap, Hi. cbn. repeat split; reflexivity.
Qed.

Lemma processRunHeader_tables_witness :
  exists g',
    Geometry.processRunHeader true (314 # 100) (1 # 10) 1
      (Geometry.mkTables 0 7 [1; 2; 3] [] [] [1%Q] [] [] [] [] [] [] [])
      [Geometry.mkLayerLayout 16 (5 # 1000) 3 (13 # 1) 5 (13 # 10) 0 0;
       Geometry.mkLayerLayout 15 (5 # 1000) 5 (13 # 1) 5 (23 # 10) 0 (1 # 10)]
      true = Some g' /\
    Geometry._numberOfLayers g' = 2 /\
    length (Geometry._layerHalfThickness g') = 2%nat.
Proof.
  destruct (processRunHeader_tables true (314 # 100) (1 # 10) 1
              (Geometry.mkTables 0 7 [1; 2; 3] [] [] [1%Q] [] [] [] [] [] [] [])
              [Geometry.mkLayerLayout 16 (5 # 1000) 3 (13 # 1) 5 (13 # 10) 0 0;
               Geometry.mkLayerLayout 15 (5 # 1000) 5 (13 # 1) 5 (23 # 10) 0 (1 # 10)])
    as (g' & E & En & _ & Eh & _).
  - vm_compute. discriminate.
  - repeat constructor; discriminate.
  - exists g'. split; [apply E; reflexivity|]. split; [exact En|exact Eh].
Defined.

Lemma vec_read_map {A B : Type} (f : A -> B) (v : list A) i a :
  vec_read v i = Some a -> vec_read (map f v) i = Some (f a).
Proof.
  unfold vec_read. destruct (0 <=? i); [|discriminate].
  intros H. change (map f v) with (f <$> v).
  rewrite list_lookup_fmap, H. reflexivity.
Qed.

(** X28.  [ProduceIonisationPoints] after [processRunHeader]: with the
    thickness and half thickness tables that [processRunHeader] has filled,
    and a current layer of positive sensitive thickness, every ionisation
    point that [ProduceIonisationPoints] makes is strictly inside the
    sensitive layer, [-th / 2 < z < th / 2]. *)
Theorem ionisation_inside_layer (ZSEGMENTED : bool) (M_PI cm mm : Q)
    (g g' : Geometry.Tables) (vx_layers : list Geometry.LayerLayout)
    (sqrt : Q -> Q) (SampleFluctuations : Z -> Q -> Q -> Q -> Q -> Q -> Q)
    (shoot : nat -> Q) (shoot_in : nat -> Q -> Q -> Q)
    (fuel : nat) (s : Steps.DigitiserState) (m : Track.TrackMembers)
    (f : Track.LocalHit) (hitEDep : Q)
    (r : Steps.DigitiserState * Track.TrackMembers) (l : Geometry.LayerLayout) :
  Z.of_nat (length vx_layers) <= Int32.INT_MAX ->
  Forall (fun l => Geometry.ladderNumber l <> 0) vx_layers ->
  Geometry.processRunHeader ZSEGMENTED M_PI cm mm g vx_layers true = Some g' ->
  Digitiser._layerHalfThickness (Steps.conf s) = Geometry._layerHalfThickness g' ->
  Steps._layerThickness s = Geometry._layerThickness g' ->
  vec_read vx_layers (Digitiser._currentLayer (Steps.conf s)) = Some l ->
  (0 < Geometry.thicknessSensitive l * cm / mm)%Q ->
  Track.ProduceIonisationPoints sqrt SampleFluctuations shoot shoot_in fuel s m
    (Some f) hitEDep = Some r ->
  forall i p, vec_read (Steps._ionisationPoints r.1) i = Some p ->
    (- ((1 # 2) * (Geometry.thicknessSensitive l * cm / mm)) < Steps.ip_z p /\
     Steps.ip_z p < (1 # 2) * (Geometry.thicknessSensitive l * cm / mm))%Q.
Proof.
  intros Hlen Hl E Hh Ht Hlayer Hpos Ep i p Hp.
  destruct (processRunHeader_eq ZSEGMENTED M_PI cm mm g vx_layers Hlen Hl)
    as (g'' & E' & _ & _ & _ & _ & E4 & E5 & _).
  assert (g'' = g') as -> by congruence.
  pose proof (vec_read_Some _ _ _ Hlayer) as Hrange.
  set (th := (Geometry.thicknessSensitive l * cm / mm)%Q) in *.
  assert (vec_read (Digitiser._layerHalfThickness (Steps.conf s))
            (Digitiser._currentLayer (Steps.conf s)) = Some ((1 # 2) * th)%Q) as Hht.
  { rewrite Hh, E5.
    apply (vec_read_map
             (fun l => (1 # 2) * (Geometry.thicknessSensitive l * cm / mm))%Q
             _ _ _ Hlayer). }
  assert (vec_read (Steps._layerThickness s)
            (Digitiser._currentLayer (Steps.conf s)) = Some th) as Hth.
  { rewrite Ht, E4.
    apply (vec_read_map (fun l => Geometry.thicknessSensitive l * cm / mm)%Q
             _ _ _ Hlayer). }
  destruct (ionisation_points_spec sqrt SampleFluctuations shoot shoot_in fuel
              s m f hitEDep _ _ r ltac:(lia) Hht Hth Ep)
    as (_ & _ & _ & _ & Hpts).
  destruct (Hpts i p Hp) as (_ & _ & _ & Hin).
  apply Hin; [ring|]. lra.
Qed.

Lemma ionisation_inside_layer_witness :
  let s :=
    Steps.mkDigitiserState
      (Digitiser.mkMuonCVXDDigitiser (8 # 10) 0 (25 # 1000) (25 # 1000)
         (2703 # 10) 200 0 [(50 # 2000)%Q] [125%Q] [(64 # 10)%Q] (1 # 1000000))
      [(128 # 10)%Q] [(50 # 1000)%Q] (7 # 100) 2 [] [] in
  exists r,
    Track.ProduceIonisationPoints sample_sqrt sample_fluctuations sample_shoot
      sample_shoot_in 60 s sample_members (Some sample_hit) sample_EDep
    = Some r /\
    forall i p, vec_read (Steps._ionisationPoints r.1) i = Some p ->
      (- ((1 # 2) * ((5 # 1000) * 10 / 1)) < Steps.ip_z p /\
       Steps.ip_z p < (1 # 2) * ((5 # 1000) * 10 / 1))%Q.
Proof.
  intros s.
  eexists. split; [vm_compute; reflexivity|].
  eapply (ionisation_inside_layer true (314 # 100) 10 1
            (Geometry.mkTables 0 0 [] [] [] [] [] [] [] [] [] [] []) _
            [Geometry.mkLayerLayout 16 (5 # 1000) 3 (13 # 1) 5 (128 # 100) 0 0]
            sample_sqrt sample_fluctuations sample_shoot sample_shoot_in 60
            s sample_members sample_hit sample_EDep _
            (Geometry.mkLayerLayout 16 (5 # 1000) 3 (13 # 1) 5 (128 # 100) 0 0)).
  - vm_compute. discriminate.
  - repeat constructor; discriminate.
  - vm_compute. reflexivity.
  - reflexivity.
  - reflexivity.
  - reflexivity.
  - vm_compute. reflexivity.
  - vm_compute. reflexivity.
Defined.


(** ** The steps of processEvent for one hit *)









